(** * imap-icloud-migration: the migration engine's pure core, embedded and verified

    The development follows the Python package [imap_icloud_migration]:

    - [Py]            the fragment of Python's [str] / [bytes] / [re] semantics the code relies on;
    - [Labels]        [gmail/labels.py]        (system and custom labels, the label cache);
    - [Email]         [utils/email.py]         (Message-ID normalisation, body prefix, address filter);
    - [Fingerprint]   [utils/fingerprint.py]   (message fingerprint);
    - [EmlStore]      [storage/eml_store.py]   (immutable evidence files);
    - [StateDb]       [storage/state_db.py]    (the SQLite ledger);
    - [Imap]          [imap/client.py]         (LIST, SEARCH and FETCH responses, quoting, batches);
    - [Settings]      [config/settings.py]     (validators);
    - [Orchestrator]  [pipeline/orchestrator.py] (retry with backoff, one message's way through a run);
    - [Claims]        the specification's wording, where a claim compares the code with it;
    - [Examples]      concrete libraries, ledgers and file systems.

    What the code gets from outside (the Unicode database, [hashlib], the
    [email] package, [imaplib], floats, the clock, random draws, the calls of
    a retried function) enters as a class or an argument.  Definitions come
    first, theorems second. *)

From Stdlib Require Import ZArith NArith QArith Qminmax List String Ascii Bool Lia.
From Stdlib Require Import Strings.Byte.
From stdpp Require Import base option list gmap sets strings pretty sorting.

Set Default Proof Using "Type*".

(* ===================================================================== *)
(** * Part I: definitions                                                 *)
(* ===================================================================== *)

(** ** Python values *)

(** A Python [str] is a sequence of Unicode code points, a Python [bytes]
    a sequence of octets. *)
Abbreviation pystr := (list N).
Abbreviation bytes := (list byte).

#[global] Instance byte_eq_dec : EqDecision byte := Byte.byte_eq_dec.

Module Py.

(** ASCII literals. *)
Definition bstr (s : string) : bytes := list_byte_of_string s.
Definition ustr (s : string) : pystr := map Byte.to_N (list_byte_of_string s).
Arguments bstr _%_string.
Arguments ustr _%_string.

(** [bytes.decode("ascii", errors="replace")]: octets above 127 become U+FFFD. *)
Definition decode_ascii_replace (b : bytes) : pystr :=
  map (fun c => let n := Byte.to_N c in if (n <? 128)%N then n else 65533%N) b.

(** [str.isspace] on one code point (the Unicode White_Space set Python uses,
    together with the separators U+001C..U+001F). *)
Definition isspace (c : N) : bool :=
  ((9 <=? c) && (c <=? 13) || (28 <=? c) && (c <=? 32)
   || (c =? 133) || (c =? 160) || (c =? 5760)
   || (8192 <=? c) && (c <=? 8202)
   || (c =? 8232) || (c =? 8233) || (c =? 8239) || (c =? 8287) || (c =? 12288))%N.

(** Whitespace of [bytes.strip()] and [bytes.split()], and of [\s] in a bytes pattern. *)
Definition bisspace (b : byte) : bool :=
  let n := Byte.to_N b in ((9 <=? n) && (n <=? 13) || (n =? 32))%N.

Definition is_ascii (c : N) : bool := (c <? 128)%N.

Definition ascii_lower (c : N) : N :=
  if ((65 <=? c) && (c <=? 90))%N then (c + 32)%N else c.

(** What the interpreter's Unicode database decides. *)
Class Unicode := { unicode_lower : pystr -> pystr }.

(** [str.lower]: on ASCII text, the letters A..Z move to a..z; text with
    other code points is lowered by the Unicode database. *)
Definition lower `{Unicode} (s : pystr) : pystr :=
  if forallb is_ascii s then map ascii_lower s else unicode_lower s.

Section Seq.
Context {C : Type} `{EqDecision C}.

(** [s.startswith(p)] *)
Fixpoint startswith (s p : list C) {struct p} : bool :=
  match p, s with
  | [], _ => true
  | a :: p', b :: s' => bool_decide (a = b) && startswith s' p'
  | _ :: _, [] => false
  end.

(** [s.endswith(p)] *)
Definition endswith (s p : list C) : bool := startswith (rev s) (rev p).

(** [s.find(sub)], with [None] for -1. *)
Fixpoint find (s sub : list C) : option nat :=
  if startswith s sub then Some 0
  else match s with
       | [] => None
       | _ :: s' => S <$> find s' sub
       end.

(** [sub in s] *)
Definition contains (s sub : list C) : bool :=
  match find s sub with Some _ => true | None => false end.

Fixpoint drop_while (f : C -> bool) (s : list C) : list C :=
  match s with
  | [] => []
  | c :: s' => if f c then drop_while f s' else s
  end.

Definition lstrip_by (f : C -> bool) (s : list C) : list C := drop_while f s.
Definition rstrip_by (f : C -> bool) (s : list C) : list C :=
  rev (drop_while f (rev s)).
(** [s.strip()] with [f] the whitespace test, [s.strip(chars)] with [f]
    membership in [chars]. *)
Definition strip_by (f : C -> bool) (s : list C) : list C :=
  rstrip_by f (lstrip_by f s).

(** [s.split(sep, 1)[0]]: the text before the first [sep]. *)
Definition split_first (s sep : list C) : list C :=
  match find s sep with
  | Some i => take i s
  | None => s
  end.

(** [s.replace(old, new)] for a one-character [old]. *)
Definition replace_char (old : C) (new : list C) (s : list C) : list C :=
  flat_map (fun c => if bool_decide (c = old) then new else [c]) s.

(** [s.replace(old, new)] for a two-character [old = [a; b]]. *)
Fixpoint replace_pair (a b : C) (new : list C) (s : list C) : list C :=
  match s with
  | x :: ((y :: s'') as s') =>
      if bool_decide (x = a) && bool_decide (y = b)
      then new ++ replace_pair a b new s''
      else x :: replace_pair a b new s'
  | _ => s
  end.

(** [s.split()]: the maximal runs of non-whitespace. *)
Fixpoint split_ws_from (f : C -> bool) (cur : list C) (s : list C) : list (list C) :=
  match s with
  | [] => match cur with [] => [] | _ => [rev cur] end
  | c :: s' =>
      if f c
      then match cur with
           | [] => split_ws_from f [] s'
           | _ => rev cur :: split_ws_from f [] s'
           end
      else split_ws_from f (c :: cur) s'
  end.
Definition split_ws (f : C -> bool) (s : list C) : list (list C) :=
  split_ws_from f [] s.

(** [s.rfind(sub)] for a one-character [sub]. *)
Definition rfind_char (s : list C) (c : C) : option nat :=
  match find (rev s) [c] with
  | Some i => Some (length s - 1 - i)
  | None => None
  end.

(** [s.find(sub, start)] for a one-character [sub]. *)
Definition find_char_from (s : list C) (c : C) (start : nat) : option nat :=
  match find (drop start s) [c] with
  | Some i => Some (start + i)
  | None => None
  end.
End Seq.

(** *** Regular expressions

    The patterns of the package, as syntax trees, run by a backtracking
    matcher with Python's priorities: alternatives left to right, greedy
    repetition, the first complete match wins. *)
Section Regex.
Context {C : Type}.

Inductive re :=
  | Eps                                   (* the empty pattern *)
  | Chr (p : C -> bool)                   (* one character of a class *)
  | Seq (r1 r2 : re)
  | Alt (r1 r2 : re)                      (* r1|r2 *)
  | Star (r : re)                         (* r*, greedy *)
  | Grp (name : string) (r : re)          (* (?P<name>r) *)
  | Ahead (p : list C -> bool).           (* zero-width test of the remaining input *)

Definition Plus (r : re) : re := Seq r (Star r).      (* r+ *)
Definition Opt (r : re) : re := Alt r Eps.            (* r? *)

Definition captures := list (string * list C).

(** The loop of a greedy [r*]: [m] matches one [r]; an iteration that
    consumes nothing is refused, as in Python's engine; [n] bounds the
    iterations by the length of the input. *)
Fixpoint star_loop {R : Type}
    (m : list C -> captures -> (list C -> captures -> option R) -> option R)
    (k : list C -> captures -> option R)
    (n : nat) (s : list C) (caps : captures) {struct n} : option R :=
  match n with
  | O => k s caps
  | S n' =>
      match m s caps
              (fun s1 c1 =>
                 if (length s1 <? length s)%nat then star_loop m k n' s1 c1 else None) with
      | Some x => Some x
      | None => k s caps
      end
  end.

(** [rmatch r s caps k]: match [r] at the head of [s]; [k] receives the
    remaining input and the groups captured so far, and answers [None] to
    ask for the next alternative. *)
Fixpoint rmatch {R : Type} (r : re) (s : list C) (caps : captures)
    (k : list C -> captures -> option R) {struct r} : option R :=
  match r with
  | Eps => k s caps
  | Chr p =>
      match s with
      | c :: s' => if p c then k s' caps else None
      | [] => None
      end
  | Seq r1 r2 => rmatch r1 s caps (fun s1 c1 => rmatch r2 s1 c1 k)
  | Alt r1 r2 =>
      match rmatch r1 s caps k with
      | Some x => Some x
      | None => rmatch r2 s caps k
      end
  | Star r1 => star_loop (rmatch r1) k (length s) s caps
  | Grp name r1 =>
      rmatch r1 s caps
        (fun s1 c1 => k s1 ((name, take (length s - length s1) s) :: c1))
  | Ahead p => if p s then k s caps else None
  end.

(** [pattern.match(s)]: the captured groups and the number of characters
    matched.  A leading [^] holds at the start, where [match] anchors. *)
Definition re_match (r : re) (s : list C) : option (captures * nat) :=
  rmatch r s [] (fun rest caps => Some (caps, (length s - length rest)%nat)).

(** [m.group(name)] *)
Fixpoint group (caps : captures) (name : string) : option (list C) :=
  match caps with
  | [] => None
  | (n, v) :: rest => if String.eqb n name then Some v else group rest name
  end.

(** [pattern.search(s)]: [(m.start(), m.end())] of the leftmost match. *)
Fixpoint re_search_from (r : re) (pos : nat) (s : list C) : option (nat * nat) :=
  match re_match r s with
  | Some (_, n) => Some (pos, (pos + n)%nat)
  | None =>
      match s with
      | [] => None
      | _ :: s' => re_search_from r (S pos) s'
      end
  end.
Definition re_search (r : re) (s : list C) : option (nat * nat) :=
  re_search_from r 0 s.

(** [pattern.sub(repl, s)] for a pattern that never matches the empty
    string and a replacement without group references. *)
Fixpoint re_sub_fuel (fuel : nat) (r : re) (repl : list C) (s : list C) : list C :=
  match fuel with
  | O => s
  | S fuel' =>
      match s with
      | [] => []
      | c :: s' =>
          match re_match r s with
          | Some (_, S n) => repl ++ re_sub_fuel fuel' r repl (drop n s')
          | _ => c :: re_sub_fuel fuel' r repl s'
          end
      end
  end.
Definition re_sub (r : re) (repl : list C) (s : list C) : list C :=
  re_sub_fuel (length s) r repl s.
(** The pattern-free account of [re.sub] with [c+]: a run is replaced once.
    [in_run] tells that the character before belonged to a run. *)
Fixpoint sub_runs (p : C -> bool) (repl : list C) (in_run : bool) (s : list C) : list C :=
  match s with
  | [] => []
  | c :: s' =>
      if p c then (if in_run then sub_runs p repl true s' else repl ++ sub_runs p repl true s')
      else c :: sub_runs p repl false s'
  end.

End Regex.
Arguments re : clear implicits.

Definition strip (s : pystr) : pystr := strip_by isspace s.
Definition bstrip (s : bytes) : bytes := strip_by bisspace s.

(** [str(n)] for a non-negative integer. *)
Definition str_of_N (n : N) : pystr := ustr (pretty n).
(** [str(n)] for an integer. *)
Definition str_of_Z (n : Z) : pystr := ustr (pretty n).

(** [sep.join(parts)] *)
Fixpoint join (sep : pystr) (parts : list pystr) : pystr :=
  match parts with
  | [] => []
  | [p] => p
  | p :: rest => p ++ sep ++ join sep rest
  end.

(** [a or b] on optional strings: [None] and the empty string are falsy. *)
Definition truthy (o : option pystr) : bool :=
  match o with Some (_ :: _) => true | _ => false end.
Definition or_else (o : option pystr) (d : option pystr) : option pystr :=
  if truthy o then o else d.
Definition or_str (o : option pystr) (d : pystr) : pystr :=
  match o with Some ((_ :: _) as s) => s | _ => d end.

(** Exceptions and outcomes of a call. *)
Inductive exn :=
| ValueError (msg : pystr)
| FileExistsError
| NotADirectoryError
| IsADirectoryError
| AssertionError
| OverflowError
| Exception (tag : N).        (* any other exception, told apart by a tag *)

Inductive result (A : Type) :=
| Return (a : A)
| Raise (e : exn).
Arguments Return {A} a.
Arguments Raise {A} e.

End Py.

Import Py.

(** ** [gmail/labels.py] *)

Module Labels.

(** [GmailSystemLabelId] *)
Inductive GmailSystemLabelId := inbox | sent | trash | spam | draft.

#[global] Instance GmailSystemLabelId_eq_dec : EqDecision GmailSystemLabelId.
Proof. solve_decision. Defined.

Definition folder_to_system_labels `{Unicode} (folder : pystr) : list GmailSystemLabelId :=
  let lowered := lower (strip folder) in
  if bool_decide (lowered = ustr "inbox") then [inbox]
  else if bool_decide (lowered = ustr "sent") || startswith lowered (ustr "sent")
          || contains lowered (ustr "sent messages") then [sent]
  else if contains lowered (ustr "trash")
          || bool_decide (lowered = ustr "deleted messages")
          || bool_decide (lowered = ustr "deleted") then [trash]
  else if contains lowered (ustr "junk") || contains lowered (ustr "spam") then [spam]
  else if contains lowered (ustr "draft") then [draft]
  else [].


(** *** Custom labels *)

(** What the Unicode database decides for [\w] in a [str] pattern; on
    ASCII these are the letters, the digits and the underscore. *)
Class UnicodeRe := {
  word_char : N -> bool;
  word_char_ascii :
    forall c, (c < 128)%N ->
      word_char c
      = ((65 <=? c) && (c <=? 90) || (97 <=? c) && (c <=? 122) || (48 <=? c) && (c <=? 57)
         || (c =? 95))%N;
}.

(** The characters that [[^\w./ -]] does not accept. *)
Definition label_char `{UnicodeRe} (c : N) : bool :=
  (word_char c || (c =? 46) || (c =? 47) || (c =? 32) || (c =? 45))%N.

(** [re.compile(r"[^\w./ -]+", re.UNICODE)] *)
Definition _SAFE_LABEL_RE `{UnicodeRe} : re N := Plus (Chr (fun c => negb (label_char c))).

Definition folder_to_custom_label `{UnicodeRe} (prefix folder : pystr) : pystr :=
  let trimmed := strip_by (fun c => bool_decide (c ∈ ustr "/")) (strip folder) in
  let safe := re_sub _SAFE_LABEL_RE (ustr "_") trimmed in
  let safe := replace_char 92%N (ustr "_") safe in
  match prefix with
  | [] => safe
  | _ :: _ => prefix ++ ustr "/" ++ safe
  end.

Definition GmailLabelError : exn := Exception 2.

(** [GmailLabelCache.ensure] on the mapping [_name_to_id].  [create name] is
    what the request to create the label comes to: an error of the API, a
    response without an id ([None]), or the id.  The third component lists
    the requests made. *)
Definition ensure (create : pystr -> result (option pystr)) (_name_to_id : gmap pystr pystr)
    (name : pystr) : result pystr * gmap pystr pystr * list pystr :=
  let normalized := strip name in
  match normalized with
  | [] => (Raise GmailLabelError, _name_to_id, [])
  | _ :: _ =>
      match _name_to_id !! normalized with
      | Some ((_ :: _) as existing) => (Return existing, _name_to_id, [])
      | _ =>
          match create normalized with
          | Raise e => (Raise e, _name_to_id, [normalized])
          | Return None => (Raise GmailLabelError, _name_to_id, [normalized])
          | Return (Some label_id) =>
              (Return label_id, <[normalized := label_id]> _name_to_id, [normalized])
          end
      end
  end.

(** [GmailSystemLabelId.value] *)
Definition system_label_value (l : GmailSystemLabelId) : pystr :=
  match l with
  | inbox => ustr "INBOX"
  | sent => ustr "SENT"
  | trash => ustr "TRASH"
  | spam => ustr "SPAM"
  | draft => ustr "DRAFT"
  end.

End Labels.

(** ** [utils/email.py] *)

Module Email.

(** The standard library's [email] package, as far as the module calls it. *)
Class EmailLib := {
  (** [BytesParser(policy=policy.default).parsebytes(raw).get(name)] *)
  header_get : bytes -> pystr -> option pystr;
  (** [email.utils.getaddresses([value])]: (display name, address) pairs *)
  getaddresses : pystr -> list (pystr * pystr);
  (** [parsedate_to_datetime(value).isoformat()], [None] when it raises *)
  parsedate_iso : pystr -> option pystr;
  (** [str(make_header(decode_header(value)))], [None] when it raises *)
  decode_rfc2047 : pystr -> option pystr;
  (** [datetime.isoformat()] never gives the empty string *)
  parsedate_iso_nonempty : forall value iso, parsedate_iso value = Some iso -> iso <> [];
}.

Definition CR : byte := "013"%byte.
Definition LF : byte := "010"%byte.

(** [rb"\r?\n\r?\n"] *)
Definition _HEADER_BODY_SPLIT_RE : re byte :=
  Seq (Opt (Chr (Byte.eqb CR)))
    (Seq (Chr (Byte.eqb LF))
       (Seq (Opt (Chr (Byte.eqb CR))) (Chr (Byte.eqb LF)))).

Definition extract_email_addresses `{Unicode} `{EmailLib}
    (value : option pystr) : gset pystr :=
  match value with
  | Some ((_ :: _) as v) =>
      list_to_set
        (omap (fun '(_, addr) =>
                 match addr, strip addr with
                 | _ :: _, _ :: _ => Some (lower (strip addr))
                 | _, _ => None
                 end)
              (getaddresses v))
  | _ => ∅
  end.

Definition _decode_header_value `{EmailLib} (value : pystr) : pystr :=
  match decode_rfc2047 value with
  | Some v => v
  | None => value
  end.

Definition LT : N := 60%N.   (* "<" *)
Definition GT : N := 62%N.   (* ">" *)
Definition SP : N := 32%N.   (* " " *)

Definition normalize_message_id `{Unicode} (value : option pystr) : option pystr :=
  match value with
  | None => None
  | Some value =>
      let v := strip value in
      match v with
      | [] => None
      | _ :: _ =>
          let v := if contains v [SP] then strip (split_first v [SP]) else v in
          let v := if startswith v [LT] && endswith v [GT]
                   then strip (take (length v - 2) (drop 1 v))   (* v[1:-1] *)
                   else v in
          match v with
          | [] => None
          | _ :: _ => Some ([LT] ++ lower v ++ [GT])
          end
      end
  end.

Record MinimalHeaders := {
  date_raw : option pystr;
  date_dt_iso : option pystr;
  from_ : option pystr;
  to : option pystr;
  cc : option pystr;
  bcc : option pystr;
  delivered_to : option pystr;
  x_original_to : option pystr;
  envelope_to : option pystr;
  subject : option pystr;
  message_id_norm : option pystr;
}.

(** [_decode_header_value(x) if x else None] *)
Definition decoded_if_present `{EmailLib} (x : option pystr) : option pystr :=
  match x with
  | Some ((_ :: _) as v) => Some (_decode_header_value v)
  | _ => None
  end.

Definition parse_minimal_headers `{Unicode} `{EmailLib} (raw_rfc822 : bytes) : MinimalHeaders :=
  let get := header_get raw_rfc822 in
  let date_raw := get (ustr "Date") in
  let date_dt_iso :=
    match date_raw with
    | Some ((_ :: _) as d) => parsedate_iso d
    | _ => None
    end in
  {| date_raw := decoded_if_present date_raw;
     date_dt_iso := date_dt_iso;
     from_ := decoded_if_present (get (ustr "From"));
     to := decoded_if_present (get (ustr "To"));
     cc := decoded_if_present (get (ustr "Cc"));
     bcc := decoded_if_present (get (ustr "Bcc"));
     delivered_to := decoded_if_present (get (ustr "Delivered-To"));
     x_original_to := decoded_if_present (get (ustr "X-Original-To"));
     envelope_to := decoded_if_present (get (ustr "Envelope-To"));
     subject := decoded_if_present (get (ustr "Subject"));
     message_id_norm := normalize_message_id (get (ustr "Message-ID")) |}.

Definition body_prefix (raw_rfc822 : bytes) (max_bytes : Z) : bytes :=
  if (max_bytes <=? 0)%Z then []
  else match re_search _HEADER_BODY_SPLIT_RE raw_rfc822 with
       | None => take (Z.to_nat max_bytes) raw_rfc822
       | Some (_, start) => take (Z.to_nat max_bytes) (drop start raw_rfc822)
       end.

Record AddressFilter := {
  target_addresses : gset pystr;
  include_sender : bool;
  include_recipients : bool;
}.

(** [bool(a & b)] *)
Definition intersects (a b : gset pystr) : bool := bool_decide (a ∩ b ≠ ∅).

Definition matches `{Unicode} `{EmailLib} (self : AddressFilter) (headers : MinimalHeaders) : bool :=
  let targets := target_addresses self in
  if bool_decide (targets = ∅) then true
  else if include_sender self && intersects (extract_email_addresses (from_ headers)) targets
  then true
  else if include_recipients self
          && (let candidates : gset pystr := ∅ in
              let candidates := candidates ∪ extract_email_addresses (to headers) in
              let candidates := candidates ∪ extract_email_addresses (cc headers) in
              let candidates := candidates ∪ extract_email_addresses (bcc headers) in
              let candidates := candidates ∪ extract_email_addresses (delivered_to headers) in
              let candidates := candidates ∪ extract_email_addresses (x_original_to headers) in
              let candidates := candidates ∪ extract_email_addresses (envelope_to headers) in
              intersects candidates targets)
  then true
  else false.

End Email.

(** ** [utils/fingerprint.py] *)

Module Fingerprint.
Import Email.

(** [hashlib.sha256(data).hexdigest()] *)
Class Hashlib := { sha256_hexdigest : bytes -> pystr }.

Definition sha256_hex `{Hashlib} (data : bytes) : pystr := sha256_hexdigest data.

(** The successive results of [handle.read(chunk_size)] until the empty one. *)
Fixpoint read_chunks (fuel : nat) (chunk_size : nat) (content : bytes) : list bytes :=
  match fuel with
  | O => []
  | S fuel' =>
      match take chunk_size content with
      | [] => []
      | chunk => chunk :: read_chunks fuel' chunk_size (drop chunk_size content)
      end
  end.

(** [sha256_file_hex(path)] on a file holding [content].  The hasher's state
    is the data fed to it so far, [hasher.update(chunk)] appends. *)
Definition sha256_file_hex_chunked `{Hashlib} (chunk_size : nat) (content : bytes) : pystr :=
  let hasher : bytes := [] in
  let hasher :=
    fold_left (fun hasher chunk => hasher ++ chunk)
      (read_chunks (S (length content)) chunk_size content) hasher in
  sha256_hexdigest hasher.
Definition sha256_file_hex `{Hashlib} (content : bytes) : pystr :=
  sha256_file_hex_chunked (N.to_nat (1024 * 1024)) content.

Definition byte_of_N (n : N) : byte := default "000"%byte (Byte.of_N n).

(** [s.encode("utf-8", errors="replace")]: a lone surrogate becomes [?]. *)
Definition encode_utf8_cp (c : N) : bytes :=
  (if c <? 128 then [byte_of_N c]
   else if c <? 2048 then [byte_of_N (192 + c / 64); byte_of_N (128 + c mod 64)]
   else if (55296 <=? c) && (c <=? 57343) then ["?"%byte]
   else if c <? 65536 then
     [byte_of_N (224 + c / 4096); byte_of_N (128 + (c / 64) mod 64);
      byte_of_N (128 + c mod 64)]
   else
     [byte_of_N (240 + c / 262144); byte_of_N (128 + (c / 4096) mod 64);
      byte_of_N (128 + (c / 64) mod 64); byte_of_N (128 + c mod 64)])%N.
Definition encode_utf8_replace (s : pystr) : bytes := flat_map encode_utf8_cp s.

Record FingerprintResult := {
  fingerprint : pystr;
  message_id_norm : option pystr;
  headers : MinimalHeaders;
}.

Definition compute_fingerprint `{Unicode} `{EmailLib} `{Hashlib}
    (raw_rfc822 : bytes) (body_bytes : Z) : FingerprintResult :=
  let headers := parse_minimal_headers raw_rfc822 in
  let body := body_prefix raw_rfc822 body_bytes in
  let canonical :=
    encode_utf8_replace
      (join [10%N]
         [ or_str (or_else (date_dt_iso headers) (date_raw headers)) [];
           or_str (from_ headers) [];
           or_str (to headers) [];
           or_str (subject headers) [];
           str_of_N (N.of_nat (length raw_rfc822)) ]) in
  let fp := sha256_hex (canonical ++ [LF] ++ body) in
  {| fingerprint := fp;
     message_id_norm := Email.message_id_norm headers;
     headers := headers |}.

End Fingerprint.

(** ** [storage/eml_store.py] *)

Module EmlStore.
Import Fingerprint.

(** A path is its sequence of components; [p / c] appends one. *)
Abbreviation Path := (list pystr).

(** The file system: regular files with their bytes and mode, and directories. *)
Record file := { content : bytes; mode : N }.
Inductive node := File (f : file) | Dir.
Abbreviation filesystem := (gmap (list pystr) node).

(** [str(path)] *)
Definition path_str (p : Path) : pystr := join (ustr "/") p.

Definition safe_char (c : N) : bool :=
  ((65 <=? c) && (c <=? 90) || (97 <=? c) && (c <=? 122) || (48 <=? c) && (c <=? 57)
   || (c =? 46) || (c =? 95) || (c =? 45))%N.

(** [r"[^A-Za-z0-9._-]+"] *)
Definition _FOLDER_SAFE_RE : re N := Plus (Chr (fun c => negb (safe_char c))).

(** [os.sep] of the POSIX platforms the store runs on (it opens directories
    with [O_DIRECTORY]). *)
Definition os_sep : N := 47%N.

Definition _safe_folder_name (folder : pystr) : pystr :=
  let sanitized := strip folder in
  let sanitized := replace_char 47%N (ustr "_") (replace_char os_sep (ustr "_") sanitized) in
  let sanitized := re_sub _FOLDER_SAFE_RE (ustr "_") sanitized in
  let sanitized := strip_by (fun c => bool_decide (c ∈ ustr "._-")) sanitized in
  match sanitized with
  | [] => ustr "folder"
  | _ => sanitized
  end.

Record EmlWriteResult := {
  path : Path;
  sha256 : pystr;
  size_bytes : Z;
}.

(** [path.mkdir(parents=True, exist_ok=True)], walking down from the root. *)
Fixpoint mkdir_from (fs : filesystem) (parent : Path) (rest : list pystr) : result filesystem :=
  match rest with
  | [] => Return fs
  | c :: rest' =>
      let p := parent ++ [c] in
      match fs !! p with
      | Some Dir => mkdir_from fs p rest'
      | Some (File _) =>
          Raise (match rest' with [] => FileExistsError | _ => NotADirectoryError end)
      | None => mkdir_from (<[p := Dir]> fs) p rest'
      end
  end.
Definition mkdir_parents (fs : filesystem) (p : Path) : result filesystem :=
  mkdir_from fs [] p.

(** [tempfile.mkstemp(prefix, suffix, dir)]: the random infixes are tried in
    turn, the first name that is free is created empty with mode 0o600. *)
Fixpoint mkstemp (fs : filesystem) (dir : Path) (prefix suffix : pystr)
    (candidates : list pystr) : result (Path * filesystem) :=
  match candidates with
  | [] => Raise FileExistsError
  | rnd :: more =>
      let p := dir ++ [prefix ++ rnd ++ suffix] in
      match fs !! p with
      | None => Return (p, <[p := File {| content := []; mode := 384 |}]> fs)
      | Some _ => mkstemp fs dir prefix suffix more
      end
  end.

(** [os.replace(src, dst)] of a regular file. *)
Definition replace (fs : filesystem) (src dst : Path) : filesystem :=
  match fs !! src with
  | Some nd => <[dst := nd]> (delete src fs)
  | None => fs
  end.

(** [os.chmod(p, mode)] *)
Definition chmod (fs : filesystem) (p : Path) (m : N) : filesystem :=
  match fs !! p with
  | Some (File f) => <[p := File {| content := content f; mode := m |}]> fs
  | _ => fs
  end.

(** [f"{uv}-{uid}.eml"] with [uv = uidvalidity or 0] *)
Definition evidence_name (uidvalidity : option Z) (uid : Z) : pystr :=
  let uv := match uidvalidity with
            | Some v => if (v =? 0)%Z then 0%Z else v
            | None => 0%Z
            end in
  str_of_Z uv ++ ustr "-" ++ str_of_Z uid ++ ustr ".eml".

(** Where the evidence of (folder, uidvalidity, uid) lives. *)
Definition target_path (evidence_dir : Path) (folder : pystr) (uidvalidity : option Z)
    (uid : Z) : Path :=
  (evidence_dir ++ [_safe_folder_name folder]) ++ [evidence_name uidvalidity uid].

(** What every file system keeps: whatever exists below the root sits in a
    directory. *)
Definition parent_is_dir (fs : filesystem) : Prop :=
  forall p c n, fs !! (p ++ [c]) = Some n -> p <> [] -> fs !! p = Some Dir.

(** [EMLStore.write_immutable] of a store rooted at [evidence_dir], on the
    file system [fs]; [tmp_candidates] are the names [mkstemp] draws.  Errors
    of the device itself (a full disk, a failing [fsync]) are left out. *)
Definition write_immutable `{Hashlib} (evidence_dir : Path) (tmp_candidates : list pystr)
    (fs : filesystem) (folder : pystr) (uidvalidity : option Z) (uid : Z)
    (raw_rfc822 : bytes) : result EmlWriteResult * filesystem :=
  match mkdir_parents fs evidence_dir with
  | Raise e => (Raise e, fs)
  | Return fs =>
  let folder_dir := evidence_dir ++ [_safe_folder_name folder] in
  match mkdir_parents fs folder_dir with
  | Raise e => (Raise e, fs)
  | Return fs =>
  let target_name := evidence_name uidvalidity uid in
  let target := folder_dir ++ [target_name] in
  let expected_sha := sha256_hex raw_rfc822 in
  match fs !! target with
  | Some Dir => (Raise IsADirectoryError, fs)
  | Some (File f) =>
      let actual_sha := sha256_file_hex (content f) in
      if bool_decide (actual_sha <> expected_sha)
      then (Raise (ValueError (ustr "Evidence file already exists but differs: "
                                 ++ path_str target)), fs)
      else (Return {| path := target; sha256 := actual_sha;
                      size_bytes := Z.of_nat (length (content f)) |}, fs)
  | None =>
      match mkstemp fs folder_dir (target_name ++ ustr ".") (ustr ".tmp") tmp_candidates with
      | Raise e => (Raise e, fs)
      | Return (tmp_path, fs) =>
          (* handle.write(raw_rfc822); flush; fsync *)
          let fs := <[tmp_path := File {| content := raw_rfc822; mode := 384 |}]> fs in
          let fs := replace fs tmp_path target in
          (* fsync of the directory *)
          let fs := chmod fs target 292 in
          (* finally: unlink the temporary file if it is still there *)
          let fs := match fs !! tmp_path with
                    | Some _ => delete tmp_path fs
                    | None => fs
                    end in
          (Return {| path := target; sha256 := expected_sha;
                     size_bytes := Z.of_nat (length raw_rfc822) |}, fs)
      end
  end end end.

End EmlStore.

(** ** [models/state.py] and [storage/state_db.py] *)

Module StateDb.

(** [MessageStatus] *)
Inductive MessageStatus :=
| discovered | downloaded | imported | skipped_duplicate | skipped_filtered | failed.

#[global] Instance MessageStatus_eq_dec : EqDecision MessageStatus.
Proof. solve_decision. Defined.

(** A row of the table [folders]. *)
Module Folders.
Record row := {
  name : pystr;
  uidvalidity : option Z;
  last_uid_seen : option Z;
  created_at : pystr;
  updated_at : pystr;
}.
End Folders.

(** A row of the table [messages]; [None] is SQL's NULL. *)
Module Messages.
Record row := {
  id : Z;
  folder : pystr;
  uid : Z;
  uidvalidity : option Z;
  status : MessageStatus;
  message_id_norm : option pystr;
  fingerprint : pystr;
  eml_path : option pystr;
  eml_sha256 : option pystr;
  size_bytes : option Z;
  gmail_message_id : option pystr;
  gmail_thread_id : option pystr;
  labels_json : option pystr;
  attempts : Z;
  last_error : option pystr;
  last_error_at : option pystr;
  created_at : pystr;
  updated_at : pystr;
}.
End Messages.

(** The model [MessageRow] the operations hand back. *)
Module MessageRow.
Record t := {
  id : Z;
  folder : pystr;
  uid : Z;
  uidvalidity : option Z;
  status : MessageStatus;
  message_id_norm : option pystr;
  fingerprint : pystr;
  eml_path : option pystr;
  eml_sha256 : option pystr;
  size_bytes : option Z;
  gmail_message_id : option pystr;
  gmail_thread_id : option pystr;
  attempts : Z;
  last_error : option pystr;
  last_error_at : option pystr;
  created_at : pystr;
  updated_at : pystr;
}.
End MessageRow.

(** The database: both tables in rowid order, and the AUTOINCREMENT counter
    of [messages] (the largest rowid ever handed out). *)
Record db := {
  folders : list Folders.row;
  messages : list Messages.row;
  sqlite_sequence : Z;
}.

(** Pydantic's [ValidationError]. *)
Definition ValidationError : exn := Exception 1.

(** [Field(ge=lo)] on an optional integer *)
Definition opt_ge (lo : Z) (v : option Z) : bool :=
  match v with Some z => (lo <=? z)%Z | None => true end.

(** [_row_to_message]: the model strips its strings ([str_strip_whitespace])
    and checks its field constraints. *)
Definition _row_to_message (row : Messages.row) : result MessageRow.t :=
  let folder := strip (Messages.folder row) in
  let fingerprint := strip (Messages.fingerprint row) in
  if (1 <=? Messages.id row)%Z && negb (bool_decide (folder = []))
     && (1 <=? Messages.uid row)%Z && opt_ge 1 (Messages.uidvalidity row)
     && negb (bool_decide (fingerprint = []))
     && opt_ge 0 (Messages.size_bytes row) && (0 <=? Messages.attempts row)%Z
  then Return
    {| MessageRow.id := Messages.id row;
       MessageRow.folder := folder;
       MessageRow.uid := Messages.uid row;
       MessageRow.uidvalidity := Messages.uidvalidity row;
       MessageRow.status := Messages.status row;
       MessageRow.message_id_norm := strip <$> Messages.message_id_norm row;
       MessageRow.fingerprint := fingerprint;
       MessageRow.eml_path :=
         (if truthy (Messages.eml_path row) then Messages.eml_path row else None);
       MessageRow.eml_sha256 := strip <$> Messages.eml_sha256 row;
       MessageRow.size_bytes := Messages.size_bytes row;
       MessageRow.gmail_message_id := strip <$> Messages.gmail_message_id row;
       MessageRow.gmail_thread_id := strip <$> Messages.gmail_thread_id row;
       MessageRow.attempts := Messages.attempts row;
       MessageRow.last_error := strip <$> Messages.last_error row;
       MessageRow.last_error_at :=
         (if truthy (Messages.last_error_at row) then Messages.last_error_at row else None);
       MessageRow.created_at := Messages.created_at row;
       MessageRow.updated_at := Messages.updated_at row |}
  else Raise ValidationError.

(** SQL's [a = b] on a nullable column: NULL equals nothing.  This is also
    the comparison of a UNIQUE constraint. *)
Definition sql_eq (a b : option Z) : bool :=
  match a, b with
  | Some x, Some y => (x =? y)%Z
  | _, _ => false
  end.

(** SQL's [a IS b]: NULL is NULL. *)
Definition sql_is (a b : option Z) : bool := bool_decide (a = b).

(** Does [row] collide with the key under [UNIQUE(folder, uid, uidvalidity)]? *)
Definition unique_conflict (folder : pystr) (uid : Z) (uidvalidity : option Z)
    (row : Messages.row) : bool :=
  bool_decide (Messages.folder row = folder) && (Messages.uid row =? uid)%Z
  && sql_eq (Messages.uidvalidity row) uidvalidity.

(** [WHERE folder=? AND uid=? AND uidvalidity IS ?] *)
Definition select_key (folder : pystr) (uid : Z) (uidvalidity : option Z)
    (row : Messages.row) : bool :=
  bool_decide (Messages.folder row = folder) && (Messages.uid row =? uid)%Z
  && sql_is (Messages.uidvalidity row) uidvalidity.

(** The [DO UPDATE SET ...] clause of the upsert. *)
Definition do_update (message_id_norm : option pystr) (fingerprint : pystr)
    (size_bytes : option Z) (now : pystr) (row : Messages.row) : Messages.row :=
  {| Messages.id := Messages.id row;
     Messages.folder := Messages.folder row;
     Messages.uid := Messages.uid row;
     Messages.uidvalidity := Messages.uidvalidity row;
     Messages.status :=
       match Messages.status row with
       | skipped_filtered | failed => discovered
       | st => st
       end;
     Messages.message_id_norm := message_id_norm;
     Messages.fingerprint := fingerprint;
     Messages.eml_path := Messages.eml_path row;
     Messages.eml_sha256 := Messages.eml_sha256 row;
     Messages.size_bytes := size_bytes;
     Messages.gmail_message_id := Messages.gmail_message_id row;
     Messages.gmail_thread_id := Messages.gmail_thread_id row;
     Messages.labels_json := Messages.labels_json row;
     Messages.attempts := Messages.attempts row;
     Messages.last_error := Messages.last_error row;
     Messages.last_error_at := Messages.last_error_at row;
     Messages.created_at := Messages.created_at row;
     Messages.updated_at := now |}.

(** The row the INSERT's VALUES clause describes. *)
Definition inserted_row (rowid : Z) (now : pystr) (folder : pystr) (uid : Z)
    (uidvalidity : option Z) (message_id_norm : option pystr) (fingerprint : pystr)
    (size_bytes : option Z) : Messages.row :=
  {| Messages.id := rowid;
     Messages.folder := folder;
     Messages.uid := uid;
     Messages.uidvalidity := uidvalidity;
     Messages.status := discovered;
     Messages.message_id_norm := message_id_norm;
     Messages.fingerprint := fingerprint;
     Messages.eml_path := None;
     Messages.eml_sha256 := None;
     Messages.size_bytes := size_bytes;
     Messages.gmail_message_id := None;
     Messages.gmail_thread_id := None;
     Messages.labels_json := None;
     Messages.attempts := 0;
     Messages.last_error := None;
     Messages.last_error_at := None;
     Messages.created_at := now;
     Messages.updated_at := now |}.

(** The rowid AUTOINCREMENT hands out: one more than the largest ever used. *)
Definition next_rowid (d : db) : Z :=
  (1 + fold_right Z.max (sqlite_sequence d) (map Messages.id (messages d)))%Z.

(** [upsert_message_discovered] at clock reading [now].  An exception inside
    the transaction rolls it back. *)
Definition upsert_message_discovered (d : db) (now : pystr)
    (folder : pystr) (uid : Z) (uidvalidity : option Z)
    (message_id_norm : option pystr) (fingerprint : pystr) (size_bytes : option Z)
    : result MessageRow.t * db :=
  let d' :=
    if existsb (unique_conflict folder uid uidvalidity) (messages d)
    then
      {| folders := folders d;
         messages :=
           map (fun row =>
                  if unique_conflict folder uid uidvalidity row
                  then do_update message_id_norm fingerprint size_bytes now row
                  else row)
               (messages d);
         sqlite_sequence := sqlite_sequence d |}
    else
      let rowid := next_rowid d in
      {| folders := folders d;
         messages :=
           messages d ++
           [ inserted_row rowid now folder uid uidvalidity message_id_norm fingerprint
               size_bytes ];
         sqlite_sequence := rowid |} in
  (* fetchone() of the SELECT: the first row in rowid order *)
  match List.find (select_key folder uid uidvalidity) (messages d') with
  | None => (Raise AssertionError, d)
  | Some row =>
      match _row_to_message row with
      | Return m => (Return m, d')
      | Raise e => (Raise e, d)
      end
  end.

(** The invariant UNIQUE(folder, uid, uidvalidity) keeps: no two rows agree
    on a key whose UIDVALIDITY is not NULL. *)
Definition unique_keys (d : db) : Prop :=
  forall i j r1 r2,
    messages d !! i = Some r1 -> messages d !! j = Some r2 ->
    Messages.folder r1 = Messages.folder r2 -> Messages.uid r1 = Messages.uid r2 ->
    sql_eq (Messages.uidvalidity r1) (Messages.uidvalidity r2) = true ->
    i = j.

(** [status IN ('skipped_filtered', 'failed', 'skipped_duplicate')] *)
Definition in_reset_set (st : MessageStatus) : bool :=
  match st with
  | skipped_filtered | failed | skipped_duplicate => true
  | _ => false
  end.

Definition set_last_uid_seen (v : option Z) (f : Folders.row) : Folders.row :=
  {| Folders.name := Folders.name f;
     Folders.uidvalidity := Folders.uidvalidity f;
     Folders.last_uid_seen := v;
     Folders.created_at := Folders.created_at f;
     Folders.updated_at := Folders.updated_at f |}.

Definition set_status (st : MessageStatus) (row : Messages.row) : Messages.row :=
  {| Messages.id := Messages.id row;
     Messages.folder := Messages.folder row;
     Messages.uid := Messages.uid row;
     Messages.uidvalidity := Messages.uidvalidity row;
     Messages.status := st;
     Messages.message_id_norm := Messages.message_id_norm row;
     Messages.fingerprint := Messages.fingerprint row;
     Messages.eml_path := Messages.eml_path row;
     Messages.eml_sha256 := Messages.eml_sha256 row;
     Messages.size_bytes := Messages.size_bytes row;
     Messages.gmail_message_id := Messages.gmail_message_id row;
     Messages.gmail_thread_id := Messages.gmail_thread_id row;
     Messages.labels_json := Messages.labels_json row;
     Messages.attempts := Messages.attempts row;
     Messages.last_error := Messages.last_error row;
     Messages.last_error_at := Messages.last_error_at row;
     Messages.created_at := Messages.created_at row;
     Messages.updated_at := Messages.updated_at row |}.

(** [reset_skipped_and_failed]: the new database and [res.rowcount], the
    number of rows the second UPDATE's WHERE clause selected. *)
Definition reset_skipped_and_failed (d : db) : Z * db :=
  let folders' := map (set_last_uid_seen (Some 0%Z)) (folders d) in
  let hit := fun row => in_reset_set (Messages.status row) in
  let messages' :=
    map (fun row => if hit row then set_status discovered row else row) (messages d) in
  let rowcount := Z.of_nat (length (List.filter hit (messages d))) in
  (rowcount,
   {| folders := folders'; messages := messages'; sqlite_sequence := sqlite_sequence d |}).


(** The model [FolderRow] the folder operations hand back. *)
Module FolderRow.
Record t := {
  name : pystr;
  uidvalidity : option Z;
  last_uid_seen : option Z;
  created_at : pystr;
  updated_at : pystr;
}.
End FolderRow.

(** [FolderRow(name=row["name"], ...)]: the model strips its strings and
    checks its field constraints; the timestamps are the ISO strings the
    ledger wrote. *)
Definition folder_row_of (row : Folders.row) : result FolderRow.t :=
  let name := strip (Folders.name row) in
  if negb (bool_decide (name = []))
     && opt_ge 1 (Folders.uidvalidity row) && opt_ge 0 (Folders.last_uid_seen row)
  then Return
    {| FolderRow.name := name;
       FolderRow.uidvalidity := Folders.uidvalidity row;
       FolderRow.last_uid_seen := Folders.last_uid_seen row;
       FolderRow.created_at := Folders.created_at row;
       FolderRow.updated_at := Folders.updated_at row |}
  else Raise ValidationError.

(** [WHERE name=?], which is also the conflict of the primary key. *)
Definition has_name (name : pystr) (f : Folders.row) : bool :=
  bool_decide (Folders.name f = name).

(** [upsert_folder] at clock reading [now].  An exception inside the
    transaction rolls it back. *)
Definition upsert_folder (d : db) (now : pystr) (name : pystr)
    (uidvalidity last_uid_seen : option Z) : result FolderRow.t * db :=
  let folders' :=
    if existsb (has_name name) (folders d)
    then
      map (fun f =>
             if has_name name f
             then {| Folders.name := Folders.name f;
                     Folders.uidvalidity := uidvalidity;
                     Folders.last_uid_seen := last_uid_seen;
                     Folders.created_at := Folders.created_at f;
                     Folders.updated_at := now |}
             else f)
          (folders d)
    else
      folders d ++
      [ {| Folders.name := name;
           Folders.uidvalidity := uidvalidity;
           Folders.last_uid_seen := last_uid_seen;
           Folders.created_at := now;
           Folders.updated_at := now |} ] in
  let d' :=
    {| folders := folders'; messages := messages d;
       sqlite_sequence := sqlite_sequence d |} in
  match List.find (has_name name) folders' with
  | None => (Raise AssertionError, d)
  | Some row =>
      match folder_row_of row with
      | Return r => (Return r, d')
      | Raise e => (Raise e, d)
      end
  end.

(** [get_folder]: [Return None] when no row has the name. *)
Definition get_folder (d : db) (name : pystr) : result (option FolderRow.t) :=
  match List.find (has_name name) (folders d) with
  | None => Return None
  | Some row =>
      match folder_row_of row with
      | Return r => Return (Some r)
      | Raise e => Raise e
      end
  end.

(** [update_folder_checkpoint]: the upsert, its result dropped. *)
Definition update_folder_checkpoint (d : db) (now : pystr) (name : pystr)
    (uidvalidity last_uid_seen : option Z) : result unit * db :=
  match upsert_folder d now name uidvalidity last_uid_seen with
  | (Return _, d') => (Return tt, d')
  | (Raise e, d') => (Raise e, d')
  end.

(** [UPDATE messages SET ... WHERE id=?] *)
Definition update_where_id (message_id : Z) (set : Messages.row -> Messages.row)
    (d : db) : db :=
  {| folders := folders d;
     messages :=
       map (fun row => if (Messages.id row =? message_id)%Z then set row else row)
         (messages d);
     sqlite_sequence := sqlite_sequence d |}.

(** [mark_downloaded]; [eml_path] is [str(eml_path)] already. *)
Definition mark_downloaded (d : db) (now : pystr) (message_id : Z)
    (eml_path : pystr) (eml_sha256 : pystr) : db :=
  update_where_id message_id
    (fun row =>
       {| Messages.id := Messages.id row;
          Messages.folder := Messages.folder row;
          Messages.uid := Messages.uid row;
          Messages.uidvalidity := Messages.uidvalidity row;
          Messages.status := downloaded;
          Messages.message_id_norm := Messages.message_id_norm row;
          Messages.fingerprint := Messages.fingerprint row;
          Messages.eml_path := Some eml_path;
          Messages.eml_sha256 := Some eml_sha256;
          Messages.size_bytes := Messages.size_bytes row;
          Messages.gmail_message_id := Messages.gmail_message_id row;
          Messages.gmail_thread_id := Messages.gmail_thread_id row;
          Messages.labels_json := Messages.labels_json row;
          Messages.attempts := Messages.attempts row;
          Messages.last_error := Messages.last_error row;
          Messages.last_error_at := Messages.last_error_at row;
          Messages.created_at := Messages.created_at row;
          Messages.updated_at := now |})
    d.

(** [json.dumps] of a list of strings. *)
Class JsonLib := { json_dumps : list pystr -> pystr }.

Definition mark_imported `{JsonLib} (d : db) (now : pystr) (message_id : Z)
    (gmail_message_id : pystr) (gmail_thread_id : option pystr)
    (label_ids : list pystr) : db :=
  update_where_id message_id
    (fun row =>
       {| Messages.id := Messages.id row;
          Messages.folder := Messages.folder row;
          Messages.uid := Messages.uid row;
          Messages.uidvalidity := Messages.uidvalidity row;
          Messages.status := imported;
          Messages.message_id_norm := Messages.message_id_norm row;
          Messages.fingerprint := Messages.fingerprint row;
          Messages.eml_path := Messages.eml_path row;
          Messages.eml_sha256 := Messages.eml_sha256 row;
          Messages.size_bytes := Messages.size_bytes row;
          Messages.gmail_message_id := Some gmail_message_id;
          Messages.gmail_thread_id := gmail_thread_id;
          Messages.labels_json := Some (json_dumps label_ids);
          Messages.attempts := Messages.attempts row;
          Messages.last_error := Messages.last_error row;
          Messages.last_error_at := Messages.last_error_at row;
          Messages.created_at := Messages.created_at row;
          Messages.updated_at := now |})
    d.

(** [mark_failed]: [attempts=attempts+1] on SQLite's 64-bit integers, which a
    counter of failures stays well inside. *)
Definition mark_failed (d : db) (now : pystr) (message_id : Z) (error : pystr) : db :=
  update_where_id message_id
    (fun row =>
       {| Messages.id := Messages.id row;
          Messages.folder := Messages.folder row;
          Messages.uid := Messages.uid row;
          Messages.uidvalidity := Messages.uidvalidity row;
          Messages.status := failed;
          Messages.message_id_norm := Messages.message_id_norm row;
          Messages.fingerprint := Messages.fingerprint row;
          Messages.eml_path := Messages.eml_path row;
          Messages.eml_sha256 := Messages.eml_sha256 row;
          Messages.size_bytes := Messages.size_bytes row;
          Messages.gmail_message_id := Messages.gmail_message_id row;
          Messages.gmail_thread_id := Messages.gmail_thread_id row;
          Messages.labels_json := Messages.labels_json row;
          Messages.attempts := (Messages.attempts row + 1)%Z;
          Messages.last_error := Some error;
          Messages.last_error_at := Some now;
          Messages.created_at := Messages.created_at row;
          Messages.updated_at := now |})
    d.

(** The SET clause [mark_skipped_duplicate] and [mark_skipped_filtered] share. *)
Definition set_skipped (st : MessageStatus) (reason now : pystr) (row : Messages.row)
    : Messages.row :=
  {| Messages.id := Messages.id row;
     Messages.folder := Messages.folder row;
     Messages.uid := Messages.uid row;
     Messages.uidvalidity := Messages.uidvalidity row;
     Messages.status := st;
     Messages.message_id_norm := Messages.message_id_norm row;
     Messages.fingerprint := Messages.fingerprint row;
     Messages.eml_path := Messages.eml_path row;
     Messages.eml_sha256 := Messages.eml_sha256 row;
     Messages.size_bytes := Messages.size_bytes row;
     Messages.gmail_message_id := Messages.gmail_message_id row;
     Messages.gmail_thread_id := Messages.gmail_thread_id row;
     Messages.labels_json := Messages.labels_json row;
     Messages.attempts := Messages.attempts row;
     Messages.last_error := Some reason;
     Messages.last_error_at := Some now;
     Messages.created_at := Messages.created_at row;
     Messages.updated_at := now |}.

Definition mark_skipped_duplicate (d : db) (now : pystr) (message_id : Z)
    (reason : pystr) : db :=
  update_where_id message_id (set_skipped skipped_duplicate reason now) d.

Definition mark_skipped_filtered (d : db) (now : pystr) (message_id : Z)
    (reason : pystr) : db :=
  update_where_id message_id (set_skipped skipped_filtered reason now) d.

(** [WHERE gmail_message_id IS NOT NULL AND message_id_norm=?] *)
Definition imported_with_message_id (message_id_norm : pystr) (row : Messages.row) : bool :=
  bool_decide (Messages.gmail_message_id row <> None)
  && bool_decide (Messages.message_id_norm row = Some message_id_norm).

(** [WHERE gmail_message_id IS NOT NULL AND fingerprint=?] *)
Definition imported_with_fingerprint (fingerprint : pystr) (row : Messages.row) : bool :=
  bool_decide (Messages.gmail_message_id row <> None)
  && bool_decide (Messages.fingerprint row = fingerprint).

(** [find_existing_imported]; [LIMIT 1] gives the first row SQLite meets,
    the one of least rowid among those that qualify. *)
Definition find_existing_imported (d : db) (message_id_norm : option pystr)
    (fingerprint : pystr) : option Z :=
  let by_message_id :=
    match message_id_norm with
    | Some ((_ :: _) as mid) =>
        Messages.id <$> List.find (imported_with_message_id mid) (messages d)
    | _ => None
    end in
  match by_message_id with
  | Some id => Some id
  | None => Messages.id <$> List.find (imported_with_fingerprint fingerprint) (messages d)
  end.

(** [count_folder_messages] *)
Definition count_folder_messages (d : db) (folder : pystr) : Z :=
  Z.of_nat
    (length
       (List.filter
          (fun row => bool_decide (Messages.status row = imported)
                      && bool_decide (Messages.folder row = folder))
          (messages d))).

#[global] Instance MessageStatus_countable : Countable MessageStatus.
Proof.
  refine (inj_countable'
            (fun st => match st with
                       | discovered => 0 | downloaded => 1 | imported => 2
                       | skipped_duplicate => 3 | skipped_filtered => 4 | failed => 5
                       end)
            (fun n => match n with
                      | 0 => discovered | 1 => downloaded | 2 => imported
                      | 3 => skipped_duplicate | 4 => skipped_filtered | _ => failed
                      end) _).
  intros []; reflexivity.
Defined.

(** [SELECT status, COUNT( * ) AS c FROM messages GROUP BY status]: one row
    for each status that occurs, in the order of the status texts. *)
Definition group_by_status (rows : list Messages.row) : list (MessageStatus * Z) :=
  omap (fun st =>
          match List.filter (fun row => bool_decide (Messages.status row = st)) rows with
          | [] => None
          | group => Some (st, Z.of_nat (length group))
          end)
       [discovered; downloaded; failed; imported; skipped_duplicate; skipped_filtered].

(** [counts_by_status] *)
Definition counts_by_status (d : db) : gmap MessageStatus Z :=
  fold_left (fun out '(st, c) => <[st := c]> out) (group_by_status (messages d)) ∅.

(** [iter_messages]: the rows in the order of their ids, each turned into
    the model as the generator reaches it; the first row that does not
    validate ends the iteration with its error. *)
Fixpoint yield_rows (rows : list Messages.row) : list MessageRow.t * option exn :=
  match rows with
  | [] => ([], None)
  | row :: rest =>
      match _row_to_message row with
      | Return m => let '(ms, e) := yield_rows rest in (m :: ms, e)
      | Raise e => ([], Some e)
      end
  end.

Definition by_id (r1 r2 : Messages.row) : Prop := (Messages.id r1 <= Messages.id r2)%Z.

#[global] Instance by_id_dec (r1 r2 : Messages.row) : Decision (by_id r1 r2) :=
  Z_le_dec (Messages.id r1) (Messages.id r2).

Definition iter_messages (d : db) (status : option MessageStatus)
    : list MessageRow.t * option exn :=
  let rows :=
    match status with
    | None => merge_sort by_id (messages d)
    | Some st =>
        merge_sort by_id
          (List.filter (fun row => bool_decide (Messages.status row = st)) (messages d))
    end in
  yield_rows rows.

(** The ids of the rows are distinct (the primary key). *)
Definition ids_distinct (d : db) : Prop := NoDup (map Messages.id (messages d)).

(** The row [upsert_folder] leaves under [name]. *)
Definition upserted_folder (d : db) (now name : pystr) (uv last : option Z) : Folders.row :=
  {| Folders.name := name;
     Folders.uidvalidity := uv;
     Folders.last_uid_seen := last;
     Folders.created_at :=
       match List.find (has_name name) (folders d) with
       | Some f => Folders.created_at f
       | None => now
       end;
     Folders.updated_at := now |}.

(** How many of [rows] are in status [st]. *)
Definition with_status (st : MessageStatus) (rows : list Messages.row) : nat :=
  length (List.filter (fun row => bool_decide (Messages.status row = st)) rows).

End StateDb.

(** ** [imap/client.py]: the LIST response *)

Module Imap.

(** [getattr(imaplib, "DecodeUTF7", None)]: [None] when the attribute is
    missing; a decoder answers [None] when it raises. *)
Class ImapLib := { DecodeUTF7 : option (pystr -> option pystr) }.

(** The decoder, when there is one, gives [name] back or raises on it (as
    any decoder of modified UTF-7 does on a name without [&]). *)
Definition decoder_keeps `{ImapLib} (name : pystr) : Prop :=
  match DecodeUTF7 with
  | Some decoder => decoder name = Some name \/ decoder name = None
  | None => True
  end.

Definition DQ : byte := "034"%byte.        (* the double quote *)
Definition BSL : byte := "092"%byte.       (* the backslash *)
Definition NL : byte := "010"%byte.

(** Pattern atoms over bytes. *)
Definition bchr (a : byte) : re byte := Chr (Byte.eqb a).
Definition bnot (a : byte) : re byte := Chr (fun c => negb (Byte.eqb a c)).
Fixpoint lit (s : bytes) : re byte :=
  match s with
  | [] => Eps
  | c :: s' => Seq (bchr c) (lit s')
  end.
(** [\s], [[^\s]], [.], [\d] and [$] of a bytes pattern without flags *)
Definition ws : re byte := Chr bisspace.
Definition nonws : re byte := Chr (fun c => negb (bisspace c)).
Definition dot : re byte := bnot NL.
Definition digit : re byte :=
  Chr (fun c => let n := Byte.to_N c in ((48 <=? n) && (n <=? 57))%N).
Definition dollar : re byte :=
  Ahead (fun s => match s with
                  | [] => true
                  | [c] => Byte.eqb c NL
                  | _ => false
                  end).

(** The pattern [^\* LIST \([^\)]*\)\s+(?P<delim>NIL|Q[^Q]*Q|[^\s]+)\s+(?P<name>.+)$],
    with [Q] standing for the double quote. *)
Definition _LIST_MAILBOX_RE : re byte :=
  Seq (lit (bstr "* LIST ("))
    (Seq (Star (bnot ")"%byte))
       (Seq (bchr ")"%byte)
          (Seq (Plus ws)
             (Seq (Grp "delim"
                     (Alt (lit (bstr "NIL"))
                        (Alt (Seq (bchr DQ) (Seq (Star (bnot DQ)) (bchr DQ)))
                           (Plus nonws))))
                (Seq (Plus ws)
                   (Seq (Grp "name" (Plus dot)) dollar)))))).

(** [rb"^\{(?P<n>\d+)\}$"] *)
Definition _LITERAL_RE : re byte :=
  Seq (bchr "{"%byte) (Seq (Grp "n" (Plus digit)) (Seq (bchr "}"%byte) dollar)).

(** [bytes.upper()] *)
Definition bupper (b : byte) : byte :=
  let n := Byte.to_N b in
  if ((97 <=? n) && (n <=? 122))%N then default b (Byte.of_N (n - 32)) else b.

Definition _decode_mailbox_name `{ImapLib} (raw : bytes) : pystr :=
  let value := bstrip raw in
  if bool_decide (value = []) || bool_decide (map bupper value = bstr "NIL") then []
  else
    let value :=
      if startswith value [DQ] && endswith value [DQ] && (2 <=? length value)%nat
      then
        let value := take (length value - 2) (drop 1 value) in       (* value[1:-1] *)
        replace_pair BSL BSL [BSL] (replace_pair BSL DQ [DQ] value)
      else value in
    let decoded := decode_ascii_replace value in
    match DecodeUTF7 with
    | Some decoder =>
        match decoder decoded with
        | Some v => v
        | None => decoded
        end
    | None => decoded
    end.

(** The name token of a matched line: the quoted part when there is one,
    the last word otherwise. *)
Definition pick_name_token (name_token : bytes) : bytes :=
  if contains name_token [DQ] then
    match find name_token [DQ] with
    | Some first_quote =>
        match find_char_from name_token DQ (S first_quote) with
        | Some second_quote =>
            match rfind_char name_token DQ with
            | Some last_quote =>
                if (first_quote <? last_quote)%nat
                then drop first_quote (take (S last_quote) name_token)
                else name_token
            | None => name_token
            end
        | None => name_token
        end
    | None => name_token
    end
  else
    match last (split_ws bisspace name_token) with
    | Some part => part
    | None => name_token
    end.

(** The [while idx < len(lines)] loop, on the lines from [idx] on; [out] is
    the list built so far. *)
Fixpoint parse_lines `{ImapLib} (lines : list bytes) (out : list pystr) : list pystr :=
  match lines with
  | [] => out
  | l :: rest =>
      let line := bstrip l in
      if startswith line (bstr "+") then parse_lines rest out
      else
        let line := if startswith line (bstr "(") then bstr "* LIST " ++ line else line in
        match re_match _LIST_MAILBOX_RE line with
        | None => parse_lines rest out
        | Some (caps, _) =>
            let name_token := bstrip (default [] (group caps "name")) in
            let name_token := pick_name_token name_token in
            let append := fun raw_name =>
              match _decode_mailbox_name raw_name with
              | [] => out
              | name => out ++ [name]
              end in
            match re_match _LITERAL_RE name_token with
            | Some _ =>
                match rest with
                | [] => out                                     (* break *)
                | next :: rest' => parse_lines rest' (append (bstrip next))
                end
            | None => parse_lines rest (append name_token)
            end
        end
  end.

(** The de-duplication loop. *)
Fixpoint dedupe (names : list pystr) (seen : gset pystr) : list pystr :=
  match names with
  | [] => []
  | name :: more =>
      if bool_decide (name ∈ seen) then dedupe more seen
      else name :: dedupe more ({[name]} ∪ seen)
  end.

Definition _parse_list_response `{ImapLib} (lines : list bytes) : list pystr :=
  dedupe (parse_lines lines []) ∅.


(** *** Commands and the other responses *)

(** [_imap_quote] *)
Definition _imap_quote (value : pystr) : pystr :=
  let stripped := strip value in
  match stripped with
  | [] => [34; 34]%N
  | _ :: _ =>
      let escaped :=
        replace_char 34%N [92; 34]%N (replace_char 92%N [92; 92]%N stripped) in
      [34%N] ++ escaped ++ [34%N]
  end.

(** [s.encode("ascii")] of ASCII text: a command argument on the wire. *)
Definition encode_ascii (s : pystr) : bytes := map Fingerprint.byte_of_N s.

(** [p.isdigit()] and [int(p)] on bytes *)
Definition bisdigit (b : byte) : bool :=
  let n := Byte.to_N b in ((48 <=? n) && (n <=? 57))%N.
Definition bytes_isdigit (p : bytes) : bool :=
  match p with
  | [] => false
  | _ :: _ => forallb bisdigit p
  end.
Definition int_of_digits (p : bytes) : Z :=
  fold_left (fun acc b => (10 * acc + (Z.of_N (Byte.to_N b) - 48))%Z) p 0%Z.

(** The body of the loop over the lines of a SEARCH response: the UIDs a
    line adds. *)
Definition search_line_uids (line : bytes) : list Z :=
  let parts := split_ws bisspace line in
  let parts :=
    match parts with
    | p0 :: p1 :: rest =>
        if bool_decide (p0 = bstr "*") && bool_decide (p1 = bstr "SEARCH")
        then rest else parts
    | _ => parts
    end in
  match parts with
  | [] => []
  | _ :: _ => if forallb bytes_isdigit parts then map int_of_digits parts else []
  end.

(** What [uid_search] makes of the lines of an OK response. *)
Definition uid_search_uids (lines : list bytes) : list Z :=
  flat_map search_line_uids lines.

(** [pattern.search(s)] with the groups of the leftmost match. *)
Fixpoint re_search_groups {C : Type} (r : re C) (s : list C) : option (@captures C) :=
  match re_match r s with
  | Some (caps, _) => Some caps
  | None =>
      match s with
      | [] => None
      | _ :: s' => re_search_groups r s'
      end
  end.

(** [rb"\{(?P<n>\d+)\}$"] *)
Definition _FETCH_LITERAL_RE : re byte :=
  Seq (bchr "{"%byte) (Seq (Grp "n" (Plus digit)) (Seq (bchr "}"%byte) dollar)).

Definition ImapError : exn := Exception 3.

(** The [for idx, line in enumerate(lines)] loop of [_extract_literal]:
    the literal it returns, [None] when it ends without one. *)
Fixpoint sized_literal (lines : list bytes) : option bytes :=
  match lines with
  | [] => None
  | line :: rest =>
      match re_search_groups _FETCH_LITERAL_RE line with
      | None => sized_literal rest
      | Some caps =>
          let size := int_of_digits (default [] (group caps "n")) in
          match rest with
          | [] => None                                            (* break *)
          | literal :: _ =>
              if (Z.of_nat (length literal) =? size)%Z then Some literal
              else sized_literal rest
          end
      end
  end.

(** [max(l, key=len)] of a list that starts with [first]: the first of the
    longest. *)
Definition longest (first : bytes) (more : list bytes) : bytes :=
  fold_left (fun best line => if (length best <? length line)%nat then line else best)
    more first.

Definition _extract_literal (lines : list bytes) : result bytes :=
  match lines with
  | [] => Raise ImapError
  | _ :: _ =>
      match sized_literal lines with
      | Some literal => Return literal
      | None =>
          let candidates :=
            List.filter
              (fun line =>
                 negb (contains line (bstr "FETCH"))
                 && negb (bool_decide (bstrip line = bstr ")")
                          || bool_decide (bstrip line = [])))
              lines in
          let literal :=
            match candidates, lines with
            | c :: more, _ => longest c more
            | [], l :: more => longest l more
            | [], [] => []
            end in
          if bool_decide (literal = []) || (length literal <? 64)%nat
          then Raise ImapError
          else Return literal
      end
  end.

(** [FolderBatch], without the mailbox name it repeats. *)
Module FolderBatch.
Record t := { uidvalidity : option Z; uids : list Z }.
End FolderBatch.

(** [uids[idx : idx + batch_size]] for [idx] in [range(0, len(uids), batch_size)],
    from [idx] on, for a positive step. *)
Fixpoint slices (fuel : nat) (idx batch_size : nat) (uids : list Z) : list (list Z) :=
  match fuel with
  | O => []
  | S fuel' =>
      if (idx <? length uids)%nat
      then take batch_size (drop idx uids) :: slices fuel' (idx + batch_size) batch_size uids
      else []
  end.

(** The batches [iter_uid_batches] yields once SELECT has given
    [uidvalidity] and the search has given [uids].  A step of 0 is an error
    of [range], a negative one gives the empty range. *)
Definition iter_uid_batches (uidvalidity : option Z) (uids : list Z)
    (start_uid batch_size : Z) : result (list FolderBatch.t) :=
  let uids :=
    if (1 <? start_uid)%Z then List.filter (fun uid => (start_uid <=? uid)%Z) uids
    else uids in
  let uids := merge_sort Z.le uids in
  if (batch_size =? 0)%Z then Raise (ValueError (ustr "range() arg 3 must not be zero"))
  else if (batch_size <? 0)%Z then Return []
  else
    Return
      (map (fun batch => {| FolderBatch.uidvalidity := uidvalidity; FolderBatch.uids := batch |})
         (slices (length uids) 0 (Z.to_nat batch_size) uids)).

(** What a character becomes when [b] and then [q] are escaped with [b], and
    when only [b] is doubled: the pattern-free account of the two
    replacements of [_imap_quote]. *)
Definition escaped_char {C : Type} `{EqDecision C} (b q : C) (c : C) : list C :=
  if bool_decide (c = b) then [b; b] else if bool_decide (c = q) then [b; q] else [c].
Definition doubled_char {C : Type} `{EqDecision C} (b : C) (c : C) : list C :=
  if bool_decide (c = b) then [b; b] else [c].

End Imap.

(** ** [config/settings.py]: validators *)

Module Settings.

(** [repr] of a string, in an error message. *)
Class PyRepr := { repr : pystr -> pystr }.

(** [GmailSettings._label_prefix_not_blank] *)
Definition _label_prefix_not_blank (value : pystr) : result pystr :=
  match strip value with
  | [] => Raise (ValueError (ustr "label_prefix must not be blank"))
  | (_ :: _) as stripped => Return stripped
  end.

(** The first loop of [FilterSettings._normalize_addresses]. *)
Fixpoint normalized `{Unicode} `{PyRepr} (value : list pystr) : result (list pystr) :=
  match value with
  | [] => Return []
  | addr :: more =>
      let lowered := lower (strip addr) in
      match lowered with
      | [] => normalized more
      | _ :: _ =>
          if negb (contains lowered (ustr "@"))
          then Raise (ValueError (ustr "Invalid email address in target_addresses: "
                                    ++ repr addr))
          else
            match normalized more with
            | Return rest => Return (lowered :: rest)
            | Raise e => Raise e
            end
      end
  end.

(** [FilterSettings._normalize_addresses]; its second loop is the
    de-duplication that keeps the first of equals. *)
Definition _normalize_addresses `{Unicode} `{PyRepr} (value : list pystr)
    : result (list pystr) :=
  match normalized value with
  | Return addresses => Return (Imap.dedupe addresses ∅)
  | Raise e => Raise e
  end.

End Settings.

(** ** [pipeline/orchestrator.py]: retries *)

Module Orchestrator.

(** Python's floats, as far as [retry_async] computes with them.  The
    conversion of an integer fails with [OverflowError] beyond the range of
    a double. *)
Class PyFloat := {
  float : Type;
  float_of_int : Z -> option float;
  fmul : float -> float -> float;
  fadd : float -> float -> float;
  fmin : float -> float -> float;
  float_of_int_range :
    forall z, is_Some (float_of_int z) <-> (Z.abs z < 2 ^ 1024 - 2 ^ 970)%Z;
}.

(** What the caller observes of a run. *)
Inductive event `{PyFloat} :=
| Called (i : Z)               (* the [i]-th invocation of [fn] *)
| Slept (delay : float).       (* [asyncio.sleep(delay)] *)

Section Retry.
Context `{PyFloat} {T : Type}.
(** The outcome of the [n]-th invocation of [fn], counted from 0. *)
Variable fn : nat -> result T.
(** The value of the [n]-th call [random.uniform(0, jitter_s)], counted from 0. *)
Variable random_uniform : nat -> float -> float.
Variable attempts : Z.
Variables base_delay_s max_delay_s jitter_s : float.
(** [isinstance(exc, retry_on)] *)
Variable retry_on : exn -> bool.

(** The body of [for i in range(1, attempts + 1)], with [remaining] values
    of [i] left. *)
Fixpoint retry_loop (remaining : nat) (i : Z) (last_exc : option exn)
    (trace : list event) : result T * list event :=
  match remaining with
  | O =>
      (* the loop ran out: assert last_exc is not None; raise last_exc *)
      (match last_exc with Some e => Raise e | None => Raise AssertionError end, trace)
  | S remaining' =>
      let trace := trace ++ [Called i] in
      match fn (Z.to_nat (i - 1)) with
      | Return v => (Return v, trace)
      | Raise exc =>
          if retry_on exc then
            if (attempts <=? i)%Z then (Raise exc, trace)          (* break *)
            else
              match float_of_int (2 ^ (i - 1)) with
              | None => (Raise OverflowError, trace)
              | Some p =>
                  let delay := fmin max_delay_s (fmul base_delay_s p) in
                  let delay := fadd delay (random_uniform (Z.to_nat (i - 1)) jitter_s) in
                  retry_loop remaining' (i + 1)%Z (Some exc) (trace ++ [Slept delay])
              end
          else (Raise exc, trace)
      end
  end.

Definition retry_async : result T * list event :=
  retry_loop (Z.to_nat attempts) 1%Z None [].

End Retry.

(** "min(cap, base * 2^(attempt-1)) + U(0, jitter)": the sleep after failed
    attempt [i], when the power of two converts to a float. *)
Definition backoff_delay `{PyFloat} (random_uniform : nat -> float -> float)
    (base_delay_s max_delay_s jitter_s : float) (i : Z) : option float :=
  match float_of_int (2 ^ (i - 1)) with
  | Some p =>
      Some (fadd (fmin max_delay_s (fmul base_delay_s p))
              (random_uniform (Z.to_nat (i - 1)) jitter_s))
  | None => None
  end.

(** What [n] failed attempts from attempt [i] on look like from outside:
    each is followed by its sleep. *)
Fixpoint backoff_trace `{PyFloat} (random_uniform : nat -> float -> float)
    (base_delay_s max_delay_s jitter_s : float) (n : nat) (i : Z) : option (list event) :=
  match n with
  | O => Some []
  | S n' =>
      match backoff_delay random_uniform base_delay_s max_delay_s jitter_s i,
            backoff_trace random_uniform base_delay_s max_delay_s jitter_s n' (i + 1) with
      | Some d, Some rest => Some (Called i :: Slept d :: rest)
      | _, _ => None
      end
  end.

(** How often [fn] was invoked. *)
Definition is_call `{PyFloat} (e : event) : bool :=
  match e with Called _ => true | Slept _ => false end.
Definition calls `{PyFloat} (trace : list event) : nat :=
  length (List.filter is_call trace).


(** *** Mailboxes *)

(** [{name.strip() for name in names if name.strip()}] *)
Definition stripped_names (names : list pystr) : gset pystr :=
  list_to_set
    (omap (fun name => match strip name with
                       | [] => None
                       | (_ :: _) as stripped => Some stripped
                       end)
          names).

(** The loop of [_filter_mailboxes]. *)
Fixpoint kept_mailboxes (include exclude : gset pystr) (mailboxes : list pystr)
    : list pystr :=
  match mailboxes with
  | [] => []
  | mailbox :: more =>
      if negb (bool_decide (include = ∅)) && negb (bool_decide (mailbox ∈ include))
      then kept_mailboxes include exclude more
      else if bool_decide (mailbox ∈ exclude) then kept_mailboxes include exclude more
      else mailbox :: kept_mailboxes include exclude more
  end.

(** [_filter_mailboxes], given [folder_include] and [folder_exclude]. *)
Definition _filter_mailboxes (folder_include folder_exclude : list pystr)
    (mailboxes : list pystr) : list pystr :=
  kept_mailboxes (stripped_names folder_include) (stripped_names folder_exclude) mailboxes.

(** [(folder_row.last_uid_seen + 1) if folder_row and folder_row.last_uid_seen else 1] *)
Definition start_uid (folder_row : option StateDb.FolderRow.t) : Z :=
  match folder_row with
  | Some row =>
      match StateDb.FolderRow.last_uid_seen row with
      | Some last => if (last =? 0)%Z then 1%Z else (last + 1)%Z
      | None => 1%Z
      end
  | None => 1%Z
  end.

(** *** One message *)

(** The settings [_process_uid] reads. *)
Record RunSettings := {
  fingerprint_body_bytes : Z;
  target_addresses : list pystr;
  include_sender : bool;
  include_recipients : bool;
  label_prefix : pystr;
  evidence_dir : EmlStore.Path;
}.

Record GmailWorkItem := {
  message_row_id : Z;
  eml_path : EmlStore.Path;
  label_ids : list pystr;
}.

(** What a run works on: the ledger, the evidence store's file system, the
    label cache, and the requests to create a label made so far. *)
Record world := {
  ledger : StateDb.db;
  disk : EmlStore.filesystem;
  label_cache : gmap pystr pystr;
  label_requests : list pystr;
}.

(** The order of [str]: by code points, a prefix first. *)
Fixpoint str_le (a b : pystr) : bool :=
  match a, b with
  | [], _ => true
  | _ :: _, [] => false
  | x :: a', y :: b' => (x <? y)%N || ((x =? y)%N && str_le a' b')
  end.

#[global] Instance str_le_dec (a b : pystr) : Decision (str_le a b = true) :=
  bool_eq_dec (str_le a b) true.

(** [sorted(set(l))] *)
Definition sorted_set (l : list pystr) : list pystr :=
  merge_sort (fun a b => str_le a b = true) (remove_dups l).

Section ProcessUid.
Context `{Unicode} `{Email.EmailLib} `{Fingerprint.Hashlib} `{Labels.UnicodeRe}.
Variable s : RunSettings.
Variable dry_run : bool.
(** The clock at the upsert and at the status update that follows it. *)
Variables now_discovered now_marked : pystr.
(** [f"Filtered out by target_addresses={...!r}"] *)
Variable filtered_reason : pystr.
(** The names [mkstemp] draws, and the outcome of a request to create a label. *)
Variable tmp_candidates : list pystr.
Variable create : pystr -> result (option pystr).

(** [_process_uid] from the fetched bytes on: between the fetch and the
    [queue.put] nothing is awaited, so no other task runs in between.  The
    result is the item put on the queue, if any. *)
Definition _process_uid (mailbox : pystr) (uid : Z) (uidvalidity : option Z) (raw : bytes)
    (w : world) : result (option GmailWorkItem) * world :=
  let fp := Fingerprint.compute_fingerprint raw (fingerprint_body_bytes s) in
  match StateDb.upsert_message_discovered (ledger w) now_discovered mailbox uid uidvalidity
          (Fingerprint.message_id_norm fp) (Fingerprint.fingerprint fp)
          (Some (Z.of_nat (length raw))) with
  | (Raise e, d) =>
      (Raise e, {| ledger := d; disk := disk w; label_cache := label_cache w;
                   label_requests := label_requests w |})
  | (Return msg_row, d) =>
  if bool_decide (StateDb.MessageRow.status msg_row = StateDb.imported)
  then (Return None, {| ledger := d; disk := disk w; label_cache := label_cache w;
                        label_requests := label_requests w |})
  else
  let addr_filter :=
    {| Email.target_addresses := list_to_set (target_addresses s);
       Email.include_sender := include_sender s;
       Email.include_recipients := include_recipients s |} in
  if negb (Email.matches addr_filter (Fingerprint.headers fp))
  then
    (Return None,
     {| ledger := StateDb.mark_skipped_filtered d now_marked (StateDb.MessageRow.id msg_row)
                    filtered_reason;
        disk := disk w; label_cache := label_cache w;
        label_requests := label_requests w |})
  else
  let existing :=
    StateDb.find_existing_imported d (Fingerprint.message_id_norm fp)
      (Fingerprint.fingerprint fp) in
  (* existing is not None and existing != msg_row.id *)
  let duplicate_of :=
    match existing with
    | Some other =>
        if negb (other =? StateDb.MessageRow.id msg_row)%Z then Some other else None
    | None => None
    end in
  match duplicate_of with
  | Some other =>
      (Return None,
       {| ledger := StateDb.mark_skipped_duplicate d now_marked
                      (StateDb.MessageRow.id msg_row)
                      (ustr "Duplicate of imported row id=" ++ str_of_Z other);
          disk := disk w; label_cache := label_cache w;
          label_requests := label_requests w |})
  | None =>
  match EmlStore.write_immutable (evidence_dir s) tmp_candidates (disk w) mailbox
          uidvalidity uid raw with
  | (Raise e, fs) =>
      (Raise e, {| ledger := d; disk := fs; label_cache := label_cache w;
                   label_requests := label_requests w |})
  | (Return written, fs) =>
  let d := StateDb.mark_downloaded d now_marked (StateDb.MessageRow.id msg_row)
             (EmlStore.path_str (EmlStore.path written)) (EmlStore.sha256 written) in
  if dry_run
  then (Return None, {| ledger := d; disk := fs; label_cache := label_cache w;
                        label_requests := label_requests w |})
  else
  let label_ids := map Labels.system_label_value (Labels.folder_to_system_labels mailbox) in
  let custom_name := Labels.folder_to_custom_label (label_prefix s) mailbox in
  match Labels.ensure create (label_cache w) custom_name with
  | (Raise e, cache, requests) =>
      (Raise e, {| ledger := d; disk := fs; label_cache := cache;
                   label_requests := label_requests w ++ requests |})
  | (Return custom_id, cache, requests) =>
      let label_ids := label_ids ++ [custom_id] in
      (Return (Some {| message_row_id := StateDb.MessageRow.id msg_row;
                       eml_path := EmlStore.path written;
                       label_ids := sorted_set label_ids |}),
       {| ledger := d; disk := fs; label_cache := cache;
          label_requests := label_requests w ++ requests |})
  end end end end.

End ProcessUid.

(** *** The Gmail worker *)

(** [IngestResult], as far as the worker reads it. *)
Record IngestResult := {
  gmail_message_id : pystr;
  gmail_thread_id : option pystr;
}.

(** What [_gmail_worker] does with the ledger for one item, given how
    [retry_to_thread] ended; [error] is the text
    [f"[gmail_worker={worker_idx}] {exc!r}"]. *)
Definition _gmail_worker_item `{StateDb.JsonLib} (now : pystr) (error : exn -> pystr)
    (item : GmailWorkItem) (res : result IngestResult) (d : StateDb.db) : StateDb.db :=
  match res with
  | Return r =>
      StateDb.mark_imported d now (message_row_id item) (gmail_message_id r)
        (gmail_thread_id r) (label_ids item)
  | Raise exc => StateDb.mark_failed d now (message_row_id item) (error exc)
  end.

End Orchestrator.

(** ** The specification's own words, where a claim compares the code with them *)

Module Claims.
Import Labels.

(** The system-label rules, in the fixed order inbox, sent, trash, spam,
    draft; each is a test of the trimmed, lowercased folder name. *)
Definition rule_inbox (l : pystr) : bool := bool_decide (l = ustr "inbox").
Definition rule_sent (l : pystr) : bool :=
  startswith l (ustr "sent") || contains l (ustr "sent messages").
Definition rule_trash (l : pystr) : bool :=
  contains l (ustr "trash") || bool_decide (l = ustr "deleted messages")
  || bool_decide (l = ustr "deleted").
Definition rule_spam (l : pystr) : bool :=
  contains l (ustr "junk") || contains l (ustr "spam").
Definition rule_draft (l : pystr) : bool := contains l (ustr "draft").

Definition system_label_rules : list ((pystr -> bool) * GmailSystemLabelId) :=
  [ (rule_inbox, inbox); (rule_sent, sent); (rule_trash, trash);
    (rule_spam, spam); (rule_draft, draft) ].

(** The label of the earliest rule that accepts [l], if any. *)
Fixpoint earliest_rule (rules : list ((pystr -> bool) * GmailSystemLabelId)) (l : pystr)
    : list GmailSystemLabelId :=
  match rules with
  | [] => []
  | (accepts, label) :: rest => if accepts l then [label] else earliest_rule rest l
  end.

(** *** The normalised Message-ID *)

(** [until stop s]: [s] up to, and without, its first character that [stop]
    accepts. *)
Fixpoint until (stop : N -> bool) (s : pystr) : pystr :=
  match s with
  | [] => []
  | c :: s' => if stop c then [] else c :: until stop s'
  end.

(** "strips a single enclosing pair of angle brackets" *)
Definition unbracket (v : pystr) : pystr :=
  match v with
  | c :: rest =>
      match rev rest with
      | d :: inner => if (c =? 60)%N && (d =? 62)%N then rev inner else v
      | [] => v
      end
  | [] => v
  end.

(** The claim as it stands: "returns absent for absent, empty or blank
    input; otherwise it truncates v at the first whitespace, strips a single
    enclosing pair of angle brackets, lowercases the interior, and re-wraps
    the result in angle brackets" (the value is read trimmed, as the first
    example requires). *)
Definition normalize_message_id_claimed `{Unicode} (value : option pystr) : option pystr :=
  match value with
  | None => None
  | Some value =>
      match strip value with
      | [] => None
      | v => Some ([60%N] ++ lower (unbracket (until isspace v)) ++ [62%N])
      end
  end.

(** The claim as amended: the truncation is at the first space character,
    what is left is trimmed before and after the brackets come off, and an
    empty interior gives absent. *)
Definition normalize_message_id_amended `{Unicode} (value : option pystr) : option pystr :=
  match value with
  | None => None
  | Some value =>
      match strip value with
      | [] => None
      | v =>
          match strip (unbracket (strip (until (N.eqb 32) v))) with
          | [] => None
          | interior => Some ([60%N] ++ lower interior ++ [62%N])
          end
      end
  end.

(** *** The folder name of an evidence path *)

(** The characters trimmed from both ends: [.], [_] and [-]. *)
Definition trimmed_char (c : N) : bool := bool_decide (c ∈ ustr "._-").

(** The claim as it stands: "replaces path separators and every character
    outside [A-Za-z0-9._-] with '_' (one underscore per replaced character),
    trims leading and trailing '.', '_' and '-', and returns the string
    "folder" when the result is empty". *)
Definition safe_folder_per_character (folder : pystr) : pystr :=
  let replaced :=
    map (fun c => if (c =? 47)%N || negb (EmlStore.safe_char c) then 95%N else c) folder in
  match strip_by trimmed_char replaced with
  | [] => ustr "folder"
  | name => name
  end.

(** The claim as amended: each path separator becomes one '_', and each
    maximal run of other characters outside [A-Za-z0-9._-] becomes one '_';
    [in_run] tells that the character before was one of such a run. *)
Fixpoint collapse_unsafe (in_run : bool) (s : pystr) : pystr :=
  match s with
  | [] => []
  | c :: s' =>
      if (c =? 47)%N then 95%N :: collapse_unsafe false s'
      else if EmlStore.safe_char c then c :: collapse_unsafe false s'
      else if in_run then collapse_unsafe true s'
      else 95%N :: collapse_unsafe true s'
  end.

Definition safe_folder_per_run (folder : pystr) : pystr :=
  match strip_by trimmed_char (collapse_unsafe false folder) with
  | [] => ustr "folder"
  | name => name
  end.

(** *** The fingerprint, as the specification defines it *)

(** [eat b s]: [s] without its first byte, when that byte is [b]. *)
Definition eat (b : byte) (s : bytes) : option bytes :=
  match s with
  | c :: s' => if Byte.eqb b c then Some s' else None
  | [] => None
  end.

(** A line end: LF, or CR LF. *)
Definition eat_line_end (s : bytes) : option bytes :=
  match eat Email.CR s with
  | Some s' => eat Email.LF s'
  | None => eat Email.LF s
  end.

(** What follows two line ends in a row at the head of [s]. *)
Definition after_blank_line (s : bytes) : option bytes :=
  match eat_line_end s with
  | Some s' => eat_line_end s'
  | None => None
  end.

(** "the bytes following the first [\r?\n\r?\n]", if there is one. *)
Fixpoint body_after_split (raw : bytes) : option bytes :=
  match after_blank_line raw with
  | Some body => Some body
  | None =>
      match raw with
      | [] => None
      | _ :: rest => body_after_split rest
      end
  end.

(** "(normalized date ISO or raw date or empty), From, To, Subject, decimal len(raw)" *)
Definition fingerprint_fields (h : Email.MinimalHeaders) (raw : bytes) : list pystr :=
  [ match Email.date_dt_iso h with
    | Some iso => iso
    | None => default [] (Email.date_raw h)
    end;
    default [] (Email.from_ h);
    default [] (Email.to h);
    default [] (Email.subject h);
    str_of_N (N.of_nat (length raw)) ].

(** "concatenate, joined by newline, exactly these fields in this order ...
    Append one newline, then the first body_prefix_bytes of the body (...; if
    no split, the raw prefix).  Hash with SHA-256, hex-encode." *)
Definition fingerprint_reference `{Unicode} `{Email.EmailLib} `{Fingerprint.Hashlib}
    (raw : bytes) (n : nat) : pystr :=
  let fields := fingerprint_fields (Email.parse_minimal_headers raw) raw in
  let body := default raw (body_after_split raw) in
  Fingerprint.sha256_hexdigest
    (Fingerprint.encode_utf8_replace (join [10%N] fields) ++ [Email.LF] ++ take n body).

End Claims.

(** ** Concrete libraries and states, for evaluating the definitions *)

Module Examples.
Import StateDb.

(** A Unicode database that is never asked: the examples are ASCII. *)
Definition ascii_unicode : Unicode := {| unicode_lower := fun s => s |}.

(** An [email] package that finds no header, takes a whole value for one
    address and reads no date. *)
Definition plain_email : Email.EmailLib.
Proof.
  refine {| Email.header_get := fun _ _ => None;
            Email.getaddresses := fun v => [([], v)];
            Email.parsedate_iso := fun _ => None;
            Email.decode_rfc2047 := fun v => Some v |}.
  intros value iso Hiso. discriminate Hiso.
Defined.

(** A stand-in for SHA-256 that tells any two inputs apart: the input's own
    octets, in decimal. *)
Definition transparent_hash : Fingerprint.Hashlib :=
  {| Fingerprint.sha256_hexdigest := fun data => map Byte.to_N data |}.

(** A filter for one address with both header groups switched off, and the
    headers of a message sent to that address. *)
Definition both_off : Email.AddressFilter :=
  {| Email.target_addresses := {[ ustr "andrew@vectorfy.co" ]};
     Email.include_sender := false;
     Email.include_recipients := false |}.
Definition to_andrew : Email.MinimalHeaders :=
  {| Email.date_raw := None; Email.date_dt_iso := None;
     Email.from_ := Some (ustr "sender@example.com");
     Email.to := Some (ustr "andrew@vectorfy.co");
     Email.cc := None; Email.bcc := None; Email.delivered_to := None;
     Email.x_original_to := None; Email.envelope_to := None;
     Email.subject := Some (ustr "Hi"); Email.message_id_norm := None |}.

(** A message of one header and a five-byte body. *)
Definition small_message : bytes :=
  bstr "Subject: Test" ++ [Email.CR; Email.LF; Email.CR; Email.LF] ++ bstr "Hello".

(** An evidence directory [ev] that holds the message (INBOX, 1, 10). *)
Definition hello : bytes := bstr "Hello".
Definition stored : EmlStore.file := {| EmlStore.content := hello; EmlStore.mode := 292 |}.
Definition evidence_fs : gmap (list pystr) EmlStore.node :=
  <[ [ustr "ev"; ustr "INBOX"; ustr "1-10.eml"] := EmlStore.File stored ]>
    (<[ [ustr "ev"; ustr "INBOX"] := EmlStore.Dir ]>
       (<[ [ustr "ev"] := EmlStore.Dir ]> ∅)).

(** Floats as exact rationals, with the one failure [retry_async] can meet:
    an integer too large for a double. *)
Definition rational_floats : Orchestrator.PyFloat.
Proof.
  refine {| Orchestrator.float := Q;
            Orchestrator.float_of_int :=
              fun z => if (Z.abs z <? 2 ^ 1024 - 2 ^ 970)%Z then Some (inject_Z z) else None;
            Orchestrator.fmul := Qmult;
            Orchestrator.fadd := Qplus;
            Orchestrator.fmin := Qmin |}.
  intros z. destruct (Z.ltb_spec (Z.abs z) (2 ^ 1024 - 2 ^ 970)) as [Hlt|Hge].
  - split; [intros _; exact Hlt | intros _; eexists; reflexivity].
  - split; [intros [x Hx]; discriminate Hx | intros Hlt; exfalso; apply (Z.lt_irrefl (Z.abs z)); eapply Z.lt_le_trans; eassumption].
Defined.

(** A callable that fails every time with the same retryable error, and a
    random source that always draws 0. *)
Definition always_failing : nat -> result unit := fun _ => Raise (Exception 7).
Definition no_jitter : nat -> Q -> Q := fun _ _ => 0%Q.

(** [imaplib] as CPython ships it: no [DecodeUTF7]. *)
Definition cpython_imaplib : Imap.ImapLib := {| Imap.DecodeUTF7 := None |}.

(** A ledger with one message row, for a folder whose SELECT response gave
    no UIDVALIDITY, that failed at the sink. *)
Definition failed_row : Messages.row :=
  {| Messages.id := 1;
     Messages.folder := ustr "INBOX";
     Messages.uid := 11;
     Messages.uidvalidity := None;
     Messages.status := failed;
     Messages.message_id_norm := Some (ustr "<a@b>");
     Messages.fingerprint := ustr "fp-old";
     Messages.eml_path := None;
     Messages.eml_sha256 := None;
     Messages.size_bytes := Some 42%Z;
     Messages.gmail_message_id := None;
     Messages.gmail_thread_id := None;
     Messages.labels_json := None;
     Messages.attempts := 1;
     Messages.last_error := Some (ustr "boom");
     Messages.last_error_at := Some (ustr "2024-01-01T00:00:00+00:00");
     Messages.created_at := ustr "2024-01-01T00:00:00+00:00";
     Messages.updated_at := ustr "2024-01-01T00:00:00+00:00" |}.

Definition inbox_folder : Folders.row :=
  {| Folders.name := ustr "INBOX";
     Folders.uidvalidity := None;
     Folders.last_uid_seen := Some 10%Z;
     Folders.created_at := ustr "2024-01-01T00:00:00+00:00";
     Folders.updated_at := ustr "2024-01-01T00:00:00+00:00" |}.

Definition ledger : db :=
  {| folders := [inbox_folder]; messages := [failed_row]; sqlite_sequence := 1 |}.

(** The same row under a known UIDVALIDITY. *)
Definition failed_row_123 : Messages.row :=
  {| Messages.id := 1;
     Messages.folder := ustr "INBOX";
     Messages.uid := 11;
     Messages.uidvalidity := Some 123%Z;
     Messages.status := failed;
     Messages.message_id_norm := Some (ustr "<a@b>");
     Messages.fingerprint := ustr "fp-old";
     Messages.eml_path := None;
     Messages.eml_sha256 := None;
     Messages.size_bytes := Some 42%Z;
     Messages.gmail_message_id := None;
     Messages.gmail_thread_id := None;
     Messages.labels_json := None;
     Messages.attempts := 1;
     Messages.last_error := Some (ustr "boom");
     Messages.last_error_at := Some (ustr "2024-01-01T00:00:00+00:00");
     Messages.created_at := ustr "2024-01-01T00:00:00+00:00";
     Messages.updated_at := ustr "2024-01-01T00:00:00+00:00" |}.

Definition ledger_123 : db :=
  {| folders := [inbox_folder]; messages := [failed_row_123]; sqlite_sequence := 1 |}.

Definition later : pystr := ustr "2024-02-02T00:00:00+00:00".

(** A LIST response with quoted names, a NIL delimiter and an atom. *)
Definition quoted (s : bytes) : bytes := [Imap.DQ] ++ s ++ [Imap.DQ].
Definition list_lines : list bytes :=
  [ bstr "* LIST (\HasNoChildren) " ++ quoted (bstr "/") ++ bstr " " ++ quoted (bstr "INBOX");
    bstr "* LIST (\HasNoChildren) " ++ quoted (bstr "/") ++ bstr " "
      ++ quoted (bstr "Sent Messages");
    bstr "* LIST (\Noselect) NIL " ++ quoted (bstr "Archive");
    bstr "* LIST (\HasNoChildren) " ++ quoted (bstr "/") ++ bstr " INBOX" ].
(** A LIST response whose name is a literal on the next line. *)
Definition literal_lines : list bytes :=
  [ bstr "* LIST (\HasNoChildren) " ++ quoted (bstr "/") ++ bstr " {12}";
    bstr "Sent Messages" ].
(** The same lines as they come off the wire, each ended by CR LF. *)
Definition crlf (lines : list bytes) : list bytes :=
  map (fun l => l ++ [Email.CR; Email.LF]) lines.



(** [\w] on ASCII alone, [repr] as quoting, [json.dumps] of ASCII ids. *)
Definition ascii_words : Labels.UnicodeRe.
Proof.
  refine {| Labels.word_char := fun c =>
              ((65 <=? c) && (c <=? 90) || (97 <=? c) && (c <=? 122)
               || (48 <=? c) && (c <=? 57) || (c =? 95))%N |}.
  intros c _. reflexivity.
Defined.
Definition quoting_repr : Settings.PyRepr :=
  {| Settings.repr := fun s => ustr "'" ++ s ++ ustr "'" |}.
Definition ascii_json : JsonLib :=
  {| json_dumps := fun ids =>
       ustr "[" ++ join (ustr ", ") (map (fun id => [34%N] ++ id ++ [34%N]) ids) ++ ustr "]" |}.

(** The settings of a run that keeps every message. *)
Definition keep_all : Orchestrator.RunSettings :=
  {| Orchestrator.fingerprint_body_bytes := 4096;
     Orchestrator.target_addresses := [];
     Orchestrator.include_sender := true;
     Orchestrator.include_recipients := true;
     Orchestrator.label_prefix := ustr "iCloud";
     Orchestrator.evidence_dir := [ustr "ev"] |}.

(** A first run: nothing in the ledger, on disk or in the cache. *)
Definition fresh_world : Orchestrator.world :=
  {| Orchestrator.ledger := {| folders := []; messages := []; sqlite_sequence := 0 |};
     Orchestrator.disk := ∅;
     Orchestrator.label_cache := ∅;
     Orchestrator.label_requests := [] |}.

(** A Gmail that creates every label under the id Label_7. *)
Definition label_7 : pystr -> result (option pystr) := fun _ => Return (Some (ustr "Label_7")).

(** A callable that fails twice and then returns. *)
Definition third_time : nat -> result unit :=
  fun n => if (n <? 2)%nat then Raise (Exception 7) else Return tt.

(** A mailbox name with blanks around it, quotes and a backslash in it. *)
Definition awkward_name : pystr :=
  ustr " My " ++ [34%N] ++ ustr "Box" ++ [34%N; 92%N] ++ ustr "A ".

(** A FETCH response: the size, the literal, the closing bracket. *)
Definition fetch_lines : list bytes :=
  [ bstr "* 1 FETCH (UID 11 BODY[] {5}"; bstr "Hello"; bstr ")" ].

End Examples.

(* ===================================================================== *)
(** * Part II: theorems                                                   *)
(* ===================================================================== *)


(** ** Sequences and patterns *)

Section SeqFacts.
Context {C : Type}.
Implicit Types (f : C -> bool) (s t : list C).

Lemma drop_while_all f s t :
  Forall (fun c => f c = true) s -> drop_while f (s ++ t) = drop_while f t.
Proof.
  induction 1 as [|c s Hc _ IH]; [reflexivity|]. simpl. rewrite Hc. exact IH.
Qed.

Lemma drop_while_app f s t :
  drop_while f (s ++ t) = if forallb f s then drop_while f t else drop_while f s ++ t.
Proof.
  induction s as [|c s IH]; [reflexivity|]. simpl.
  destruct (f c); [exact IH | reflexivity].
Qed.

Lemma drop_while_nil_all f s : drop_while f s = [] -> forallb f s = true.
Proof.
  induction s as [|c s IH]; [reflexivity|]. simpl.
  destruct (f c); [exact IH | discriminate].
Qed.

Lemma drop_while_forallb f s : forallb f s = true -> drop_while f s = [].
Proof.
  induction s as [|c s IH]; [reflexivity|]. simpl.
  destruct (f c); [exact IH | discriminate].
Qed.

Lemma drop_while_split f s :
  exists l, s = l ++ drop_while f s /\ Forall (fun c => f c = true) l.
Proof.
  induction s as [|c s (l & Hs & Hl)]; [exists []; split; [reflexivity|constructor]|].
  simpl. destruct (f c) eqn:Hc.
  - exists (c :: l). split; [simpl; f_equal; exact Hs | constructor; assumption].
  - exists []. split; [reflexivity | constructor].
Qed.

Lemma drop_while_head f s c r : drop_while f s = c :: r -> f c = false.
Proof.
  induction s as [|x s IH]; [discriminate|]. simpl.
  destruct (f x) eqn:Hx; [exact IH|]. intros Heq. injection Heq as <- _. exact Hx.
Qed.

(** What is dropped is a prefix: the rest is a suffix of known length. *)
Lemma drop_while_suffix f s :
  drop (length s - length (drop_while f s)) s = drop_while f s.
Proof.
  destruct (drop_while_split f s) as (l & Hs & _).
  revert Hs. generalize (drop_while f s) as d. intros d ->.
  rewrite length_app. replace (length l + length d - length d) with (length l) by lia.
  apply drop_app_length.
Qed.

Lemma drop_while_length f s : length (drop_while f s) <= length s.
Proof.
  destruct (drop_while_split f s) as (l & Hs & _).
  revert Hs. generalize (drop_while f s) as d. intros d ->.
  rewrite length_app. lia.
Qed.

(** [strip] takes whitespace off both ends and nothing else. *)
Lemma strip_by_split f s :
  exists l r, s = l ++ strip_by f s ++ r
              /\ Forall (fun c => f c = true) l /\ Forall (fun c => f c = true) r.
Proof.
  unfold strip_by, rstrip_by, lstrip_by.
  destruct (drop_while_split f s) as (l & Hs & Hl).
  destruct (drop_while_split f (rev (drop_while f s))) as (r & Hr & Hrall).
  exists l, (rev r). split; [|split; [exact Hl | apply Forall_rev, Hrall]].
  rewrite <- rev_app_distr, <- Hr, rev_involutive. exact Hs.
Qed.

(** Characters of the stripped kind at the right end do not matter. *)
Lemma strip_by_app_all f s t :
  Forall (fun c => f c = true) t -> strip_by f (s ++ t) = strip_by f s.
Proof.
  intros Ht. unfold strip_by, rstrip_by, lstrip_by. rewrite drop_while_app.
  destruct (forallb f s) eqn:Hs.
  - assert (Hnil : drop_while f s = []) by (apply drop_while_forallb, Hs).
    rewrite Hnil. rewrite <- (app_nil_r t), drop_while_all by exact Ht. reflexivity.
  - rewrite rev_app_distr, drop_while_all by (apply Forall_rev, Ht). reflexivity.
Qed.

End SeqFacts.

Section RegexFacts.
Context {C : Type}.
Implicit Types (p : C -> bool) (s : list C).

(** A greedy [c*] before the end of the pattern takes the whole run. *)
Lemma star_loop_chr {R : Type} p (g : list C -> captures -> R) (n : nat) s (caps : captures) :
  length s <= n ->
  star_loop (rmatch (Chr p)) (fun rest caps => Some (g rest caps)) n s caps
  = Some (g (drop_while p s) caps).
Proof.
  revert s. induction n as [|n IH]; intros s Hn.
  - destruct s; [reflexivity | simpl in Hn; lia].
  - cbn [star_loop rmatch]. destruct s as [|c s]; [reflexivity|].
    cbn [drop_while]. destruct (p c); [|reflexivity].
    replace (length s <? length (c :: s))%nat with true
      by (symmetry; apply Nat.ltb_lt; simpl; lia).
    rewrite IH by (simpl in Hn; lia). reflexivity.
Qed.

(** [c+] at the head of [s]: the maximal run, if it is not empty. *)
Lemma re_match_plus_chr p s :
  re_match (Plus (Chr p)) s
  = match s with
    | c :: s' =>
        if p c then Some ([], S (length s' - length (drop_while p s'))) else None
    | [] => None
    end.
Proof.
  unfold re_match, Plus. cbn [rmatch]. destruct s as [|c s]; [reflexivity|].
  destruct (p c); [|reflexivity].
  rewrite (star_loop_chr p (fun rest caps => (caps, length (c :: s) - length rest)))
    by reflexivity.
  pose proof (drop_while_length p s). do 2 f_equal. simpl. lia.
Qed.

Lemma sub_runs_in_run p repl s :
  sub_runs p repl true s = sub_runs p repl false (drop_while p s).
Proof.
  induction s as [|c s IH]; [reflexivity|]. simpl.
  destruct (p c) eqn:Hc; [exact IH|]. simpl. rewrite Hc. reflexivity.
Qed.

Lemma re_sub_fuel_plus_chr p repl (fuel : nat) s :
  length s <= fuel ->
  re_sub_fuel fuel (Plus (Chr p)) repl s = sub_runs p repl false s.
Proof.
  revert s. induction fuel as [|fuel IH]; intros s Hfuel.
  - destruct s; [reflexivity | simpl in Hfuel; lia].
  - cbn [re_sub_fuel]. destruct s as [|c s]; [reflexivity|].
    rewrite re_match_plus_chr. cbn [sub_runs]. destruct (p c).
    + rewrite drop_while_suffix, IH, sub_runs_in_run; [reflexivity|].
      pose proof (drop_while_length p s). simpl in Hfuel. lia.
    + rewrite IH by (simpl in Hfuel; lia). reflexivity.
Qed.

Lemma re_sub_plus_chr p repl s :
  re_sub (Plus (Chr p)) repl s = sub_runs p repl false s.
Proof. apply re_sub_fuel_plus_chr. reflexivity. Qed.

End RegexFacts.

(** ** Folder to system labels *)

Section LabelsFacts.
Context `{Unicode}.
Import Labels Claims.

Lemma folder_to_system_labels_rules (folder : pystr) :
  folder_to_system_labels folder = earliest_rule system_label_rules (lower (strip folder)).
Proof.
  unfold folder_to_system_labels, system_label_rules, earliest_rule,
    rule_inbox, rule_sent, rule_trash, rule_spam, rule_draft.
  set (l := lower (strip folder)).
  destruct (bool_decide (l = ustr "inbox")); [reflexivity|].
  assert (Hsent : (bool_decide (l = ustr "sent") || startswith l (ustr "sent")
                   || contains l (ustr "sent messages"))
                  = (startswith l (ustr "sent") || contains l (ustr "sent messages"))).
  { destruct (bool_decide (l = ustr "sent")) eqn:E; [|reflexivity].
    apply bool_decide_eq_true in E. rewrite E. reflexivity. }
  rewrite Hsent.
  destruct (startswith l (ustr "sent") || contains l (ustr "sent messages")); [reflexivity|].
  destruct (contains l (ustr "trash") || bool_decide (l = ustr "deleted messages")
            || bool_decide (l = ustr "deleted")); [reflexivity|].
  destruct (contains l (ustr "junk") || contains l (ustr "spam")); [reflexivity|].
  destruct (contains l (ustr "draft")); reflexivity.
Qed.

Lemma earliest_rule_length rules l : length (earliest_rule rules l) <= 1.
Proof.
  induction rules as [|[accepts label] rules IH]; simpl; [lia|].
  destruct (accepts l); simpl; lia.
Qed.

(** C10. For every folder name the result has at most one label, and it is
    the label of the earliest rule, in the order inbox, sent, trash, spam,
    draft, that the trimmed lowercased name matches; a name with both "spam"
    and "draft" in it never gets DRAFT, and gets exactly SPAM when none of
    the inbox, sent and trash rules matches it. *)
Theorem folder_to_system_labels_earliest_rule (folder : pystr) :
  let l := lower (strip folder) in
  length (folder_to_system_labels folder) <= 1
  /\ folder_to_system_labels folder = earliest_rule system_label_rules l
  /\ (contains l (ustr "spam") = true -> contains l (ustr "draft") = true ->
      (draft ∉ folder_to_system_labels folder)
      /\ (rule_inbox l = false -> rule_sent l = false -> rule_trash l = false ->
          folder_to_system_labels folder = [spam])).
Proof.
  intros l. rewrite folder_to_system_labels_rules. fold l.
  split; [apply earliest_rule_length|]. split; [reflexivity|].
  intros Hspam Hdraft. unfold system_label_rules, earliest_rule, rule_spam.
  rewrite Hspam, orb_true_r. split.
  - destruct (rule_inbox l), (rule_sent l), (rule_trash l);
      intros Hin; apply list_elem_of_singleton in Hin; discriminate.
  - intros -> -> ->. reflexivity.
Qed.

End LabelsFacts.

(** The folder "Spam Drafts" is labelled SPAM alone. *)
Example folder_to_system_labels_spam_drafts :
  @Labels.folder_to_system_labels Examples.ascii_unicode (ustr "Spam Drafts") = [Labels.spam].
Proof. vm_compute. reflexivity. Qed.

(** ** The ledger *)

Section StateDbFacts.
Import StateDb.

(** C2. [reset_skipped_and_failed] sets the checkpoint of every folder row to
    0 and touches nothing else of it; it moves exactly the message rows in
    skipped_filtered, failed or skipped_duplicate to discovered, changing no
    other column; every other row, the imported and downloaded ones among
    them, stays as it is; and it returns the number of message rows whose
    status it changed. *)
Theorem reset_skipped_and_failed_spec (d : db) :
  let '(n, d') := reset_skipped_and_failed d in
  Forall2 (fun f f' => f' = set_last_uid_seen (Some 0%Z) f
                       /\ Folders.last_uid_seen f' = Some 0%Z)
          (folders d) (folders d')
  /\ Forall2 (fun r r' =>
                ((Messages.status r ∈ [skipped_filtered; failed; skipped_duplicate])
                 /\ r' = set_status discovered r /\ Messages.status r' <> Messages.status r)
                \/ ((Messages.status r ∉ [skipped_filtered; failed; skipped_duplicate])
                    /\ r' = r))
             (messages d) (messages d')
  /\ Forall2 (fun r r' =>
                Messages.status r = imported \/ Messages.status r = downloaded -> r' = r)
             (messages d) (messages d')
  /\ n = Z.of_nat (length (List.filter
                             (fun '(r, r') =>
                                negb (bool_decide (Messages.status r = Messages.status r')))
                             (zip (messages d) (messages d'))))
  /\ sqlite_sequence d' = sqlite_sequence d.
Proof.
  unfold reset_skipped_and_failed; simpl.
  split; [|split; [|split; [|split; [|reflexivity]]]].
  - induction (folders d) as [|f fs IH]; simpl; constructor; auto.
  - induction (messages d) as [|r rs IH]; simpl; constructor; auto.
    destruct (Messages.status r) eqn:E; simpl;
      try (right; split; [rewrite !elem_of_cons, elem_of_nil; intuition discriminate | reflexivity]);
      left; (split; [rewrite !elem_of_cons; auto | split; [reflexivity | simpl; discriminate]]).
  - induction (messages d) as [|r rs IH]; simpl; constructor; auto.
    intros [E|E]; rewrite E; reflexivity.
  - f_equal. induction (messages d) as [|r rs IH]; simpl; [reflexivity|].
    destruct (Messages.status r) eqn:E; simpl; rewrite ?E; simpl; rewrite IH; reflexivity.
Qed.

(** *** The upsert of a discovered message *)

Lemma find_the_only {A} (P : A -> bool) (l : list A) (i : nat) (x : A) :
  l !! i = Some x -> P x = true ->
  (forall j y, l !! j = Some y -> P y = true -> j = i) ->
  List.find P l = Some x.
Proof.
  revert i. induction l as [|a l IH]; intros i Hi Hx Huniq; [discriminate|].
  simpl. destruct (P a) eqn:Ha.
  - assert (0 = i) as <- by (apply (Huniq 0 a); [reflexivity | exact Ha]).
    simpl in Hi. congruence.
  - destruct i as [|i]; [simpl in Hi; congruence|].
    apply (IH i); [exact Hi | exact Hx |].
    intros j y Hj Hy. specialize (Huniq (S j) y Hj Hy). lia.
Qed.

Lemma find_after_misses {A} (P : A -> bool) (l l' : list A) :
  (forall x, x ∈ l -> P x = false) -> List.find P (l ++ l') = List.find P l'.
Proof.
  induction l as [|a l IH]; intros Hmiss; [reflexivity|].
  simpl. rewrite (Hmiss a) by apply list_elem_of_here.
  apply IH. intros x Hx. apply Hmiss, list_elem_of_further, Hx.
Qed.

Lemma unique_conflict_select (folder : pystr) (uid uv : Z) (r : Messages.row) :
  select_key folder uid (Some uv) r = unique_conflict folder uid (Some uv) r.
Proof.
  unfold select_key, unique_conflict, sql_is, sql_eq. f_equal.
  destruct (Messages.uidvalidity r) as [x|].
  - destruct (Z.eqb_spec x uv) as [->|Hne].
    + apply bool_decide_eq_true. reflexivity.
    + apply bool_decide_eq_false. congruence.
  - apply bool_decide_eq_false. discriminate.
Qed.

Lemma unique_conflict_iff (folder : pystr) (uid : Z) (uv : option Z) (r : Messages.row) :
  unique_conflict folder uid uv r = true <->
  Messages.folder r = folder /\ Messages.uid r = uid
  /\ sql_eq (Messages.uidvalidity r) uv = true.
Proof.
  unfold unique_conflict. rewrite !andb_true_iff, bool_decide_eq_true, Z.eqb_eq. tauto.
Qed.

(** Under a known UIDVALIDITY the upsert does what is asked of it: the row
    that holds the key is refreshed in place, its status goes back to
    discovered from skipped_filtered and failed only, and the refreshed row
    is what the call returns. *)
Lemma upsert_message_discovered_existing (d : db) (now folder : pystr) (uid uv : Z)
    (mid : option pystr) (fp : pystr) (sz : option Z) (i : nat) (r : Messages.row)
    (m : MessageRow.t) :
  unique_keys d ->
  messages d !! i = Some r ->
  Messages.folder r = folder -> Messages.uid r = uid ->
  Messages.uidvalidity r = Some uv ->
  _row_to_message (do_update mid fp sz now r) = Return m ->
  upsert_message_discovered d now folder uid (Some uv) mid fp sz
  = (Return m,
     {| folders := folders d;
        messages := <[i := do_update mid fp sz now r]> (messages d);
        sqlite_sequence := sqlite_sequence d |})
  /\ Messages.status (do_update mid fp sz now r)
     = (if bool_decide (Messages.status r ∈ [skipped_filtered; failed])
        then discovered else Messages.status r).
Proof.
  intros Huniq Hi Hfolder Huid Huv Hm.
  assert (Hr : unique_conflict folder uid (Some uv) r = true).
  { apply unique_conflict_iff. rewrite Huv. simpl. rewrite Z.eqb_refl. auto. }
  assert (Hothers : forall j y, messages d !! j = Some y ->
                     unique_conflict folder uid (Some uv) y = true -> j = i).
  { intros j y Hj Hy. apply unique_conflict_iff in Hy as (Hf & Hu & Hv).
    apply (Huniq j i y r Hj Hi); [congruence | congruence |].
    rewrite Huv. exact Hv. }
  split.
  2:{ cbn. destruct (Messages.status r); vm_compute; reflexivity. }
  unfold upsert_message_discovered.
  assert (Hex : existsb (unique_conflict folder uid (Some uv)) (messages d) = true).
  { apply existsb_exists. exists r. split; [|exact Hr].
    apply list_elem_of_In, list_elem_of_lookup. eauto. }
  rewrite Hex. cbn [messages].
  assert (Hmap :
    map (fun row => if unique_conflict folder uid (Some uv) row
                    then do_update mid fp sz now row else row) (messages d)
    = <[i := do_update mid fp sz now r]> (messages d)).
  { apply list_eq. intros j. rewrite list_lookup_fmap.
    destruct (decide (i = j)) as [<-|Hne].
    - rewrite list_lookup_insert_eq by (eapply lookup_lt_Some; eauto).
      rewrite Hi. simpl. rewrite Hr. reflexivity.
    - rewrite list_lookup_insert_ne by exact Hne.
      destruct (messages d !! j) as [y|] eqn:Hj; [|reflexivity]. simpl.
      destruct (unique_conflict folder uid (Some uv) y) eqn:Hy; [|reflexivity].
      exfalso. apply Hne. symmetry. eauto. }
  rewrite Hmap.
  rewrite (find_the_only _ _ i (do_update mid fp sz now r)).
  - rewrite Hm. reflexivity.
  - apply list_lookup_insert_eq. eapply lookup_lt_Some; eauto.
  - rewrite unique_conflict_select. apply unique_conflict_iff.
    cbn. rewrite Huv. simpl. rewrite Z.eqb_refl. auto.
  - intros j y Hj Hy. destruct (decide (i = j)) as [<-|Hne]; [reflexivity|].
    rewrite list_lookup_insert_ne in Hj by exact Hne.
    rewrite unique_conflict_select in Hy. eauto.
Qed.

(** X24. A key no row holds yet gets a new row, in status discovered, which
    the call returns. *)
Lemma upsert_message_discovered_fresh (d : db) (now folder : pystr) (uid : Z)
    (uv : option Z) (mid : option pystr) (fp : pystr) (sz : option Z) (m : MessageRow.t) :
  let row := inserted_row (next_rowid d) now folder uid uv mid fp sz in
  (forall r, r ∈ messages d -> select_key folder uid uv r = false) ->
  _row_to_message row = Return m ->
  Messages.status row = discovered
  /\ upsert_message_discovered d now folder uid uv mid fp sz
     = (Return m,
        {| folders := folders d; messages := messages d ++ [row];
           sqlite_sequence := next_rowid d |}).
Proof.
  intros row Hnone Hm. split; [reflexivity|].
  unfold upsert_message_discovered.
  assert (Hex : existsb (unique_conflict folder uid uv) (messages d) = false).
  { apply not_true_is_false. intros Hex. apply existsb_exists in Hex as (r & Hin & Hr).
    apply list_elem_of_In in Hin. specialize (Hnone r Hin).
    apply unique_conflict_iff in Hr as (Hf & Hu & Hv).
    unfold select_key, sql_is in Hnone. unfold sql_eq in Hv.
    destruct (Messages.uidvalidity r) as [x|], uv as [y|]; try discriminate.
    apply Z.eqb_eq in Hv. subst.
    rewrite Z.eqb_refl, !bool_decide_eq_true_2 in Hnone by reflexivity. discriminate. }
  rewrite Hex. cbn [messages]. fold row.
  rewrite find_after_misses by exact Hnone.
  assert (Hsel : select_key folder uid uv row = true).
  { unfold select_key, sql_is. cbn.
    rewrite Z.eqb_refl, !bool_decide_eq_true_2 by reflexivity. reflexivity. }
  cbn [List.find]. rewrite Hsel, Hm. reflexivity.
Qed.

(** C3. With no UIDVALIDITY (NULL), the row that is there for (INBOX, 11)
    in status failed is neither refreshed nor reset: the upsert adds a second
    row for the same key and hands back the old one, still failed and with
    the old fingerprint. *)
Theorem upsert_message_discovered_null_uidvalidity :
  let '(res, d') :=
    upsert_message_discovered Examples.ledger Examples.later
      (ustr "INBOX") 11 None (Some (ustr "<a@b>")) (ustr "fp-new") (Some 42%Z) in
  (exists m, res = Return m
             /\ MessageRow.id m = 1%Z /\ MessageRow.status m = failed
             /\ MessageRow.fingerprint m = ustr "fp-old"
             /\ MessageRow.updated_at m = Messages.updated_at Examples.failed_row)
  /\ messages d' !! 0 = Some Examples.failed_row
  /\ (exists row, messages d' = [Examples.failed_row; row]
                  /\ Messages.id row = 2%Z /\ Messages.status row = discovered
                  /\ Messages.folder row = ustr "INBOX" /\ Messages.uid row = 11%Z
                  /\ Messages.uidvalidity row = None
                  /\ Messages.fingerprint row = ustr "fp-new").
Proof.
  vm_compute. split; [eexists; repeat split|]. split; [reflexivity|].
  eexists; repeat split.
Qed.

(** The same call under UIDVALIDITY 123 refreshes the one row and resets it. *)
Example upsert_message_discovered_known_uidvalidity :
  let '(res, d') :=
    upsert_message_discovered Examples.ledger_123 Examples.later
      (ustr "INBOX") 11 (Some 123%Z) (Some (ustr "<a@b>")) (ustr "fp-new") (Some 42%Z) in
  (exists m, res = Return m
             /\ MessageRow.id m = 1%Z /\ MessageRow.status m = discovered
             /\ MessageRow.fingerprint m = ustr "fp-new")
  /\ length (messages d') = 1.
Proof. vm_compute. split; [eexists; repeat split | reflexivity]. Qed.

End StateDbFacts.

(** ** The LIST response *)

Section ImapFacts.
Import Imap.

Lemma decode_mailbox_name_kept `{ImapLib} (raw : bytes) (name : pystr) :
  @_decode_mailbox_name Examples.cpython_imaplib raw = name ->
  decoder_keeps name ->
  _decode_mailbox_name raw = name.
Proof.
  unfold _decode_mailbox_name, decoder_keeps. cbn [DecodeUTF7 Examples.cpython_imaplib].
  destruct (bool_decide (bstrip raw = []) || bool_decide (map bupper (bstrip raw) = bstr "NIL"));
    [auto|].
  intros ->. destruct DecodeUTF7 as [decoder|]; [|reflexivity].
  intros [-> | ->]; reflexivity.
Qed.

(** One turn of the loop on a line whose name is on the line itself. *)
Lemma parse_lines_inline `{ImapLib} (l : bytes) (rest : list bytes) (out : list pystr)
    (caps : captures) (n : nat) (tok : bytes) (c : N) (name : pystr) :
  startswith (bstrip l) (bstr "+") = false ->
  re_match _LIST_MAILBOX_RE
    (if startswith (bstrip l) (bstr "(") then bstr "* LIST " ++ bstrip l else bstrip l)
  = Some (caps, n) ->
  pick_name_token (bstrip (default [] (group caps "name"))) = tok ->
  re_match _LITERAL_RE tok = None ->
  @_decode_mailbox_name Examples.cpython_imaplib tok = c :: name ->
  decoder_keeps (c :: name) ->
  parse_lines (l :: rest) out = parse_lines rest (out ++ [c :: name]).
Proof.
  intros Hplus Hre Htok Hlit Hname Hkeep. cbn [parse_lines].
  rewrite Hplus, Hre, Htok, Hlit.
  rewrite (decode_mailbox_name_kept tok (c :: name) Hname Hkeep). reflexivity.
Qed.

(** One turn of the loop on a line that announces a literal. *)
Lemma parse_lines_literal `{ImapLib} (l next : bytes) (rest : list bytes) (out : list pystr)
    (caps : captures) (n : nat) (tok : bytes) (m : captures * nat) (c : N) (name : pystr) :
  startswith (bstrip l) (bstr "+") = false ->
  re_match _LIST_MAILBOX_RE
    (if startswith (bstrip l) (bstr "(") then bstr "* LIST " ++ bstrip l else bstrip l)
  = Some (caps, n) ->
  pick_name_token (bstrip (default [] (group caps "name"))) = tok ->
  re_match _LITERAL_RE tok = Some m ->
  @_decode_mailbox_name Examples.cpython_imaplib (bstrip next) = c :: name ->
  decoder_keeps (c :: name) ->
  parse_lines (l :: next :: rest) out = parse_lines rest (out ++ [c :: name]).
Proof.
  intros Hplus Hre Htok Hlit Hname Hkeep. cbn [parse_lines].
  rewrite Hplus, Hre, Htok, Hlit.
  rewrite (decode_mailbox_name_kept (bstrip next) (c :: name) Hname Hkeep). reflexivity.
Qed.

Ltac list_line :=
  erewrite parse_lines_inline;
  [ | vm_compute; reflexivity | vm_compute; reflexivity | vm_compute; reflexivity
    | vm_compute; reflexivity | vm_compute; reflexivity | assumption ].

(** C6. On the four lines with quoted names, a NIL delimiter and an atom the
    parser returns INBOX, Sent Messages, Archive, the repeated INBOX dropped;
    on the two lines of a literal it returns Sent Messages.  The decoder of
    mailbox names, if the library has one, is only asked to leave these
    three names alone. *)
Theorem parse_list_response_scenarios `{ImapLib} :
  decoder_keeps (ustr "INBOX") ->
  decoder_keeps (ustr "Sent Messages") ->
  decoder_keeps (ustr "Archive") ->
  _parse_list_response Examples.list_lines
  = [ustr "INBOX"; ustr "Sent Messages"; ustr "Archive"]
  /\ _parse_list_response Examples.literal_lines = [ustr "Sent Messages"].
Proof.
  intros Hinbox Hsent Harchive.
  change (ustr "INBOX") with [73; 78; 66; 79; 88]%N in Hinbox.
  change (ustr "Sent Messages")
    with [83; 101; 110; 116; 32; 77; 101; 115; 115; 97; 103; 101; 115]%N in Hsent.
  change (ustr "Archive") with [65; 114; 99; 104; 105; 118; 101]%N in Harchive.
  unfold _parse_list_response, Examples.list_lines, Examples.literal_lines. split.
  - do 4 list_line. vm_compute. reflexivity.
  - erewrite parse_lines_literal;
      [ | vm_compute; reflexivity | vm_compute; reflexivity | vm_compute; reflexivity
        | vm_compute; reflexivity | vm_compute; reflexivity | assumption ].
    vm_compute. reflexivity.
Qed.

(** The scenarios on CPython's [imaplib], which has no decoder. *)
Lemma parse_list_response_scenarios_cpython :
  @_parse_list_response Examples.cpython_imaplib Examples.list_lines
  = [ustr "INBOX"; ustr "Sent Messages"; ustr "Archive"]
  /\ @_parse_list_response Examples.cpython_imaplib Examples.literal_lines
     = [ustr "Sent Messages"].
Proof.
  apply (@parse_list_response_scenarios Examples.cpython_imaplib); exact I.
Defined.

(** The same responses with their line endings, as the session reads them. *)
Example parse_list_response_crlf :
  @_parse_list_response Examples.cpython_imaplib (Examples.crlf Examples.list_lines)
  = [ustr "INBOX"; ustr "Sent Messages"; ustr "Archive"]
  /\ @_parse_list_response Examples.cpython_imaplib (Examples.crlf Examples.literal_lines)
     = [ustr "Sent Messages"].
Proof. vm_compute. split; reflexivity. Qed.

End ImapFacts.

(** ** The address filter *)

Section AddressFilterFacts.
Context `{Unicode} `{Email.EmailLib}.
Import Email.

Lemma intersects_true (a b : gset pystr) : intersects a b = true <-> a ∩ b <> ∅.
Proof. unfold intersects. apply bool_decide_eq_true. Qed.

(** Every extracted address is the trimmed, lowercased address part of a
    pair [getaddresses] found in the header. *)
Lemma extract_email_addresses_lowercased (value : option pystr) (a : pystr) :
  a ∈ extract_email_addresses value ->
  exists v name addr,
    value = Some v /\ (name, addr) ∈ getaddresses v /\ a = lower (strip addr).
Proof.
  unfold extract_email_addresses. destruct value as [[|c v]|]; try set_solver.
  rewrite elem_of_list_to_set, list_elem_of_omap. intros ([name addr] & Hin & Hsome).
  exists (c :: v), name, addr. split; [reflexivity|]. split; [exact Hin|].
  destruct addr as [|x addr]; [discriminate|].
  destruct (strip (x :: addr)); [discriminate|]. congruence.
Qed.

(** C5. The filter accepts exactly when the target set is empty, or the
    sender is enabled and an address of From is a target, or the recipients
    are enabled and an address of To, Cc, Bcc, Delivered-To, X-Original-To or
    Envelope-To is a target; so with targets and both flags off it accepts
    nothing. *)
Theorem address_filter_matches (self : AddressFilter) (headers : MinimalHeaders) :
  let targets := target_addresses self in
  let recipients :=
    extract_email_addresses (to headers) ∪ extract_email_addresses (cc headers)
    ∪ extract_email_addresses (bcc headers) ∪ extract_email_addresses (delivered_to headers)
    ∪ extract_email_addresses (x_original_to headers)
    ∪ extract_email_addresses (envelope_to headers) in
  (matches self headers = true <->
     targets = ∅
     \/ (include_sender self = true
         /\ extract_email_addresses (from_ headers) ∩ targets <> ∅)
     \/ (include_recipients self = true /\ recipients ∩ targets <> ∅))
  /\ (targets <> ∅ -> include_sender self = false -> include_recipients self = false ->
      matches self headers = false).
Proof.
  intros targets recipients. unfold matches. fold targets.
  assert (Hcand :
    ∅ ∪ extract_email_addresses (to headers) ∪ extract_email_addresses (cc headers)
    ∪ extract_email_addresses (bcc headers) ∪ extract_email_addresses (delivered_to headers)
    ∪ extract_email_addresses (x_original_to headers)
    ∪ extract_email_addresses (envelope_to headers) = recipients).
  { unfold recipients. rewrite (left_id_L ∅ (∪)). reflexivity. }
  cbv zeta. rewrite Hcand. split.
  - destruct (bool_decide (targets = ∅)) eqn:Hempty.
    { apply bool_decide_eq_true in Hempty. tauto. }
    apply bool_decide_eq_false in Hempty.
    destruct (include_sender self), (include_recipients self); simpl;
      repeat match goal with
             | |- context [intersects ?a ?b] =>
                 let E := fresh "E" in
                 destruct (intersects a b) eqn:E;
                 [apply intersects_true in E
                 |apply not_true_iff_false in E; rewrite intersects_true in E]
             end; simpl;
      (split;
       [ intros Ht; first [discriminate Ht | tauto]
       | intros Hd;
         first [ reflexivity
               | exfalso; destruct Hd as [?|[[? ?]|[? ?]]];
                 first [contradiction | discriminate] ] ]).
  - intros Hne -> ->. rewrite bool_decide_eq_false_2 by exact Hne. reflexivity.
Qed.

End AddressFilterFacts.

(** With its one target and both flags off, the filter turns down a message
    sent to that very address. *)
Lemma address_filter_matches_witness :
  @Email.matches Examples.ascii_unicode Examples.plain_email
    Examples.both_off Examples.to_andrew = false.
Proof.
  apply (@address_filter_matches Examples.ascii_unicode Examples.plain_email
           Examples.both_off Examples.to_andrew).
  - vm_compute. discriminate.
  - reflexivity.
  - reflexivity.
Defined.

(** ** The fingerprint *)

Section FingerprintFacts.
Context `{Unicode} `{Email.EmailLib} `{Fingerprint.Hashlib}.
Import Email Fingerprint Claims.

Ltac byte_cases :=
  repeat match goal with
         | |- context [Byte.eqb ?x ?y] =>
             let E := fresh "E" in destruct (Byte.eqb x y) eqn:E
         end;
  try reflexivity;
  repeat match goal with
         | E : Byte.eqb _ _ = true |- _ => apply Byte.byte_dec_bl in E
         end;
  unfold CR, LF in *; try congruence.

(** The pattern [\r?\n\r?\n] at the head of [s] is two line ends. *)
Lemma re_match_header_body_split (s : bytes) :
  re_match _HEADER_BODY_SPLIT_RE s
  = match after_blank_line s with
    | Some rest => Some ([], length s - length rest)
    | None => None
    end.
Proof.
  unfold re_match, _HEADER_BODY_SPLIT_RE, Opt, after_blank_line, eat_line_end, eat.
  destruct s as [|a [|b [|c [|d s]]]]; cbn -[Byte.eqb]; byte_cases.
Qed.

Lemma after_blank_line_suffix (s rest : bytes) :
  after_blank_line s = Some rest -> drop (length s - length rest) s = rest.
Proof.
  unfold after_blank_line, eat_line_end, eat.
  destruct s as [|a [|b [|c [|d s]]]]; cbn -[Byte.eqb drop];
    repeat match goal with
           | |- context [Byte.eqb ?x ?y] => destruct (Byte.eqb x y)
           end;
    intros Hrest; try discriminate Hrest;
    injection Hrest as <-; cbn [length];
    repeat match goal with
           | |- context [(?a - ?b)%nat] =>
               first [ replace (a - b)%nat with 2%nat by lia
                     | replace (a - b)%nat with 3%nat by lia
                     | replace (a - b)%nat with 4%nat by lia ]
           end;
    reflexivity.
Qed.

(** The search of the pattern finds the first blank line. *)
Lemma re_search_from_header_body_split (s : bytes) (pos : nat) :
  (re_search_from _HEADER_BODY_SPLIT_RE pos s = None /\ body_after_split s = None)
  \/ exists a n,
       re_search_from _HEADER_BODY_SPLIT_RE pos s = Some (pos + a, pos + n)
       /\ body_after_split s = Some (drop n s).
Proof.
  revert pos. induction s as [|x s IH]; intros pos.
  - left. split; reflexivity.
  - cbn [re_search_from body_after_split]. rewrite re_match_header_body_split.
    destruct (after_blank_line (x :: s)) as [rest|] eqn:Hhead.
    + right. exists 0, (length (x :: s) - length rest). split.
      * f_equal. f_equal. lia.
      * f_equal. symmetry. apply after_blank_line_suffix, Hhead.
    + destruct (IH (S pos)) as [[Hnone Hbody] | (a & n & Hsome & Hbody)].
      * left. split; assumption.
      * right. exists (S a), (S n). split.
        -- rewrite Hsome. f_equal. f_equal; lia.
        -- rewrite Hbody. reflexivity.
Qed.

(** [body_prefix] is the first [max_bytes] bytes of what follows the first
    blank line, of the message itself when it has none. *)
Lemma body_prefix_reference (raw : bytes) (max_bytes : Z) :
  (0 <= max_bytes)%Z ->
  body_prefix raw max_bytes = take (Z.to_nat max_bytes) (default raw (body_after_split raw)).
Proof.
  intros Hn. unfold body_prefix. destruct (Z.leb_spec max_bytes 0) as [Hle|Hgt].
  - replace max_bytes with 0%Z by lia. reflexivity.
  - unfold re_search.
    destruct (re_search_from_header_body_split raw 0)
      as [[-> ->] | (a & n & -> & ->)]; reflexivity.
Qed.

Lemma or_str_default (o : option pystr) : or_str o [] = default [] o.
Proof. destruct o as [[|c s]|]; reflexivity. Qed.

Lemma parsed_date_nonempty (raw : bytes) (iso : pystr) :
  date_dt_iso (parse_minimal_headers raw) = Some iso -> iso <> [].
Proof.
  cbn. destruct (header_get raw _) as [[|c d]|]; try discriminate.
  apply parsedate_iso_nonempty.
Qed.

(** C4. For every message and every prefix length [n >= 0] the fingerprint
    the code computes is the reference one: the SHA-256 hex digest of the
    newline-joined fields (ISO date if parseable, else the raw Date, else
    empty; From; To; Subject; the decimal length of the message), one
    newline, and the first [n] bytes of the body, the body being what
    follows the first blank line (the message itself when it has none).
    The reference is a function of the message and [n] alone, so two calls
    on the same pair give the same digest. *)
Theorem compute_fingerprint_reference (raw : bytes) (n : Z) :
  (0 <= n)%Z ->
  fingerprint (compute_fingerprint raw n) = fingerprint_reference raw (Z.to_nat n).
Proof.
  intros Hn.
  unfold compute_fingerprint, fingerprint_reference, fingerprint_fields, sha256_hex.
  cbn [fingerprint]. rewrite body_prefix_reference by exact Hn.
  rewrite !or_str_default.
  destruct (date_dt_iso (parse_minimal_headers raw)) as [iso|] eqn:Hiso.
  - apply parsed_date_nonempty in Hiso. destruct iso; [contradiction|reflexivity].
  - reflexivity.
Qed.

End FingerprintFacts.

(** The reference fingerprint of a small message, 16 bytes of body asked for. *)
Lemma compute_fingerprint_reference_witness :
  Fingerprint.fingerprint
    (@Fingerprint.compute_fingerprint Examples.ascii_unicode Examples.plain_email
       Examples.transparent_hash Examples.small_message 16)
  = @Claims.fingerprint_reference Examples.ascii_unicode Examples.plain_email
      Examples.transparent_hash Examples.small_message 16.
Proof.
  apply (@compute_fingerprint_reference Examples.ascii_unicode Examples.plain_email
           Examples.transparent_hash Examples.small_message 16).
  lia.
Defined.

(** ** The normalised Message-ID *)

Section MessageIdFacts.
Context `{Unicode}.
Import Email Claims.

Lemma drop_while_idem {A} (f : A -> bool) (s : list A) :
  drop_while f (drop_while f s) = drop_while f s.
Proof.
  induction s as [|c s IH]; [reflexivity|]. simpl.
  destruct (f c) eqn:Hc; [exact IH|]. simpl. rewrite Hc. reflexivity.
Qed.

(** What [strip] returns has nothing left to strip. *)
Lemma strip_by_idem {A} (f : A -> bool) (s : list A) :
  strip_by f (strip_by f s) = strip_by f s.
Proof.
  unfold strip_by, rstrip_by, lstrip_by.
  set (a := drop_while f s). set (b := drop_while f (rev a)).
  assert (Hleft : drop_while f (rev b) = rev b).
  { destruct a as [|c a'] eqn:Ha; [reflexivity|].
    assert (Hc : f c = false) by (apply (drop_while_head f s c a'), Ha).
    assert (Hb : exists b', b = b' ++ [c]).
    { unfold b. cbn [rev]. rewrite drop_while_app.
      destruct (forallb f (rev a')).
      - exists []. simpl. rewrite Hc. reflexivity.
      - eexists. reflexivity. }
    destruct Hb as [b' ->]. rewrite rev_app_distr. simpl. rewrite Hc. reflexivity. }
  rewrite Hleft, rev_involutive. unfold b. rewrite drop_while_idem. reflexivity.
Qed.

(** [v.split(" ", 1)[0]] is [v] up to its first space. *)
Lemma split_first_until (c : N) (s : pystr) : split_first s [c] = until (N.eqb c) s.
Proof.
  unfold split_first. induction s as [|x s IH]; [reflexivity|].
  cbn [find startswith until]. rewrite andb_true_r.
  destruct (N.eqb_spec c x) as [->|Hne].
  - rewrite bool_decide_eq_true_2 by reflexivity. reflexivity.
  - rewrite bool_decide_eq_false_2 by exact Hne.
    destruct (find s [c]) as [i|]; simpl; f_equal; exact IH.
Qed.

Lemma contains_until (c : N) (s : pystr) :
  contains s [c] = false -> until (N.eqb c) s = s.
Proof.
  unfold contains. induction s as [|x s IH]; [reflexivity|].
  cbn [find startswith until]. rewrite andb_true_r.
  destruct (N.eqb_spec c x) as [->|Hne].
  - rewrite bool_decide_eq_true_2 by reflexivity. discriminate.
  - rewrite bool_decide_eq_false_2 by exact Hne.
    destruct (find s [c]) as [i|] eqn:Hfind; simpl; [discriminate|].
    intros _. f_equal. apply IH. reflexivity.
Qed.

(** The bracket test and the slice [v[1:-1]] of the code take the enclosing
    pair off. *)
Lemma unbracket_slice (v : pystr) :
  (if startswith v [LT] && endswith v [GT] then take (length v - 2) (drop 1 v) else v)
  = unbracket v.
Proof.
  unfold endswith, unbracket, LT, GT. destruct v as [|c rest]; [reflexivity|].
  cbn [startswith rev]. rewrite andb_true_r.
  destruct (rev rest) as [|d inner] eqn:Hrev.
  - cbn [app startswith]. rewrite andb_true_r.
    destruct (N.eqb_spec 60 c) as [<-|Hc].
    + rewrite bool_decide_eq_true_2 by reflexivity.
      rewrite bool_decide_eq_false_2 by discriminate. reflexivity.
    + rewrite (bool_decide_eq_false_2 (60%N = c)) by exact Hc. reflexivity.
  - cbn [app startswith]. rewrite andb_true_r.
    assert (Hrest : rest = rev inner ++ [d]).
    { rewrite <- (rev_involutive rest), Hrev. reflexivity. }
    rewrite (N.eqb_sym c), (N.eqb_sym d).
    destruct (N.eqb_spec 60 c) as [<-|Hc], (N.eqb_spec 62 d) as [<-|Hd];
      rewrite ?(bool_decide_eq_true_2 (60%N = 60%N)) by reflexivity;
      rewrite ?(bool_decide_eq_true_2 (62%N = 62%N)) by reflexivity;
      rewrite ?(bool_decide_eq_false_2 (60%N = c)) by assumption;
      rewrite ?(bool_decide_eq_false_2 (62%N = d)) by assumption;
      cbn [andb]; try reflexivity.
    rewrite Hrest. cbn [drop length]. rewrite length_app. cbn [length].
    replace (S (length (rev inner) + 1) - 2) with (length (rev inner)) by lia.
    apply take_app_length.
Qed.

(** C7, as amended.  The normaliser returns absent for absent, empty or
    blank input and when nothing but whitespace is enclosed in the brackets;
    otherwise it trims the value, truncates it at the first space character,
    trims, takes one enclosing pair of angle brackets off, trims, lowercases
    and re-wraps in angle brackets.  The three examples: " <ABC@EXAMPLE.COM> "
    gives "<abc@example.com>", "<a@b> extra" gives "<a@b>", "" gives absent. *)
Theorem normalize_message_id_spec (value : option pystr) :
  normalize_message_id value = normalize_message_id_amended value
  /\ normalize_message_id (Some (ustr " <ABC@EXAMPLE.COM> ")) = Some (ustr "<abc@example.com>")
  /\ normalize_message_id (Some (ustr "<a@b> extra")) = Some (ustr "<a@b>")
  /\ normalize_message_id (Some (ustr "")) = None
  /\ normalize_message_id None = None.
Proof.
  split; [|repeat split; reflexivity].
  unfold normalize_message_id, normalize_message_id_amended.
  destruct value as [value|]; [|reflexivity].
  destruct (strip value) as [|c v] eqn:Hv; [reflexivity|].
  assert (Htrunc :
    (if contains (c :: v) [SP] then strip (split_first (c :: v) [SP]) else c :: v)
    = strip (until (N.eqb 32) (c :: v))).
  { destruct (contains (c :: v) [SP]) eqn:Hsp.
    - rewrite split_first_until. reflexivity.
    - rewrite (contains_until 32 _ Hsp), <- Hv. unfold strip. rewrite strip_by_idem.
      reflexivity. }
  rewrite Htrunc. set (w := strip (until (N.eqb 32) (c :: v))).
  assert (Hw : strip w = w) by (unfold w, strip; apply strip_by_idem).
  pose proof (unbracket_slice w) as Hslice.
  destruct (startswith w [LT] && endswith w [GT]).
  - rewrite Hslice. destruct (strip (unbracket w)); reflexivity.
  - rewrite <- Hslice, Hw. destruct w; reflexivity.
Qed.

End MessageIdFacts.

(** C7, as stated, fails in two ways: a tab is whitespace but does not
    truncate, and brackets around nothing give absent, not "<>".  (The
    inputs are ASCII, so the Unicode database is never asked.) *)
Lemma normalize_message_id_not_as_claimed :
  (@Email.normalize_message_id Examples.ascii_unicode
     (Some (ustr "<a@b>" ++ [9%N] ++ ustr "x"))
   = Some (ustr "<<a@b>" ++ [9%N] ++ ustr "x>")
   /\ @Claims.normalize_message_id_claimed Examples.ascii_unicode
        (Some (ustr "<a@b>" ++ [9%N] ++ ustr "x"))
      = Some (ustr "<a@b>"))
  /\ (@Email.normalize_message_id Examples.ascii_unicode (Some (ustr "<>")) = None
      /\ @Claims.normalize_message_id_claimed Examples.ascii_unicode (Some (ustr "<>"))
         = Some (ustr "<>")).
Proof. repeat split; reflexivity. Qed.


(** ** The folder name of an evidence path *)

Section SafeFolderFacts.
Import EmlStore Claims.

Lemma replace_char_one (old new : N) (s : pystr) :
  replace_char old [new] s = map (fun c => if bool_decide (c = old) then new else c) s.
Proof.
  unfold replace_char. induction s as [|c s IH]; [reflexivity|].
  simpl. rewrite IH. destruct (bool_decide (c = old)); reflexivity.
Qed.

(** Whitespace is outside the safe characters, and no separator. *)
Lemma isspace_unsafe (c : N) :
  isspace c = true -> (c =? 47)%N = false /\ safe_char c = false.
Proof.
  unfold isspace, safe_char. intros Hc.
  repeat rewrite ?orb_true_iff, ?andb_true_iff, ?N.leb_le, ?N.eqb_eq in Hc.
  split.
  - apply N.eqb_neq. lia.
  - apply not_true_is_false. intros Hsafe.
    repeat rewrite ?orb_true_iff, ?andb_true_iff, ?N.leb_le, ?N.eqb_eq in Hsafe. lia.
Qed.

(** The two [replace] calls and the [sub] of the code, character by character. *)
Lemma sanitized_collapse (in_run : bool) (s : pystr) :
  sub_runs (fun c => negb (safe_char c)) (ustr "_") in_run
    (replace_char 47%N (ustr "_") (replace_char os_sep (ustr "_") s))
  = collapse_unsafe in_run s.
Proof.
  change (ustr "_") with [95%N]. unfold os_sep. rewrite !replace_char_one, map_map.
  rewrite (map_ext _ (fun c => if (c =? 47)%N then 95%N else c)).
  2:{ intros c. destruct (N.eqb_spec c 47) as [->|Hc].
      - rewrite (bool_decide_eq_true_2 (47%N = 47%N)) by reflexivity.
        rewrite bool_decide_eq_false_2 by discriminate. reflexivity.
      - rewrite (bool_decide_eq_false_2 (c = 47%N)) by exact Hc.
        rewrite (bool_decide_eq_false_2 (c = 47%N)) by exact Hc. reflexivity. }
  revert in_run. induction s as [|c s IH]; intros in_run; [reflexivity|].
  cbn [map sub_runs collapse_unsafe].
  destruct (c =? 47)%N.
  - change (safe_char 95) with true. cbn [negb]. rewrite IH. reflexivity.
  - destruct (safe_char c); cbn [negb]; [rewrite IH; reflexivity|].
    destruct in_run; cbn [app]; rewrite IH; reflexivity.
Qed.

Lemma trimmed_underscore : trimmed_char 95 = true.
Proof. reflexivity. Qed.

(** Whether a run was under way does not matter once the ends are trimmed. *)
Lemma collapse_unsafe_lstrip (b b' : bool) (s : pystr) :
  drop_while trimmed_char (collapse_unsafe b s)
  = drop_while trimmed_char (collapse_unsafe b' s).
Proof.
  destruct s as [|c s]; [reflexivity|]. cbn [collapse_unsafe].
  destruct (c =? 47)%N; [reflexivity|]. destruct (safe_char c); [reflexivity|].
  destruct b, b'; cbn [drop_while]; rewrite ?trimmed_underscore; reflexivity.
Qed.

(** Leading whitespace leaves nothing after the trim. *)
Lemma collapse_unsafe_leading (b b' : bool) (w s : pystr) :
  Forall (fun c => isspace c = true) w ->
  drop_while trimmed_char (collapse_unsafe b (w ++ s))
  = drop_while trimmed_char (collapse_unsafe b' s).
Proof.
  intros Hw. revert b. induction Hw as [|c w Hc _ IH]; intros b.
  - apply collapse_unsafe_lstrip.
  - cbn [app collapse_unsafe]. destruct (isspace_unsafe c Hc) as [-> ->].
    destruct b; cbn [drop_while]; rewrite ?trimmed_underscore; apply IH.
Qed.

(** Trailing whitespace adds at most underscores. *)
Lemma collapse_unsafe_trailing (b : bool) (s w : pystr) :
  Forall (fun c => isspace c = true) w ->
  exists tail, collapse_unsafe b (s ++ w) = collapse_unsafe b s ++ tail
               /\ Forall (fun c => trimmed_char c = true) tail.
Proof.
  intros Hw. revert b. induction s as [|c s IH]; intros b.
  - cbn [app collapse_unsafe]. exists (collapse_unsafe b w). split; [reflexivity|].
    revert b. induction Hw as [|c w Hc _ IHw]; intros b; [constructor|].
    cbn [collapse_unsafe]. destruct (isspace_unsafe c Hc) as [-> ->].
    destruct b; [apply IHw | constructor; [reflexivity | apply IHw]].
  - cbn [app collapse_unsafe].
    destruct (c =? 47)%N; [|destruct (safe_char c); [|destruct b]].
    + destruct (IH false) as (tail & -> & Htail). exists tail. auto.
    + destruct (IH false) as (tail & -> & Htail). exists tail. auto.
    + destruct (IH true) as (tail & -> & Htail). exists tail. auto.
    + destruct (IH true) as (tail & -> & Htail). exists tail. auto.
Qed.

(** The first [strip()] of the code changes nothing in the end. *)
Lemma strip_then_collapse (folder : pystr) :
  strip_by trimmed_char (collapse_unsafe false (strip folder))
  = strip_by trimmed_char (collapse_unsafe false folder).
Proof.
  destruct (strip_by_split isspace folder) as (l & r & Hfolder & Hl & Hr).
  fold (strip folder) in Hfolder. rewrite Hfolder at 2.
  destruct (collapse_unsafe_trailing false (strip folder) r Hr) as (tail & Htail & Hall).
  unfold strip_by at 2. unfold lstrip_by.
  rewrite (collapse_unsafe_leading false false l _ Hl), Htail.
  fold (lstrip_by trimmed_char (collapse_unsafe false (strip folder) ++ tail)).
  fold (strip_by trimmed_char (collapse_unsafe false (strip folder) ++ tail)).
  rewrite strip_by_app_all by exact Hall. reflexivity.
Qed.

Lemma collapse_unsafe_safe (b : bool) (s : pystr) :
  Forall (fun c => safe_char c = true) (collapse_unsafe b s).
Proof.
  revert b. induction s as [|c s IH]; intros b; [constructor|].
  cbn [collapse_unsafe]. destruct (c =? 47)%N; [constructor; [reflexivity|apply IH]|].
  destruct (safe_char c) eqn:Hc; [constructor; [exact Hc|apply IH]|].
  destruct b; [apply IH | constructor; [reflexivity|apply IH]].
Qed.

Lemma drop_while_Forall {A} (P : A -> Prop) (f : A -> bool) (s : list A) :
  Forall P s -> Forall P (drop_while f s).
Proof.
  induction 1 as [|c s Hc Hs IH]; [constructor|]. simpl.
  destruct (f c); [exact IH | constructor; assumption].
Qed.

Lemma strip_by_Forall {A} (P : A -> Prop) (f : A -> bool) (s : list A) :
  Forall P s -> Forall P (strip_by f s).
Proof.
  intros Hs. unfold strip_by, rstrip_by, lstrip_by.
  apply Forall_rev, drop_while_Forall, Forall_rev, drop_while_Forall, Hs.
Qed.

(** C8, as amended.  For every folder name the sanitizer replaces each path
    separator by one '_' and each maximal run of other characters outside
    [A-Za-z0-9._-] by one '_', trims '.', '_' and '-' from both ends, and
    gives "folder" when nothing is left; the name it returns is never empty
    and has safe characters only. *)
Theorem safe_folder_name_per_run (folder : pystr) :
  _safe_folder_name folder = safe_folder_per_run folder
  /\ _safe_folder_name folder <> []
  /\ Forall (fun c => safe_char c = true) (_safe_folder_name folder).
Proof.
  assert (Heq : _safe_folder_name folder = safe_folder_per_run folder).
  { unfold _safe_folder_name, safe_folder_per_run, _FOLDER_SAFE_RE.
    rewrite re_sub_plus_chr, sanitized_collapse.
    change (fun c : N => bool_decide (c ∈ ustr "._-")) with trimmed_char.
    rewrite strip_then_collapse.
    destruct (strip_by trimmed_char (collapse_unsafe false folder)); reflexivity. }
  split; [exact Heq|]. rewrite Heq. unfold safe_folder_per_run.
  pose proof (strip_by_Forall _ trimmed_char _ (collapse_unsafe_safe false folder)) as Hsafe.
  destruct (strip_by trimmed_char (collapse_unsafe false folder)) as [|c name].
  - split; [discriminate|]. repeat constructor.
  - split; [discriminate | exact Hsafe].
Qed.

(** C8, as stated, fails on two spaces in a row: the code writes one
    underscore for the run, the claim one per character. *)
Lemma safe_folder_name_not_per_character :
  _safe_folder_name (ustr "a  b") = ustr "a_b"
  /\ safe_folder_per_character (ustr "a  b") = ustr "a__b"
  /\ _safe_folder_name (ustr "a  b") <> safe_folder_per_character (ustr "a  b").
Proof. split; [|split]; [vm_compute; reflexivity .. | vm_compute; discriminate]. Qed.

End SafeFolderFacts.

(** ** The evidence store *)

Section EmlStoreFacts.
Context `{Fingerprint.Hashlib}.
Import Fingerprint EmlStore.

Lemma fold_left_update (chunks : list bytes) (hasher : bytes) :
  fold_left (fun hasher chunk => hasher ++ chunk) chunks hasher = hasher ++ concat chunks.
Proof.
  revert hasher. induction chunks as [|chunk chunks IH]; intros hasher; simpl.
  - rewrite app_nil_r. reflexivity.
  - rewrite IH, app_assoc. reflexivity.
Qed.

(** Reading a file chunk by chunk reads all of it. *)
Lemma read_chunks_all (fuel chunk_size : nat) (content : bytes) :
  0 < chunk_size -> length content < fuel ->
  concat (read_chunks fuel chunk_size content) = content.
Proof.
  intros Hsize. revert content.
  induction fuel as [|fuel IH]; intros content Hfuel; [lia|].
  cbn [read_chunks]. destruct content as [|c content]; [destruct chunk_size; reflexivity|].
  destruct chunk_size as [|size]; [lia|]. cbn [take].
  change (concat ((c :: take size content) :: ?l)) with ((c :: take size content) ++ concat l).
  rewrite IH.
  - change (drop (S size) (c :: content)) with (drop size content).
    simpl. rewrite take_drop. reflexivity.
  - cbn [drop]. rewrite length_drop. simpl in Hfuel. lia.
Qed.

(** Hashing a file in chunks gives the hash of its bytes. *)
Lemma sha256_file_hex_content (content : bytes) :
  sha256_file_hex content = sha256_hex content.
Proof.
  unfold sha256_file_hex, sha256_file_hex_chunked, sha256_hex.
  rewrite fold_left_update, read_chunks_all; [reflexivity | lia | lia].
Qed.

(** In a file system every ancestor of what exists is a directory. *)
Lemma ancestors_are_dirs (fs : filesystem) (p q : Path) (n : node) :
  parent_is_dir fs -> fs !! (p ++ q) = Some n -> p <> [] -> q <> [] ->
  fs !! p = Some Dir.
Proof.
  intros Hfs. revert n. induction q as [|c q IH] using rev_ind; intros n Hn Hp Hq.
  - contradiction.
  - rewrite app_assoc in Hn.
    assert (Hne : p ++ q <> []) by (destruct p; [contradiction|discriminate]).
    pose proof (Hfs _ _ _ Hn Hne) as Hd. clear Hn. rename Hd into Hn.
    destruct q as [|c' q].
    + rewrite app_nil_r in Hn. exact Hn.
    + apply (IH Dir Hn Hp). discriminate.
Qed.

(** Nothing is made where every directory is there already. *)
Lemma mkdir_from_present (fs : filesystem) (parent : Path) (rest : list pystr) :
  (forall k, 0 < k <= length rest -> fs !! (parent ++ take k rest) = Some Dir) ->
  mkdir_from fs parent rest = Return fs.
Proof.
  revert parent. induction rest as [|c rest IH]; intros parent Hdirs; [reflexivity|].
  cbn [mkdir_from].
  pose proof (Hdirs 1 ltac:(simpl; lia)) as Hfirst.
  cbn in Hfirst. rewrite take_0 in Hfirst. rewrite Hfirst.
  apply IH. intros k Hk. rewrite <- app_assoc. apply (Hdirs (S k)). simpl. lia.
Qed.

Lemma mkdir_from_keeps_dirs (fs fs' : filesystem) (parent : Path) (rest : list pystr) (q : Path) :
  mkdir_from fs parent rest = Return fs' -> fs !! q = Some Dir -> fs' !! q = Some Dir.
Proof.
  revert fs parent. induction rest as [|c rest IH]; intros fs parent Hmk Hq.
  - injection Hmk as <-. exact Hq.
  - cbn [mkdir_from] in Hmk. destruct (fs !! (parent ++ [c])) as [[f|]|] eqn:Hp.
    + discriminate.
    + eapply IH; eauto.
    + eapply IH; [exact Hmk|].
      destruct (decide (parent ++ [c] = q)) as [<-|Hne].
      * apply lookup_insert_eq.
      * rewrite lookup_insert_ne by exact Hne. exact Hq.
Qed.

(** After a successful [mkdir] every directory on the way is there. *)
Lemma mkdir_from_makes_dirs (fs fs' : filesystem) (parent : Path) (rest : list pystr) :
  mkdir_from fs parent rest = Return fs' ->
  forall k, 0 < k <= length rest -> fs' !! (parent ++ take k rest) = Some Dir.
Proof.
  revert fs parent. induction rest as [|c rest IH]; intros fs parent Hmk k Hk.
  - simpl in Hk. lia.
  - cbn [mkdir_from] in Hmk.
    assert (Hstep : exists fs1, fs1 !! (parent ++ [c]) = Some Dir
                                /\ mkdir_from fs1 (parent ++ [c]) rest = Return fs').
    { destruct (fs !! (parent ++ [c])) as [[f|]|] eqn:Hp.
      - discriminate.
      - exists fs. auto.
      - eexists. split; [apply lookup_insert_eq | exact Hmk]. }
    destruct Hstep as (fs1 & Hdir & Hrest).
    destruct k as [|k]; [lia|]. cbn [take].
    destruct k as [|k].
    + rewrite take_0. eapply mkdir_from_keeps_dirs; eauto.
    + change (parent ++ c :: take (S k) rest) with (parent ++ [c] ++ take (S k) rest).
      rewrite app_assoc. eapply IH; [exact Hrest|]. simpl in Hk. lia.
Qed.

(** Other paths stay as they are, or become directories. *)
Lemma mkdir_from_elsewhere (fs fs' : filesystem) (parent : Path) (rest : list pystr) (q : Path) :
  mkdir_from fs parent rest = Return fs' ->
  (forall k, k <= length rest -> q <> parent ++ take k rest) ->
  fs' !! q = fs !! q.
Proof.
  revert fs parent. induction rest as [|c rest IH]; intros fs parent Hmk Hq.
  - injection Hmk as <-. reflexivity.
  - cbn [mkdir_from] in Hmk.
    assert (Hrest : forall k, k <= length rest -> q <> (parent ++ [c]) ++ take k rest).
    { intros k Hk. rewrite <- app_assoc. apply (Hq (S k)). simpl. lia. }
    destruct (fs !! (parent ++ [c])) as [[f|]|] eqn:Hp.
    + discriminate.
    + eapply IH; eauto.
    + erewrite IH; [|exact Hmk|exact Hrest].
      apply lookup_insert_ne. intros Heq. apply (Hq 1); [simpl; lia|].
      cbn. rewrite take_0. symmetry. exact Heq.
Qed.

Lemma mkdir_parents_above (fs : filesystem) (d q : Path) (n : node) :
  parent_is_dir fs -> fs !! (d ++ q) = Some n -> q <> [] ->
  mkdir_parents fs d = Return fs.
Proof.
  intros Hfs Hn Hq. apply mkdir_from_present. intros k Hk. cbn [app].
  apply (ancestors_are_dirs fs (take k d) (drop k d ++ q) n Hfs).
  - rewrite app_assoc, take_drop. exact Hn.
  - destruct d, k; simpl in *; try lia; discriminate.
  - destruct (drop k d); [exact Hq | discriminate].
Qed.

(** What a call finds when the directories and the evidence are in place. *)
Lemma write_immutable_on_existing (evidence_dir : Path) (tmp_candidates : list pystr)
    (fs : filesystem) (folder : pystr) (uidvalidity : option Z) (uid : Z)
    (raw : bytes) (f : file) :
  let folder_dir := evidence_dir ++ [_safe_folder_name folder] in
  let target := target_path evidence_dir folder uidvalidity uid in
  mkdir_parents fs evidence_dir = Return fs ->
  mkdir_parents fs folder_dir = Return fs ->
  fs !! target = Some (File f) ->
  write_immutable evidence_dir tmp_candidates fs folder uidvalidity uid raw
  = if bool_decide (sha256_hex (content f) <> sha256_hex raw)
    then (Raise (ValueError (ustr "Evidence file already exists but differs: "
                               ++ path_str target)), fs)
    else (Return {| path := target; sha256 := sha256_hex (content f);
                    size_bytes := Z.of_nat (length (content f)) |}, fs).
Proof.
  intros folder_dir target Hmk1 Hmk2 Hf. unfold write_immutable.
  rewrite Hmk1. fold folder_dir. rewrite Hmk2. cbv zeta.
  change (folder_dir ++ [evidence_name uidvalidity uid]) with target.
  rewrite Hf, sha256_file_hex_content. reflexivity.
Qed.

Lemma mkstemp_inv (fs fs' : filesystem) (dir p : Path) (prefix suffix : pystr)
    (candidates : list pystr) :
  mkstemp fs dir prefix suffix candidates = Return (p, fs') ->
  (exists rnd, p = dir ++ [prefix ++ rnd ++ suffix])
  /\ fs !! p = None
  /\ fs' = <[p := File {| content := []; mode := 384 |}]> fs.
Proof.
  induction candidates as [|rnd more IH]; [discriminate|].
  cbn [mkstemp]. destruct (fs !! (dir ++ [prefix ++ rnd ++ suffix])) eqn:Hp; [exact IH|].
  intros Heq. injection Heq as <- <-. eauto.
Qed.

(** What a successful call leaves behind: the directories, and at the target
    a file with the hash of the bytes written, which the result describes. *)
Lemma write_immutable_success (evidence_dir : Path) (tmp_candidates : list pystr)
    (fs fs1 : filesystem) (folder : pystr) (uidvalidity : option Z) (uid : Z)
    (raw : bytes) (r : EmlWriteResult) :
  let folder_dir := evidence_dir ++ [_safe_folder_name folder] in
  let target := target_path evidence_dir folder uidvalidity uid in
  write_immutable evidence_dir tmp_candidates fs folder uidvalidity uid raw
  = (Return r, fs1) ->
  (forall k, 0 < k <= length folder_dir -> fs1 !! take k folder_dir = Some Dir)
  /\ exists f, fs1 !! target = Some (File f)
               /\ sha256_hex (content f) = sha256_hex raw
               /\ r = {| path := target; sha256 := sha256_hex raw;
                         size_bytes := Z.of_nat (length (content f)) |}.
Proof.
  intros folder_dir target. unfold write_immutable.
  destruct (mkdir_parents fs evidence_dir) as [fs_a|e] eqn:Hmk1; [|discriminate].
  fold folder_dir.
  destruct (mkdir_parents fs_a folder_dir) as [fs_b|e] eqn:Hmk2; [|discriminate].
  cbv zeta. change (folder_dir ++ [evidence_name uidvalidity uid]) with target.
  pose proof (mkdir_from_makes_dirs _ _ _ _ Hmk2) as Hdirs. cbn [app] in Hdirs.
  destruct (fs_b !! target) as [[f|]|] eqn:Htarget.
  - rewrite sha256_file_hex_content.
    destruct (bool_decide (sha256_hex (content f) <> sha256_hex raw)) eqn:Hsha; [discriminate|].
    apply bool_decide_eq_false in Hsha. apply dec_stable in Hsha.
    intros Heq. injection Heq as <- <-. split; [exact Hdirs|].
    exists f. rewrite Hsha. auto.
  - discriminate.
  - destruct (mkstemp fs_b folder_dir (evidence_name uidvalidity uid ++ ustr ".")
                (ustr ".tmp") tmp_candidates) as [[tmp fs_c]|e] eqn:Htmp; [|discriminate].
    apply mkstemp_inv in Htmp as ((rnd & Hname) & Hfree & ->).
    assert (Hne : tmp <> target).
    { rewrite Hname. unfold target, target_path. fold folder_dir. intros Heq.
      apply app_inv_head in Heq. injection Heq as Heq.
      apply (f_equal length) in Heq. rewrite !length_app in Heq. simpl in Heq. lia. }
    unfold replace, chmod.
    rewrite lookup_insert_eq. rewrite lookup_insert_eq.
    rewrite !lookup_insert_ne by (intros Heq; apply Hne; symmetry; exact Heq).
    rewrite lookup_delete_eq.
    intros Heq. injection Heq as <- <-. split.
    + intros k Hk.
      assert (Hlen : forall q : Path, length q = S (length folder_dir) ->
                                      q <> take k folder_dir).
      { intros q Hq Heq. apply (f_equal length) in Heq. rewrite length_take in Heq. lia. }
      rewrite !lookup_insert_ne, lookup_delete_ne, !lookup_insert_ne; first [ apply Hdirs, Hk | apply Hlen ].
      all: first [ rewrite Hname; rewrite length_app; simpl; lia
                 | unfold target, target_path; fold folder_dir; rewrite length_app; simpl; lia ].
    + eexists. split; [apply lookup_insert_eq|]. split; reflexivity.
Qed.

(** Writing the same bytes to the same place again changes nothing and gives
    the same result. *)
Lemma write_immutable_twice (evidence_dir : Path) (tmp_candidates tmp_candidates' : list pystr)
    (fs fs1 : filesystem) (folder : pystr) (uidvalidity : option Z) (uid : Z)
    (raw : bytes) (r : EmlWriteResult) :
  write_immutable evidence_dir tmp_candidates fs folder uidvalidity uid raw
  = (Return r, fs1) ->
  write_immutable evidence_dir tmp_candidates' fs1 folder uidvalidity uid raw
  = (Return r, fs1).
Proof.
  intros Hfirst. apply write_immutable_success in Hfirst as (Hdirs & f & Hf & Hsha & ->).
  rewrite (write_immutable_on_existing _ _ _ _ _ _ _ f).
  - rewrite bool_decide_eq_false_2 by (intros Hne; apply Hne, Hsha).
    rewrite Hsha. reflexivity.
  - apply mkdir_from_present. intros k Hk. cbn [app].
    rewrite <- (take_app_le _ [_safe_folder_name folder]) by lia.
    apply Hdirs. rewrite length_app. simpl. lia.
  - apply mkdir_from_present. intros k Hk. cbn [app]. apply Hdirs, Hk.
  - exact Hf.
Qed.

(** C1. When the target of (folder, uidvalidity, uid) is there already, as a
    file [f] of a well-formed file system, the call succeeds exactly when the
    SHA-256 of the file's bytes equals that of the bytes offered; it then
    returns the file's path, that hash and the file's size, at a mismatch it
    raises the error ([ValueError] in the code), and either way the file
    system, the file's bytes with it, is as before.  So a second write of the
    bytes a first call has written returns the first call's path and hash. *)
Theorem write_immutable_existing (evidence_dir : Path) (tmp_candidates : list pystr)
    (fs : filesystem) (folder : pystr) (uidvalidity : option Z) (uid : Z)
    (raw : bytes) (f : file) :
  let target := target_path evidence_dir folder uidvalidity uid in
  let outcome := write_immutable evidence_dir tmp_candidates fs folder uidvalidity uid raw in
  parent_is_dir fs ->
  fs !! target = Some (File f) ->
  (sha256_hex (content f) = sha256_hex raw ->
   outcome = (Return {| path := target; sha256 := sha256_hex (content f);
                        size_bytes := Z.of_nat (length (content f)) |}, fs))
  /\ (sha256_hex (content f) <> sha256_hex raw ->
      exists msg, outcome = (Raise (ValueError msg), fs))
  /\ ((exists r, outcome.1 = Return r) <-> sha256_hex (content f) = sha256_hex raw)
  /\ outcome.2 !! target = Some (File f)
  /\ (forall fs0 candidates0 candidates1 r1 fs1,
        write_immutable evidence_dir candidates0 fs0 folder uidvalidity uid raw
        = (Return r1, fs1) ->
        exists r2,
          write_immutable evidence_dir candidates1 fs1 folder uidvalidity uid raw
          = (Return r2, fs1)
          /\ path r2 = path r1 /\ sha256 r2 = sha256 r1).
Proof.
  intros target outcome Hfs Hf.
  assert (Hout : outcome
    = if bool_decide (sha256_hex (content f) <> sha256_hex raw)
      then (Raise (ValueError (ustr "Evidence file already exists but differs: "
                                 ++ path_str target)), fs)
      else (Return {| path := target; sha256 := sha256_hex (content f);
                      size_bytes := Z.of_nat (length (content f)) |}, fs)).
  { apply write_immutable_on_existing; [| |exact Hf].
    - apply (mkdir_parents_above fs evidence_dir
               ([_safe_folder_name folder] ++ [evidence_name uidvalidity uid]) (File f) Hfs);
        [|discriminate].
      rewrite app_assoc. exact Hf.
    - apply (mkdir_parents_above fs _ [evidence_name uidvalidity uid] (File f) Hfs);
        [exact Hf | discriminate]. }
  rewrite Hout.
  destruct (bool_decide (sha256_hex (content f) <> sha256_hex raw)) eqn:Hsha.
  - apply bool_decide_eq_true in Hsha.
    split; [intros Heq; contradiction|]. split; [eauto|].
    split; [|split; [exact Hf|]].
    + split; [intros [r Hr]; discriminate Hr | intros Heq; contradiction].
    + intros fs0 c0 c1 r1 fs1 Hfirst. exists r1.
      split; [eapply write_immutable_twice; exact Hfirst | split; reflexivity].
  - apply bool_decide_eq_false in Hsha. apply dec_stable in Hsha.
    split; [intros _; reflexivity|]. split; [intros Hne; contradiction|].
    split; [|split; [exact Hf|]].
    + split; [intros _; exact Hsha | intros _; eexists; reflexivity].
    + intros fs0 c0 c1 r1 fs1 Hfirst. exists r1.
      split; [eapply write_immutable_twice; exact Hfirst | split; reflexivity].
Qed.

End EmlStoreFacts.

Lemma evidence_fs_parent_is_dir : EmlStore.parent_is_dir Examples.evidence_fs.
Proof.
  intros p c n Hn Hp. unfold Examples.evidence_fs in Hn.
  apply lookup_insert_Some in Hn as [[Heq _]|[_ Hn]].
  { apply (app_inj_tail [ustr "ev"; ustr "INBOX"] p) in Heq as [<- _].
    vm_compute. reflexivity. }
  apply lookup_insert_Some in Hn as [[Heq _]|[_ Hn]].
  { apply (app_inj_tail [ustr "ev"] p) in Heq as [<- _]. vm_compute. reflexivity. }
  apply lookup_insert_Some in Hn as [[Heq _]|[_ Hn]].
  { apply (app_inj_tail [] p) in Heq as [<- _]. contradiction. }
  rewrite lookup_empty in Hn. discriminate.
Qed.

(** Offering the stored bytes again for (INBOX, 1, 10) returns the stored
    file and leaves the store alone. *)
Lemma write_immutable_existing_witness :
  @EmlStore.write_immutable Examples.transparent_hash [ustr "ev"] [ustr "abcd1234"]
    Examples.evidence_fs (ustr "INBOX") (Some 1%Z) 10%Z Examples.hello
  = (Return {| EmlStore.path := [ustr "ev"; ustr "INBOX"; ustr "1-10.eml"];
               EmlStore.sha256 := map Byte.to_N Examples.hello;
               EmlStore.size_bytes := 5 |},
     Examples.evidence_fs).
Proof.
  destruct (@write_immutable_existing Examples.transparent_hash [ustr "ev"]
              [ustr "abcd1234"] Examples.evidence_fs (ustr "INBOX") (Some 1%Z) 10%Z
              Examples.hello Examples.stored evidence_fs_parent_is_dir)
    as [Hsame _].
  - vm_compute. reflexivity.
  - apply Hsame. reflexivity.
Defined.

(** Offering other bytes for it is refused, the store left alone. *)
Example write_immutable_mismatch :
  exists msg,
    @EmlStore.write_immutable Examples.transparent_hash [ustr "ev"] [ustr "abcd1234"]
      Examples.evidence_fs (ustr "INBOX") (Some 1%Z) 10%Z (bstr "Different")
    = (Raise (ValueError msg), Examples.evidence_fs).
Proof. eexists. vm_compute. reflexivity. Qed.

(** The folder "Spam Drafts": both words, no earlier rule, SPAM alone. *)
Lemma folder_to_system_labels_earliest_rule_witness :
  @Labels.folder_to_system_labels Examples.ascii_unicode (ustr "Spam Drafts") = [Labels.spam].
Proof.
  destruct (@folder_to_system_labels_earliest_rule Examples.ascii_unicode (ustr "Spam Drafts"))
    as (_ & _ & Hspam).
  destruct Hspam as [_ Honly]; [reflexivity | reflexivity |].
  apply Honly; reflexivity.
Defined.

(** ** Retries *)

Section RetryFacts.
Context `{Orchestrator.PyFloat} {T : Type}.
Import Orchestrator.
Variable fn : nat -> result T.
Variable random_uniform : nat -> float -> float.
Variable attempts : Z.
Variables base_delay_s max_delay_s jitter_s : float.
Variable retry_on : exn -> bool.

#[local] Abbreviation loop :=
  (retry_loop fn random_uniform attempts base_delay_s max_delay_s jitter_s retry_on).
#[local] Abbreviation pace :=
  (backoff_trace random_uniform base_delay_s max_delay_s jitter_s).

Lemma calls_app (t1 t2 : list event) : calls (t1 ++ t2) = calls t1 + calls t2.
Proof. unfold calls. rewrite List.filter_app, length_app. reflexivity. Qed.

(** Powers of two up to [2 ^ 1023] convert, [2 ^ 1024] does not. *)
Lemma float_of_pow2_small (i : Z) :
  (1 <= i <= 1024)%Z -> is_Some (float_of_int (2 ^ (i - 1))).
Proof.
  intros Hi. apply float_of_int_range.
  assert (Hpos : (0 < 2 ^ (i - 1))%Z) by (apply Z.pow_pos_nonneg; lia).
  rewrite Z.abs_eq by lia.
  apply Z.le_lt_trans with (2 ^ 1023)%Z.
  - apply Z.pow_le_mono_r; lia.
  - reflexivity.
Qed.

Lemma float_of_pow2_1024 : float_of_int (2 ^ 1024) = None.
Proof.
  destruct (float_of_int (2 ^ 1024)) as [x|] eqn:Hx; [|reflexivity].
  assert (Hsome : is_Some (float_of_int (2 ^ 1024))) by (rewrite Hx; eauto).
  apply float_of_int_range in Hsome. exfalso. revert Hsome.
  rewrite Z.abs_eq by (apply Z.pow_nonneg; lia).
  apply Z.le_ngt. apply Z.le_sub_nonneg. apply Z.pow_nonneg. lia.
Qed.

(** [fn] is invoked at most as often as the loop has turns left. *)
Lemma retry_loop_calls_le (remaining : nat) (i : Z) (last : option exn) (trace : list event) :
  calls (loop remaining i last trace).2 <= calls trace + remaining.
Proof.
  revert i last trace. induction remaining as [|remaining IH]; intros i last trace.
  - simpl. lia.
  - cbn [retry_loop].
    assert (Hcall : calls (trace ++ [Called i]) = calls trace + 1)
      by (rewrite calls_app; reflexivity).
    destruct (fn (Z.to_nat (i - 1))) as [v|exc]; [simpl; lia|].
    destruct (retry_on exc); [|simpl; lia].
    destruct (attempts <=? i)%Z; [simpl; lia|].
    destruct (float_of_int (2 ^ (i - 1))); [|simpl; lia].
    etransitivity; [apply IH|]. rewrite calls_app. cbn [calls List.filter is_call length].
    lia.
Qed.

(** While every invocation fails with a retryable error and the power of
    two still converts, the loop sleeps and goes on; at the 1025th attempt,
    if more are allowed, it stops with [OverflowError]. *)
Lemma retry_loop_overflow (m remaining : nat) (i : Z) (last : option exn)
    (trace : list event) :
  (forall n, exists e, fn n = Raise e /\ retry_on e = true) ->
  (1026 <= attempts)%Z -> (1 <= i)%Z -> i = (1025 - Z.of_nat m)%Z -> m < remaining ->
  exists trace',
    loop remaining i last trace = (Raise OverflowError, trace')
    /\ calls trace' = calls trace + S m.
Proof.
  intros Hfail Hattempts. revert remaining i last trace.
  induction m as [|m IH]; intros remaining i last trace Hi Him Hrem.
  - destruct remaining as [|remaining]; [lia|]. cbn [retry_loop].
    destruct (Hfail (Z.to_nat (i - 1))) as (e & -> & ->).
    destruct (Z.leb_spec attempts i); [lia|].
    replace (i - 1)%Z with 1024%Z by lia. rewrite float_of_pow2_1024.
    eexists. split; [reflexivity|]. rewrite calls_app. reflexivity.
  - destruct remaining as [|remaining]; [lia|]. cbn [retry_loop].
    destruct (Hfail (Z.to_nat (i - 1))) as (e & -> & ->).
    destruct (Z.leb_spec attempts i); [lia|].
    destruct (float_of_pow2_small i ltac:(lia)) as [p ->].
    destruct (IH remaining (i + 1)%Z (Some e)
                ((trace ++ [Called i])
                   ++ [Slept (fadd (fmin max_delay_s (fmul base_delay_s p))
                                 (random_uniform (Z.to_nat (i - 1)) jitter_s))]))
      as (trace' & -> & Hcalls); [lia | lia | lia |].
    eexists. split; [reflexivity|]. rewrite Hcalls, !calls_app.
    cbn [calls List.filter is_call length]. lia.
Qed.

(** [n] retryable failures in a row, from attempt [i] on and short of both
    the last attempt and the 1025th, are each followed by the backoff sleep. *)
Lemma retry_loop_backoff (n remaining : nat) (i : Z) (last : option exn)
    (trace : list event) :
  (forall j, j < n -> exists e, fn (Z.to_nat (i - 1) + j) = Raise e /\ retry_on e = true) ->
  (1 <= i)%Z -> (i + Z.of_nat n <= attempts)%Z -> (i + Z.of_nat n <= 1025)%Z ->
  n <= remaining ->
  exists events last',
    pace n i = Some events
    /\ loop remaining i last trace
       = loop (remaining - n) (i + Z.of_nat n)%Z last' (trace ++ events)
    /\ (n = 0 -> last' = last)
    /\ (0 < n -> exists e, last' = Some e /\ fn (Z.to_nat (i - 1) + (n - 1)) = Raise e).
Proof.
  revert remaining i last trace.
  induction n as [|n IH]; intros remaining i last trace Hfail Hi Hatt Hmax Hrem.
  - exists [], last. rewrite app_nil_r, Nat.sub_0_r, Z.add_0_r.
    split; [reflexivity|]. split; [reflexivity|]. split; [reflexivity | lia].
  - destruct remaining as [|remaining]; [lia|].
    destruct (Hfail 0 ltac:(lia)) as (e & Hfn & Hretry). rewrite Nat.add_0_r in Hfn.
    destruct (float_of_pow2_small i ltac:(lia)) as [p Hp].
    destruct (IH remaining (i + 1)%Z (Some e)
                ((trace ++ [Called i])
                   ++ [Slept (fadd (fmin max_delay_s (fmul base_delay_s p))
                                 (random_uniform (Z.to_nat (i - 1)) jitter_s))]))
      as (events & last' & Hpace & Hloop & Hzero & Hlast); try lia.
    { intros j Hj. destruct (Hfail (S j) ltac:(lia)) as (e' & Hfn' & Hretry').
      exists e'. split; [|exact Hretry'].
      replace (Z.to_nat (i + 1 - 1) + j) with (Z.to_nat (i - 1) + S j) by lia. exact Hfn'. }
    eexists. exists last'. cbn [backoff_trace]. unfold backoff_delay at 1.
    rewrite Hp, Hpace. split; [reflexivity|]. split; [|split; [lia|]].
    + cbn [retry_loop]. rewrite Hfn, Hretry.
      destruct (Z.leb_spec attempts i); [lia|]. rewrite Hp, Hloop.
      replace (i + 1 + Z.of_nat n)%Z with (i + Z.of_nat (S n))%Z by lia.
      rewrite <- !app_assoc. reflexivity.
    + intros _. destruct n as [|n].
      * exists e. rewrite Nat.add_0_r. split; [apply Hzero; reflexivity | exact Hfn].
      * destruct (Hlast ltac:(lia)) as (e' & -> & Hfn').
        exists e'. split; [reflexivity|].
        replace (Z.to_nat (i - 1) + (S (S n) - 1)) with (Z.to_nat (i + 1 - 1) + (S n - 1))
          by lia.
        exact Hfn'.
Qed.

(** X25. Up to 1025 attempts the run is as promised.  If the first [n] invocations
    fail with retryable errors and the next one returns, that value is the
    result, after [n + 1] invocations, each failure followed by its backoff
    sleep and nothing after the last invocation. *)
Lemma retry_async_first_success (n : nat) (v : T) :
  (forall j, j < n -> exists e, fn j = Raise e /\ retry_on e = true) ->
  fn n = Return v ->
  (Z.of_nat n < attempts)%Z -> n <= 1024 ->
  exists events,
    pace n 1 = Some events
    /\ retry_async fn random_uniform attempts base_delay_s max_delay_s jitter_s retry_on
       = (Return v, events ++ [Called (Z.of_nat n + 1)]).
Proof.
  intros Hfail Hok Hatt Hmax. unfold retry_async.
  destruct (retry_loop_backoff n (Z.to_nat attempts) 1 None [])
    as (events & last' & Hpace & Hloop & _); try lia.
  { intros j Hj. apply Hfail, Hj. }
  exists events. split; [exact Hpace|]. rewrite Hloop. cbn [app].
  destruct (Z.to_nat attempts - n) as [|remaining] eqn:Hrem; [lia|].
  cbn [retry_loop]. replace (Z.to_nat (1 + Z.of_nat n - 1)) with n by lia.
  rewrite Hok. replace (1 + Z.of_nat n)%Z with (Z.of_nat n + 1)%Z by lia. reflexivity.
Qed.

(** X26. If all [k] attempts, [1 <= k <= 1025], fail with retryable errors, the
    last of these errors is raised, after [k] invocations and [k - 1] sleeps,
    none of them after the last attempt. *)
Lemma retry_async_all_fail (k : nat) :
  attempts = Z.of_nat k -> 1 <= k <= 1025 ->
  (forall j, j < k -> exists e, fn j = Raise e /\ retry_on e = true) ->
  exists events e,
    pace (k - 1) 1 = Some events
    /\ fn (k - 1) = Raise e
    /\ retry_async fn random_uniform attempts base_delay_s max_delay_s jitter_s retry_on
       = (Raise e, events ++ [Called attempts]).
Proof.
  intros Hk Hrange Hfail. unfold retry_async.
  destruct (retry_loop_backoff (k - 1) (Z.to_nat attempts) 1 None [])
    as (events & last' & Hpace & Hloop & _); try lia.
  { intros j Hj. apply Hfail. lia. }
  destruct (Hfail (k - 1) ltac:(lia)) as (e & Hfn & Hretry).
  exists events, e. split; [exact Hpace|]. split; [exact Hfn|]. rewrite Hloop. cbn [app].
  destruct (Z.to_nat attempts - (k - 1)) as [|remaining] eqn:Hrem; [lia|].
  cbn [retry_loop]. replace (Z.to_nat (1 + Z.of_nat (k - 1) - 1)) with (k - 1) by lia.
  replace (1 + Z.of_nat (k - 1))%Z with attempts by lia.
  rewrite Hfn, Hretry, Z.leb_refl. reflexivity.
Qed.

(** X27. An error outside [retry_on] is raised at once: after [n] retryable
    failures, each followed by its sleep, the first error outside [retry_on]
    ends the run, and it is the error raised. *)
Lemma retry_async_not_retried (n : nat) (e : exn) :
  (forall j, j < n -> exists e', fn j = Raise e' /\ retry_on e' = true) ->
  fn n = Raise e -> retry_on e = false ->
  (Z.of_nat n < attempts)%Z -> n <= 1024 ->
  exists events,
    pace n 1 = Some events
    /\ retry_async fn random_uniform attempts base_delay_s max_delay_s jitter_s retry_on
       = (Raise e, events ++ [Called (Z.of_nat n + 1)]).
Proof.
  intros Hfail Hfn Hretry Hatt Hmax. unfold retry_async.
  destruct (retry_loop_backoff n (Z.to_nat attempts) 1 None [])
    as (events & last' & Hpace & Hloop & _); try lia.
  { intros j Hj. apply Hfail, Hj. }
  exists events. split; [exact Hpace|]. rewrite Hloop. cbn [app].
  destruct (Z.to_nat attempts - n) as [|remaining] eqn:Hrem; [lia|].
  cbn [retry_loop]. replace (Z.to_nat (1 + Z.of_nat n - 1)) with n by lia.
  rewrite Hfn, Hretry.
  replace (1 + Z.of_nat n)%Z with (Z.of_nat n + 1)%Z by lia. reflexivity.
Qed.

(** X28. Whatever happens, [fn] is invoked at most [attempts] times. *)
Lemma retry_async_calls_le :
  (0 <= attempts)%Z ->
  (Z.of_nat (calls (retry_async fn random_uniform attempts base_delay_s max_delay_s
                      jitter_s retry_on).2) <= attempts)%Z.
Proof.
  intros Hatt. unfold retry_async.
  pose proof (retry_loop_calls_le (Z.to_nat attempts) 1 None []) as Hle.
  cbn [calls List.filter length] in Hle. unfold calls in *. lia.
Qed.

(** C9. With 1026 attempts or more allowed and a callable that keeps failing
    with a retryable error, the run does not go on to its last attempt: after
    the 1025th failure the delay [base_delay_s * 2 ** 1024] cannot be computed
    and the call ends in [OverflowError], which is not the callable's last
    exception, after 1025 invocations. *)
Theorem retry_async_overflow :
  (1026 <= attempts)%Z ->
  (forall n, exists e, fn n = Raise e /\ retry_on e = true) ->
  exists trace,
    retry_async fn random_uniform attempts base_delay_s max_delay_s jitter_s retry_on
    = (Raise OverflowError, trace)
    /\ calls trace = 1025.
Proof.
  intros Hattempts Hfail. unfold retry_async.
  destruct (retry_loop_overflow 1024 (Z.to_nat attempts) 1 None [] Hfail Hattempts)
    as (trace & Hrun & Hcalls); [lia | lia | lia |].
  exists trace. split; [exact Hrun | exact Hcalls].
Qed.

End RetryFacts.

(** 1026 attempts at a callable that always raises the same error, with the
    default delays 0.5, 20 and 0.25. *)
Lemma retry_async_overflow_witness :
  exists trace,
    @Orchestrator.retry_async Examples.rational_floats unit Examples.always_failing
      Examples.no_jitter 1026 (1 # 2)%Q 20%Q (1 # 4)%Q (fun _ => true)
    = (Raise OverflowError, trace)
    /\ @Orchestrator.calls Examples.rational_floats trace = 1025.
Proof.
  apply (@retry_async_overflow Examples.rational_floats unit Examples.always_failing
           Examples.no_jitter 1026 (1 # 2)%Q 20%Q (1 # 4)%Q (fun _ => true)).
  - lia.
  - intros n. exists (Exception 7). split; reflexivity.
Defined.

(** ** More of the ledger *)

Section LedgerFacts.
Import StateDb.

Lemma find_map_same {A} (P : A -> bool) (f : A -> A) (l : list A) :
  (forall x, P (f x) = P x) -> List.find P (map f l) = f <$> List.find P l.
Proof.
  intros Hf. induction l as [|a l IH]; [reflexivity|].
  simpl. rewrite Hf. destruct (P a); [reflexivity | exact IH].
Qed.

Lemma find_map_fixed {A} (P : A -> bool) (f : A -> A) (l : list A) :
  (forall x, P (f x) = P x) -> (forall x, P x = true -> f x = x) ->
  List.find P (map f l) = List.find P l.
Proof.
  intros Hf Hfix. rewrite find_map_same by exact Hf.
  destruct (List.find P l) as [x|] eqn:Hx; [|reflexivity].
  simpl. f_equal. apply Hfix. apply (List.find_some _ _ Hx).
Qed.

Lemma find_app_miss {A} (P : A -> bool) (l : list A) (x : A) :
  P x = false -> List.find P (l ++ [x]) = List.find P l.
Proof.
  intros Hx. induction l as [|a l IH]; simpl; [rewrite Hx; reflexivity|].
  destruct (P a); [reflexivity | exact IH].
Qed.

Lemma existsb_find {A} (P : A -> bool) (l : list A) :
  existsb P l = match List.find P l with Some _ => true | None => false end.
Proof.
  induction l as [|a l IH]; [reflexivity|]. simpl.
  destruct (P a); [reflexivity | exact IH].
Qed.

(** *** Folder checkpoints *)

Lemma upsert_folder_row (d : db) (now name : pystr) (uv last : option Z) :
  exists d',
    upsert_folder d now name uv last
    = match folder_row_of (upserted_folder d now name uv last) with
      | Return r => (Return r, d')
      | Raise e => (Raise e, d)
      end
    /\ List.find (has_name name) (folders d') = Some (upserted_folder d now name uv last)
    /\ (forall name', name' <> name ->
          List.find (has_name name') (folders d') = List.find (has_name name') (folders d))
    /\ messages d' = messages d /\ sqlite_sequence d' = sqlite_sequence d
    /\ map Folders.name (folders d')
       = map Folders.name (folders d)
           ++ (if existsb (has_name name) (folders d) then [] else [name]).
Proof.
  unfold upsert_folder, upserted_folder. rewrite existsb_find.
  destruct (List.find (has_name name) (folders d)) as [f|] eqn:Hfind.
  - set (upd := fun f0 : Folders.row => if has_name name f0 then _ else f0).
    assert (Hname : forall x, Folders.name (upd x) = Folders.name x).
    { intros x. unfold upd. destruct (has_name name x); reflexivity. }
    assert (Hkeep : forall n x, has_name n (upd x) = has_name n x).
    { intros n x. unfold has_name. rewrite Hname. reflexivity. }
    pose proof (List.find_some _ _ Hfind) as [_ Hf].
    assert (Hfound : List.find (has_name name) (map upd (folders d))
                     = Some {| Folders.name := name; Folders.uidvalidity := uv;
                               Folders.last_uid_seen := last;
                               Folders.created_at := Folders.created_at f;
                               Folders.updated_at := now |}).
    { rewrite find_map_same by apply Hkeep. rewrite Hfind. simpl. unfold upd.
      rewrite Hf. apply bool_decide_eq_true in Hf. rewrite Hf. reflexivity. }
    eexists {| folders := map upd (folders d) |}. cbn [folders messages sqlite_sequence].
    rewrite Hfound. split; [reflexivity|]. split; [reflexivity|].
    split; [|split; [reflexivity|split; [reflexivity|]]].
    + intros name' Hne. apply find_map_fixed; [apply Hkeep|].
      intros x Hx. unfold upd. destruct (has_name name x) eqn:Hx'; [|reflexivity].
      apply bool_decide_eq_true in Hx, Hx'. congruence.
    + rewrite app_nil_r, map_map. apply map_ext. exact Hname.
  - eexists {| folders := folders d ++ [ {| Folders.name := name; Folders.uidvalidity := uv;
                                            Folders.last_uid_seen := last;
                                            Folders.created_at := now;
                                            Folders.updated_at := now |} ] |}.
    cbn [folders messages sqlite_sequence].
    assert (Hmiss : forall x, x ∈ folders d -> has_name name x = false).
    { intros x Hx. apply list_elem_of_In in Hx.
      apply (List.find_none _ _ Hfind x Hx). }
    rewrite find_after_misses by exact Hmiss. cbn [List.find].
    assert (Hnew : has_name name {| Folders.name := name; Folders.uidvalidity := uv;
                                    Folders.last_uid_seen := last;
                                    Folders.created_at := now;
                                    Folders.updated_at := now |} = true)
      by (apply bool_decide_eq_true; reflexivity).
    rewrite Hnew.
    split; [reflexivity|]. split; [reflexivity|].
    split; [|split; [reflexivity|split; [reflexivity|]]].
    + intros name' Hne. apply find_app_miss. apply bool_decide_eq_false. simpl. congruence.
    + rewrite map_app. reflexivity.
Qed.

(** X1. What [upsert_folder] returns is what [get_folder] reads back: a
    successful upsert stores the UIDVALIDITY and the checkpoint offered under
    the name, stamps the row with the clock reading, keeps the creation time
    of a row that was there, and leaves the rows of other names and the
    messages alone. *)
Theorem upsert_folder_get_folder (d d' : db) (now name : pystr) (uv last : option Z)
    (r : FolderRow.t) :
  upsert_folder d now name uv last = (Return r, d') ->
  get_folder d' name = Return (Some r)
  /\ FolderRow.name r = strip name
  /\ FolderRow.uidvalidity r = uv /\ FolderRow.last_uid_seen r = last
  /\ FolderRow.updated_at r = now
  /\ FolderRow.created_at r
     = match List.find (has_name name) (folders d) with
       | Some old => Folders.created_at old
       | None => now
       end
  /\ (forall name', name' <> name -> get_folder d' name' = get_folder d name')
  /\ messages d' = messages d.
Proof.
  intros Hup.
  destruct (upsert_folder_row d now name uv last) as (d1 & Heq & Hfind & Hother & Hmsg & _).
  rewrite Hup in Heq.
  destruct (folder_row_of (upserted_folder d now name uv last)) as [r1|e] eqn:Hrow;
    [|discriminate].
  injection Heq as -> ->.
  unfold get_folder. rewrite Hfind, Hrow.
  unfold folder_row_of in Hrow.
  destruct (_ && _) in Hrow; [|discriminate]. injection Hrow as <-.
  cbn. repeat split; try assumption.
  intros name' Hne. rewrite (Hother name' Hne). reflexivity.
Qed.

(** X2. [upsert_folder] never trips its assertion: it fails exactly when the
    values offered do not make a [FolderRow] (a blank name, a UIDVALIDITY
    below 1, a checkpoint below 0), the error is the model's, and the
    ledger is then as it was. *)
Theorem upsert_folder_raises (d : db) (now name : pystr) (uv last : option Z) :
  let out := upsert_folder d now name uv last in
  ((exists e, out.1 = Raise e)
   <-> strip name = [] \/ opt_ge 1 uv = false \/ opt_ge 0 last = false)
  /\ (forall e, out.1 = Raise e -> e = ValidationError /\ out.2 = d).
Proof.
  intros out. subst out.
  destruct (upsert_folder_row d now name uv last) as (d1 & -> & _).
  unfold folder_row_of, upserted_folder. cbn [Folders.name Folders.uidvalidity Folders.last_uid_seen].
  destruct (decide (strip name = [])) as [Hn|Hn].
  - rewrite (bool_decide_eq_true_2 _ Hn). cbn.
    split; [split; eauto | intros e [= <-]; auto].
  - rewrite (bool_decide_eq_false_2 _ Hn). cbn [negb andb].
    destruct (opt_ge 1 uv), (opt_ge 0 last); cbn.
    + split; [|intros e [=]].
      split; [intros [e [=]] | intros [?|[[=]|[=]]]; contradiction].
    + split; [split; eauto | intros e [= <-]; auto].
    + split; [split; eauto | intros e [= <-]; auto].
    + split; [split; eauto | intros e [= <-]; auto].
Qed.

(** *** Looking for an imported copy *)

(** X3. [find_existing_imported] answers with the id of a row that has a
    Gmail id and either carries the Message-ID asked for (when one is asked
    for) or, if no such row exists, the fingerprint; it answers [None]
    exactly when no row with a Gmail id carries either. *)
Theorem find_existing_imported_spec (d : db) (mid : option pystr) (fp : pystr) :
  let by_mid := fun r => Messages.gmail_message_id r <> None
                         /\ truthy mid = true /\ Messages.message_id_norm r = mid in
  let by_fp := fun r => Messages.gmail_message_id r <> None /\ Messages.fingerprint r = fp in
  match find_existing_imported d mid fp with
  | Some id =>
      exists r, r ∈ messages d /\ Messages.id r = id
                /\ (by_mid r \/ ((forall r', r' ∈ messages d -> ~ by_mid r') /\ by_fp r))
  | None => forall r, r ∈ messages d -> ~ by_mid r /\ ~ by_fp r
  end.
Proof.
  intros by_mid by_fp.
  assert (Hmid : forall m r, imported_with_message_id m r = true
                             <-> Messages.gmail_message_id r <> None
                                 /\ Messages.message_id_norm r = Some m).
  { intros m r. unfold imported_with_message_id.
    rewrite andb_true_iff, !bool_decide_eq_true. reflexivity. }
  assert (Hfp : forall r, imported_with_fingerprint fp r = true <-> by_fp r).
  { intros r. unfold imported_with_fingerprint, by_fp.
    rewrite andb_true_iff, !bool_decide_eq_true. reflexivity. }
  assert (Hsecond :
    (forall r', r' ∈ messages d -> ~ by_mid r') ->
    match Messages.id <$> List.find (imported_with_fingerprint fp) (messages d) with
    | Some id =>
        exists r, r ∈ messages d /\ Messages.id r = id
                  /\ (by_mid r \/ ((forall r', r' ∈ messages d -> ~ by_mid r') /\ by_fp r))
    | None => forall r, r ∈ messages d -> ~ by_mid r /\ ~ by_fp r
    end).
  { intros Hnone.
    destruct (List.find (imported_with_fingerprint fp) (messages d)) as [r|] eqn:Hfind; simpl.
    - apply List.find_some in Hfind as [Hin Hr]. exists r.
      split; [apply list_elem_of_In, Hin|]. split; [reflexivity|].
      right. split; [exact Hnone | apply Hfp, Hr].
    - intros r Hr. split; [apply Hnone, Hr|]. intros Hby. apply Hfp in Hby.
      apply list_elem_of_In in Hr.
      rewrite (List.find_none _ _ Hfind r Hr) in Hby. discriminate. }
  unfold find_existing_imported.
  destruct mid as [[|c m]|].
  - apply Hsecond. intros r' _ (_ & Ht & _). discriminate Ht.
  - destruct (List.find (imported_with_message_id (c :: m)) (messages d)) as [r|] eqn:Hfind;
      simpl.
    + apply List.find_some in Hfind as [Hin Hr]. apply Hmid in Hr as [Hg Hm].
      exists r. split; [apply list_elem_of_In, Hin|]. split; [reflexivity|].
      left. repeat split; assumption.
    + apply Hsecond. intros r' Hr' (Hg & _ & Hm).
      apply list_elem_of_In in Hr'.
      pose proof (List.find_none _ _ Hfind r' Hr') as Hmiss.
      assert (Hhit : imported_with_message_id (c :: m) r' = true) by (apply Hmid; auto).
      congruence.
  - apply Hsecond. intros r' _ (_ & Ht & _). discriminate Ht.
Qed.

(** *** Resetting *)

Lemma filter_none {A} (P : A -> bool) (l : list A) :
  Forall (fun x => P x = false) l -> List.filter P l = [].
Proof.
  induction 1 as [|x l Hx _ IH]; [reflexivity|]. cbn [List.filter]. rewrite Hx. exact IH.
Qed.

Lemma map_fixed {A} (f : A -> A) (l : list A) :
  Forall (fun x => f x = x) l -> map f l = l.
Proof. induction 1 as [|x l Hx _ IH]; [reflexivity|]. cbn [map]. rewrite Hx, IH. reflexivity. Qed.

Lemma reset_row_imported (r : Messages.row) :
  let r' := if in_reset_set (Messages.status r) then set_status discovered r else r in
  Messages.gmail_message_id r' = Messages.gmail_message_id r
  /\ Messages.message_id_norm r' = Messages.message_id_norm r
  /\ Messages.fingerprint r' = Messages.fingerprint r
  /\ Messages.folder r' = Messages.folder r
  /\ Messages.id r' = Messages.id r
  /\ bool_decide (Messages.status r' = imported) = bool_decide (Messages.status r = imported)
  /\ in_reset_set (Messages.status r') = false.
Proof.
  destruct (in_reset_set (Messages.status r)) eqn:Hst; cbn; rewrite ?Hst.
  - repeat split. destruct (Messages.status r); try discriminate Hst; reflexivity.
  - repeat split.
Qed.

(** X4. A reset spends itself and costs no progress: after
    [reset_skipped_and_failed] no message is left in a status it resets, so
    a second reset finds nothing to do; the imported count of every folder
    and every answer of [find_existing_imported] are as before. *)
Theorem reset_skipped_and_failed_again (d : db) :
  let d1 := (reset_skipped_and_failed d).2 in
  reset_skipped_and_failed d1 = (0%Z, d1)
  /\ Forall (fun r => in_reset_set (Messages.status r) = false) (messages d1)
  /\ (forall folder, count_folder_messages d1 folder = count_folder_messages d folder)
  /\ (forall mid fp, find_existing_imported d1 mid fp = find_existing_imported d mid fp).
Proof.
  intros d1. subst d1. unfold reset_skipped_and_failed. cbn [snd].
  set (upd := fun row : Messages.row =>
                if in_reset_set (Messages.status row) then set_status discovered row else row).
  assert (Hclean : Forall (fun r => in_reset_set (Messages.status r) = false)
                     (map upd (messages d))).
  { apply Forall_forall. intros r Hr. apply list_elem_of_fmap in Hr as (r0 & -> & _).
    apply (reset_row_imported r0). }
  split; [|split; [exact Hclean|split]].
  - cbn [folders messages sqlite_sequence]. f_equal.
    + rewrite (filter_none (fun row => in_reset_set (Messages.status row))) by exact Hclean.
      reflexivity.
    + f_equal.
      * rewrite map_map. apply map_ext. intros f. reflexivity.
      * apply map_fixed. eapply Forall_impl; [exact Hclean|].
        intros r Hr. cbv beta in Hr. unfold upd. rewrite Hr. reflexivity.
  - intros folder. unfold count_folder_messages. cbn [messages]. f_equal. clear Hclean.
    induction (messages d) as [|r rs IH]; [reflexivity|]. cbn [map List.filter].
    destruct (reset_row_imported r) as (_ & _ & _ & Hf & _ & Hst & _).
    fold (upd r) in Hf, Hst. rewrite Hf, Hst.
    destruct (_ && _); cbn [length]; rewrite IH; reflexivity.
  - intros mid fp. unfold find_existing_imported. cbn [messages].
    assert (Hfind : forall P : Messages.row -> bool,
               (forall r, P (upd r) = P r) ->
               Messages.id <$> List.find P (map upd (messages d))
               = Messages.id <$> List.find P (messages d)).
    { intros P HP. rewrite find_map_same by exact HP.
      destruct (List.find P (messages d)) as [r|]; [|reflexivity].
      simpl. f_equal. apply (reset_row_imported r). }
    rewrite (Hfind (imported_with_fingerprint fp)).
    2:{ intros r. unfold imported_with_fingerprint.
        destruct (reset_row_imported r) as (Hg & _ & Hfp & _). fold (upd r) in Hg, Hfp.
        rewrite Hg, Hfp. reflexivity. }
    destruct mid as [[|c m]|]; try reflexivity.
    rewrite (Hfind (imported_with_message_id (c :: m))); [reflexivity|].
    intros r. unfold imported_with_message_id.
    destruct (reset_row_imported r) as (Hg & Hm & _). fold (upd r) in Hg, Hm.
    rewrite Hg, Hm. reflexivity.
Qed.

(** *** What the ledger keeps *)

Lemma next_rowid_above (d : db) (r : Messages.row) :
  r ∈ messages d -> (Messages.id r < next_rowid d)%Z.
Proof.
  unfold next_rowid. induction (messages d) as [|a l IH]; intros Hr.
  - apply elem_of_nil in Hr. contradiction.
  - apply elem_of_cons in Hr as [->|Hr]; cbn [map fold_right]; [lia|].
    specialize (IH Hr). lia.
Qed.

Lemma sql_eq_sym (a b : option Z) : sql_eq a b = sql_eq b a.
Proof. destruct a, b; simpl; try reflexivity. apply Z.eqb_sym. Qed.

(** Where it succeeds and where it fails, the upsert leaves one of two ledgers. *)
Lemma upsert_message_discovered_ledger (d : db) (now folder : pystr) (uid : Z)
    (uv : option Z) (mid : option pystr) (fp : pystr) (sz : option Z) :
  let d' := (upsert_message_discovered d now folder uid uv mid fp sz).2 in
  d' = d
  \/ (existsb (unique_conflict folder uid uv) (messages d) = true
      /\ d' = {| folders := folders d;
                 messages :=
                   map (fun row => if unique_conflict folder uid uv row
                                   then do_update mid fp sz now row else row) (messages d);
                 sqlite_sequence := sqlite_sequence d |})
  \/ (existsb (unique_conflict folder uid uv) (messages d) = false
      /\ d' = {| folders := folders d;
                 messages :=
                   messages d ++ [inserted_row (next_rowid d) now folder uid uv mid fp sz];
                 sqlite_sequence := next_rowid d |}).
Proof.
  unfold upsert_message_discovered.
  destruct (existsb (unique_conflict folder uid uv) (messages d)) eqn:Hex.
  - match goal with |- context [List.find ?P ?l] => destruct (List.find P l) as [row|] end;
      [|left; reflexivity].
    destruct (_row_to_message row); [right; left; auto | left; reflexivity].
  - match goal with |- context [List.find ?P ?l] => destruct (List.find P l) as [row|] end;
      [|left; reflexivity].
    destruct (_row_to_message row); [right; right; auto | left; reflexivity].
Qed.

(** The upsert keeps the keys with a UIDVALIDITY distinct. *)
Lemma upsert_message_discovered_unique_keys (d : db) (now folder : pystr) (uid : Z)
    (uv : option Z) (mid : option pystr) (fp : pystr) (sz : option Z) :
  unique_keys d ->
  unique_keys (upsert_message_discovered d now folder uid uv mid fp sz).2.
Proof.
  intros Hkeys.
  destruct (upsert_message_discovered_ledger d now folder uid uv mid fp sz)
    as [->|[[Hex ->]|[Hex ->]]]; [exact Hkeys| |].
  - set (upd := fun row => if unique_conflict folder uid uv row
                           then do_update mid fp sz now row else row).
    intros i j r1 r2 Hi Hj. cbn [messages] in Hi, Hj.
    rewrite list_lookup_fmap in Hi, Hj.
    destruct (messages d !! i) as [a|] eqn:Ha; [|discriminate].
    destruct (messages d !! j) as [b|] eqn:Hb; [|discriminate].
    injection Hi as <-. injection Hj as <-.
    assert (Hsame : forall r, Messages.folder (upd r) = Messages.folder r
                              /\ Messages.uid (upd r) = Messages.uid r
                              /\ Messages.uidvalidity (upd r) = Messages.uidvalidity r)
      by (intros r; unfold upd; destruct (unique_conflict folder uid uv r); auto).
    destruct (Hsame a) as (-> & -> & ->). destruct (Hsame b) as (-> & -> & ->).
    apply (Hkeys i j a b Ha Hb).
  - intros i j r1 r2 Hi Hj Hf Hu Hv. cbn [messages] in Hi, Hj.
    assert (Hfree : forall k r, messages d !! k = Some r ->
               Messages.folder r = folder -> Messages.uid r = uid ->
               sql_eq (Messages.uidvalidity r) uv = true -> False).
    { intros k r Hk Hrf Hru Hrv.
      assert (Hin : In r (messages d))
        by (apply list_elem_of_In, list_elem_of_lookup; eauto).
      assert (Hc : unique_conflict folder uid uv r = true)
        by (apply unique_conflict_iff; auto).
      assert (Hex' : existsb (unique_conflict folder uid uv) (messages d) = true)
        by (apply existsb_exists; eauto).
      congruence. }
    apply lookup_app_Some in Hi as [Hi|[Hli Hi]];
      apply lookup_app_Some in Hj as [Hj|[Hlj Hj]].
    + apply (Hkeys i j r1 r2 Hi Hj Hf Hu Hv).
    + apply list_lookup_singleton_Some in Hj as [_ <-]. exfalso.
      apply (Hfree i r1 Hi); [exact Hf | exact Hu | exact Hv].
    + apply list_lookup_singleton_Some in Hi as [_ <-]. exfalso.
      apply (Hfree j r2 Hj); [symmetry; exact Hf | symmetry; exact Hu |].
      rewrite sql_eq_sym. exact Hv.
    + apply list_lookup_singleton_Some in Hi as [Hi _].
      apply list_lookup_singleton_Some in Hj as [Hj _]. lia.
Qed.

(** X5. The ledger only grows.  [upsert_message_discovered] keeps the ids
    distinct and the keys (folder, uid, uidvalidity) with a UIDVALIDITY
    distinct; no row is removed, moved, or given another id or key; at most
    one row is added; the folders are not touched. *)
Theorem upsert_message_discovered_keeps (d : db) (now folder : pystr) (uid : Z)
    (uv : option Z) (mid : option pystr) (fp : pystr) (sz : option Z) :
  let ident := fun r => (Messages.id r, Messages.folder r, Messages.uid r,
                         Messages.uidvalidity r) in
  let d' := (upsert_message_discovered d now folder uid uv mid fp sz).2 in
  unique_keys d -> ids_distinct d ->
  unique_keys d' /\ ids_distinct d'
  /\ map ident (messages d) `prefix_of` map ident (messages d')
  /\ length (messages d') <= S (length (messages d))
  /\ folders d' = folders d.
Proof.
  intros ident d' Hkeys Hids.
  split; [apply upsert_message_discovered_unique_keys, Hkeys|]. subst d'.
  destruct (upsert_message_discovered_ledger d now folder uid uv mid fp sz)
    as [->|[[Hex ->]|[Hex ->]]].
  - split; [exact Hids|]. split; [reflexivity|]. split; [lia | reflexivity].
  - set (upd := fun row => if unique_conflict folder uid uv row
                           then do_update mid fp sz now row else row).
    assert (Hident : map ident (map upd (messages d)) = map ident (messages d)).
    { rewrite map_map. apply map_ext. intros r. unfold upd.
      destruct (unique_conflict folder uid uv r); reflexivity. }
    cbn [messages folders]. split; [|split; [|split]].
    + unfold ids_distinct in *. cbn [messages].
      replace (map Messages.id (map upd (messages d))) with (map Messages.id (messages d));
        [exact Hids|].
      rewrite map_map. apply map_ext. intros r. unfold upd.
      destruct (unique_conflict folder uid uv r); reflexivity.
    + rewrite Hident. reflexivity.
    + rewrite length_map. lia.
    + reflexivity.
  - cbn [messages folders]. split; [|split; [|split]].
    + unfold ids_distinct in *. cbn [messages]. rewrite map_app. cbn [map].
      apply NoDup_app. split; [exact Hids|]. split; [|apply NoDup_singleton].
      intros x Hx Hx'. apply list_elem_of_singleton in Hx'. subst x.
      apply list_elem_of_fmap in Hx as (r & Hid & Hr).
      pose proof (next_rowid_above d r Hr) as Hlt. cbn in Hid. lia.
    + rewrite map_app. apply prefix_app_r. reflexivity.
    + rewrite length_app. simpl. lia.
    + reflexivity.
Qed.

(** *** Status updates *)

Lemma update_where_id_at (d : db) (id : Z) (set : Messages.row -> Messages.row)
    (i : nat) (r : Messages.row) :
  ids_distinct d -> messages d !! i = Some r -> Messages.id r = id ->
  messages (update_where_id id set d) = <[i := set r]> (messages d).
Proof.
  intros Hids Hi Hid. unfold update_where_id. cbn [messages].
  apply list_eq. intros j. rewrite list_lookup_fmap.
  destruct (decide (i = j)) as [<-|Hne].
  - rewrite list_lookup_insert_eq by (eapply lookup_lt_Some; eauto).
    rewrite Hi. simpl. rewrite Hid, Z.eqb_refl. reflexivity.
  - rewrite list_lookup_insert_ne by exact Hne.
    destruct (messages d !! j) as [y|] eqn:Hj; [|reflexivity]. simpl.
    destruct (Z.eqb_spec (Messages.id y) id) as [Hy|]; [|reflexivity].
    exfalso. apply Hne.
    apply (NoDup_lookup _ i j id Hids); rewrite list_lookup_fmap.
    + rewrite Hi. simpl. congruence.
    + rewrite Hj. simpl. congruence.
Qed.

Lemma update_where_id_absent (d : db) (id : Z) (set : Messages.row -> Messages.row) :
  (forall r, r ∈ messages d -> Messages.id r <> id) -> update_where_id id set d = d.
Proof.
  intros Habs. destruct d as [fs ms seq]. unfold update_where_id. cbn in *. f_equal.
  apply map_fixed, Forall_forall. intros r Hr.
  destruct (Z.eqb_spec (Messages.id r) id) as [Hid|]; [|reflexivity].
  exfalso. exact (Habs r Hr Hid).
Qed.

Lemma insert_keeps_unique_keys (d : db) (i : nat) (r r' : Messages.row) :
  unique_keys d -> messages d !! i = Some r ->
  Messages.folder r' = Messages.folder r -> Messages.uid r' = Messages.uid r ->
  Messages.uidvalidity r' = Messages.uidvalidity r ->
  unique_keys {| folders := folders d; messages := <[i := r']> (messages d);
                 sqlite_sequence := sqlite_sequence d |}.
Proof.
  intros Hkeys Hi Hf Hu Hv j k r1 r2 Hj Hk. cbn [messages] in Hj, Hk.
  assert (Hlook : forall n x, <[i := r']> (messages d) !! n = Some x ->
            exists y, messages d !! n = Some y /\ Messages.folder x = Messages.folder y
                      /\ Messages.uid x = Messages.uid y
                      /\ Messages.uidvalidity x = Messages.uidvalidity y).
  { intros n x Hn. destruct (decide (i = n)) as [<-|Hne].
    - rewrite list_lookup_insert_eq in Hn by (eapply lookup_lt_Some; eauto).
      injection Hn as <-. eauto.
    - rewrite list_lookup_insert_ne in Hn by exact Hne. eauto. }
  destruct (Hlook j r1 Hj) as (y1 & Hy1 & -> & -> & ->).
  destruct (Hlook k r2 Hk) as (y2 & Hy2 & -> & -> & ->).
  apply (Hkeys j k y1 y2 Hy1 Hy2).
Qed.

(** The checks of [_row_to_message], read off a row that passed them. *)
Lemma row_to_message_checks (r : Messages.row) (m : MessageRow.t) :
  _row_to_message r = Return m ->
  (1 <=? Messages.id r)%Z = true /\ strip (Messages.folder r) <> []
  /\ (1 <=? Messages.uid r)%Z = true /\ opt_ge 1 (Messages.uidvalidity r) = true
  /\ strip (Messages.fingerprint r) <> []
  /\ opt_ge 0 (Messages.size_bytes r) = true /\ (0 <=? Messages.attempts r)%Z = true.
Proof.
  unfold _row_to_message. intros Hm.
  destruct (_ && _) eqn:Hc in Hm; [|discriminate].
  rewrite !andb_true_iff, !negb_true_iff, !bool_decide_eq_false in Hc. tauto.
Qed.

(** X6. A failure at the sink is not final.  After [mark_failed], the next
    discovery of the same message (under its UIDVALIDITY) finds the row, puts
    it back to discovered and returns it with the same id, the failure
    counted once more and its error kept; no row is added.  The count is
    taken inside SQLite's 64-bit integers. *)
Theorem mark_failed_then_rediscovered (d : db) (t1 t2 err : pystr) (i : nat)
    (r : Messages.row) (uv : Z) (m0 : MessageRow.t)
    (mid : option pystr) (fp : pystr) (sz : option Z) :
  unique_keys d -> ids_distinct d ->
  messages d !! i = Some r -> Messages.uidvalidity r = Some uv ->
  _row_to_message r = Return m0 ->
  (Messages.attempts r < 2 ^ 63 - 1)%Z ->
  strip fp <> [] -> opt_ge 0 sz = true ->
  exists m d2,
    upsert_message_discovered (mark_failed d t1 (Messages.id r) err) t2
      (Messages.folder r) (Messages.uid r) (Some uv) mid fp sz = (Return m, d2)
    /\ MessageRow.id m = Messages.id r
    /\ MessageRow.status m = discovered
    /\ MessageRow.attempts m = (Messages.attempts r + 1)%Z
    /\ MessageRow.last_error m = Some (strip err)
    /\ MessageRow.fingerprint m = strip fp
    /\ length (messages d2) = length (messages d).
Proof.
  intros Hkeys Hids Hi Huv Hm0 _ Hfp Hsz.
  apply row_to_message_checks in Hm0 as (Hid & Hfolder & Huid & Hv & _ & _ & Hatt).
  unfold mark_failed.
  set (set := fun row : Messages.row => _).
  pose proof (update_where_id_at d (Messages.id r) set i r Hids Hi eq_refl) as Hmsgs.
  set (d1 := update_where_id (Messages.id r) set d) in *.
  assert (Hd1 : d1 = {| folders := folders d; messages := <[i := set r]> (messages d);
                        sqlite_sequence := sqlite_sequence d |}).
  { unfold d1, update_where_id in *. cbn [messages] in Hmsgs. rewrite Hmsgs. reflexivity. }
  assert (Hkeys1 : unique_keys d1).
  { rewrite Hd1. apply (insert_keeps_unique_keys d i r (set r) Hkeys Hi); reflexivity. }
  assert (Hi1 : messages d1 !! i = Some (set r)).
  { rewrite Hd1. cbn [messages]. apply list_lookup_insert_eq. eapply lookup_lt_Some; eauto. }
  assert (Hvalid : exists m, _row_to_message (do_update mid fp sz t2 (set r)) = Return m
                             /\ MessageRow.id m = Messages.id r
                             /\ MessageRow.status m = discovered
                             /\ MessageRow.attempts m = (Messages.attempts r + 1)%Z
                             /\ MessageRow.last_error m = Some (strip err)
                             /\ MessageRow.fingerprint m = strip fp).
  { unfold _row_to_message. cbn [do_update set Messages.id Messages.folder Messages.uid
      Messages.uidvalidity Messages.fingerprint Messages.size_bytes Messages.attempts
      Messages.status].
    rewrite Hid, Huid, Hv, Hsz.
    rewrite (bool_decide_eq_false_2 _ Hfolder), (bool_decide_eq_false_2 _ Hfp).
    assert (Hatt' : (0 <=? Messages.attempts r + 1)%Z = true)
      by (apply Z.leb_le; apply Z.leb_le in Hatt; lia).
    rewrite Hatt'. cbn [negb andb]. eexists. split; [reflexivity|]. cbn. auto. }
  destruct Hvalid as (m & Hm & Hmid & Hmst & Hmatt & Hmerr & Hmfp).
  destruct (upsert_message_discovered_existing d1 t2 (Messages.folder r) (Messages.uid r) uv
              mid fp sz i (set r) m Hkeys1 Hi1 eq_refl eq_refl Huv Hm) as [Hup _].
  exists m. eexists. split; [exact Hup|].
  repeat (split; [assumption|]).
  cbn [messages]. rewrite Hd1. cbn [messages]. rewrite !length_insert. reflexivity.
Qed.

(** *** Counting *)

Lemma with_status_cons (st : MessageStatus) (r : Messages.row) (rows : list Messages.row) :
  with_status st (r :: rows)
  = (if bool_decide (Messages.status r = st) then 1 else 0) + with_status st rows.
Proof. unfold with_status. cbn [List.filter]. destruct (bool_decide _); reflexivity. Qed.

Lemma with_status_total (rows : list Messages.row) :
  length rows
  = with_status discovered rows + with_status downloaded rows + with_status failed rows
    + with_status imported rows + with_status skipped_duplicate rows
    + with_status skipped_filtered rows.
Proof.
  induction rows as [|r rows IH]; [reflexivity|].
  rewrite !with_status_cons. cbn [length]. destruct (Messages.status r);
    repeat (case_bool_decide; try discriminate; try congruence); lia.
Qed.

(** X7. [counts_by_status] has an entry for a status exactly when a message
    is in it, the entry is the number of these messages, and the entries add
    up to the number of messages in the ledger. *)
Theorem counts_by_status_spec (d : db) :
  (forall st,
     counts_by_status d !! st
     = match with_status st (messages d) with
       | O => None
       | n => Some (Z.of_nat n)
       end)
  /\ foldr Z.add 0%Z
       (map (fun st => default 0%Z (counts_by_status d !! st))
          [discovered; downloaded; imported; skipped_duplicate; skipped_filtered; failed])
     = Z.of_nat (length (messages d)).
Proof.
  assert (Hlook : forall st,
     counts_by_status d !! st
     = match with_status st (messages d) with
       | O => None
       | n => Some (Z.of_nat n)
       end).
  { intros st. unfold counts_by_status, group_by_status, with_status. cbn [omap list_omap].
    destruct st;
    destruct (List.filter (fun row => bool_decide (Messages.status row = discovered)) _);
    destruct (List.filter (fun row => bool_decide (Messages.status row = downloaded)) _);
    destruct (List.filter (fun row => bool_decide (Messages.status row = failed)) _);
    destruct (List.filter (fun row => bool_decide (Messages.status row = imported)) _);
    destruct (List.filter (fun row => bool_decide (Messages.status row = skipped_duplicate)) _);
    destruct (List.filter (fun row => bool_decide (Messages.status row = skipped_filtered)) _);
    reflexivity. }
  split; [exact Hlook|].
  cbn [map foldr]. rewrite !Hlook, (with_status_total (messages d)).
  destruct (with_status discovered (messages d)), (with_status downloaded (messages d)),
    (with_status failed (messages d)), (with_status imported (messages d)),
    (with_status skipped_duplicate (messages d)), (with_status skipped_filtered (messages d));
    cbn [default from_option]; unfold id; lia.
Qed.

(** *** Reading the ledger *)

Lemma row_to_message_id (r : Messages.row) (m : MessageRow.t) :
  _row_to_message r = Return m ->
  MessageRow.id m = Messages.id r /\ MessageRow.status m = Messages.status r
  /\ MessageRow.eml_sha256 m = strip <$> Messages.eml_sha256 r.
Proof.
  unfold _row_to_message. destruct (_ && _); [|discriminate].
  intros [= <-]. auto.
Qed.

(** The generator yields the models of the rows up to the first that does
    not validate. *)
Lemma yield_rows_split (rows : list Messages.row) :
  let '(ms, err) := yield_rows rows in
  exists done rest,
    rows = done ++ rest
    /\ Forall2 (fun r m => _row_to_message r = Return m) done ms
    /\ match err with
       | None => rest = []
       | Some e => exists r rest', rest = r :: rest' /\ _row_to_message r = Raise e
       end.
Proof.
  induction rows as [|r rows IH]; cbn [yield_rows].
  - exists [], []. split; [reflexivity|]. split; [constructor | reflexivity].
  - destruct (_row_to_message r) as [m|e] eqn:Hr.
    + destruct (yield_rows rows) as [ms err].
      destruct IH as (done & rest & -> & Hdone & Herr).
      exists (r :: done), rest. split; [reflexivity|]. split; [constructor; assumption|].
      exact Herr.
    + exists [], (r :: rows). split; [reflexivity|]. split; [constructor|]. eauto.
Qed.

#[local] Instance by_id_transitive : Transitive by_id.
Proof. intros a b c. unfold by_id. lia. Qed.

#[local] Instance by_id_total : Total by_id.
Proof. intros a b. unfold by_id. lia. Qed.

(** X8. [iter_messages] yields in the order of the ids, and only models of
    rows of the ledger that are in the status asked for; when every row
    validates, each such row is yielded once; when it stops with an error,
    that is the error of a row of the ledger. *)
Theorem iter_messages_in_order (d : db) (status : option MessageStatus) :
  let selected := fun r : Messages.row =>
    match status with
    | Some st => bool_decide (Messages.status r = st)
    | None => true
    end in
  let '(ms, err) := iter_messages d status in
  StronglySorted Z.le (map MessageRow.id ms)
  /\ Forall (fun m => exists r, r ∈ messages d /\ selected r = true
                                /\ _row_to_message r = Return m) ms
  /\ (err = None ->
      map MessageRow.id ms ≡ₚ map Messages.id (List.filter selected (messages d)))
  /\ (forall e, err = Some e ->
        exists r, r ∈ messages d /\ selected r = true /\ _row_to_message r = Raise e).
Proof.
  intros selected.
  assert (Hiter : iter_messages d status
                  = yield_rows (merge_sort by_id (List.filter selected (messages d)))).
  { unfold iter_messages, selected. destruct status as [st|]; [reflexivity|].
    do 2 f_equal. symmetry. clear. induction (messages d) as [|r l IH]; [reflexivity|].
    cbn [List.filter]. rewrite IH. reflexivity. }
  rewrite Hiter.
  set (rows := merge_sort by_id (List.filter selected (messages d))).
  assert (Hsorted : StronglySorted by_id rows) by (apply StronglySorted_merge_sort; apply _).
  assert (Hperm : rows ≡ₚ List.filter selected (messages d))
    by apply merge_sort_Permutation.
  assert (Hin : forall r, r ∈ rows -> r ∈ messages d /\ selected r = true).
  { intros r Hr. rewrite Hperm in Hr. apply list_elem_of_In, List.filter_In in Hr as [Hr Hs].
    split; [apply list_elem_of_In, Hr | exact Hs]. }
  pose proof (yield_rows_split rows) as Hsplit.
  destruct (yield_rows rows) as [ms err].
  destruct Hsplit as (done & rest & Hrows & Hdone & Herr).
  assert (Hids : map MessageRow.id ms = map Messages.id done).
  { clear -Hdone. induction Hdone as [|r m done ms Hr _ IH]; [reflexivity|].
    cbn [map]. rewrite IH. f_equal. apply (row_to_message_id r m Hr). }
  split; [|split; [|split]].
  - rewrite Hids. rewrite Hrows in Hsorted. apply StronglySorted_app_1_l in Hsorted.
    clear -Hsorted. induction Hsorted as [|r l _ IH Hall]; [constructor|].
    cbn [map]. constructor; [exact IH|].
    apply Forall_fmap. eapply Forall_impl; [exact Hall|]. intros x Hx. exact Hx.
  - apply Forall_forall. intros m Hm.
    apply list_elem_of_lookup in Hm as [i Hi].
    destruct (Forall2_lookup_r _ _ _ _ _ Hdone Hi) as (r & Hr & Hrm).
    exists r. destruct (Hin r) as [Hr1 Hr2].
    { rewrite Hrows. apply elem_of_app. left. apply list_elem_of_lookup. eauto. }
    auto.
  - intros ->. subst rest. rewrite app_nil_r in Hrows. subst done.
    rewrite Hids, Hperm. reflexivity.
  - intros e ->. destruct Herr as (r & rest' & -> & Hr).
    exists r. destruct (Hin r) as [Hr1 Hr2].
    { rewrite Hrows. apply elem_of_app. right. apply list_elem_of_here. }
    auto.
Qed.

End LedgerFacts.

(** ** More of the IMAP client *)

Section ImapMoreFacts.
Import Imap.

(** *** Batches of UIDs *)

Lemma slices_concat (fuel idx batch_size : nat) (uids : list Z) :
  0 < batch_size -> length uids <= idx + fuel ->
  concat (slices fuel idx batch_size uids) = drop idx uids.
Proof.
  intros Hsize. revert idx. induction fuel as [|fuel IH]; intros idx Hfuel; cbn [slices].
  - rewrite drop_ge by lia. reflexivity.
  - destruct (Nat.ltb_spec idx (length uids)) as [Hlt|Hge].
    + cbn [concat]. rewrite IH by lia. rewrite <- drop_drop. apply take_drop.
    + rewrite drop_ge by lia. reflexivity.
Qed.

Lemma slices_lengths (fuel idx batch_size : nat) (uids : list Z) :
  0 < batch_size ->
  Forall (fun batch => 0 < length batch <= batch_size) (slices fuel idx batch_size uids).
Proof.
  intros Hsize. revert idx. induction fuel as [|fuel IH]; intros idx; cbn [slices].
  - constructor.
  - destruct (Nat.ltb_spec idx (length uids)) as [Hlt|Hge]; [|constructor].
    constructor; [|apply IH]. rewrite length_take, length_drop. lia.
Qed.

(** X9. With a positive batch size, [iter_uid_batches] hands out every UID
    the search found (from [start_uid] on, when that is above 1) exactly
    once and in ascending order, in batches that are never empty and never
    larger than the batch size, each under the UIDVALIDITY of the SELECT. *)
Theorem iter_uid_batches_spec (uidvalidity : option Z) (uids : list Z)
    (start_uid batch_size : Z) :
  (0 < batch_size)%Z ->
  exists batches,
    iter_uid_batches uidvalidity uids start_uid batch_size = Return batches
    /\ StronglySorted Z.le (concat (map FolderBatch.uids batches))
    /\ concat (map FolderBatch.uids batches)
       ≡ₚ (if (1 <? start_uid)%Z then List.filter (fun uid => (start_uid <=? uid)%Z) uids
           else uids)
    /\ Forall (fun batch => FolderBatch.uidvalidity batch = uidvalidity
                            /\ 0 < length (FolderBatch.uids batch) <= Z.to_nat batch_size)
         batches.
Proof.
  intros Hsize. unfold iter_uid_batches.
  set (wanted := if (1 <? start_uid)%Z then _ else uids).
  destruct (Z.eqb_spec batch_size 0) as [|_]; [lia|].
  destruct (Z.ltb_spec batch_size 0) as [|_]; [lia|].
  eexists. split; [reflexivity|].
  rewrite map_map. cbn [FolderBatch.uids]. rewrite map_id.
  rewrite slices_concat by lia. cbn [drop].
  split; [apply StronglySorted_merge_sort; apply _|].
  split; [apply merge_sort_Permutation|].
  apply Forall_fmap. eapply Forall_impl; [apply slices_lengths; lia|].
  intros batch Hbatch. cbn. split; [reflexivity | exact Hbatch].
Qed.

(** *** The SEARCH response *)

Lemma split_ws_from_token (f : byte -> bool) (cur token rest : bytes) :
  Forall (fun c => f c = false) token ->
  split_ws_from f cur (token ++ rest) = split_ws_from f (rev token ++ cur) rest.
Proof.
  intros Htoken. revert cur. induction Htoken as [|c token Hc _ IH]; intros cur; [reflexivity|].
  cbn [app split_ws_from]. rewrite Hc, IH. cbn [rev]. rewrite <- app_assoc. reflexivity.
Qed.

(** Tokens written one after the other, a space before each. *)
Lemma split_ws_from_spaced (cur : bytes) (tokens : list bytes) :
  Forall (fun t => t <> [] /\ Forall (fun c => bisspace c = false) t) tokens ->
  split_ws_from bisspace cur (concat (map (fun t => bstr " " ++ t) tokens))
  = match cur with [] => [] | _ => [rev cur] end ++ tokens.
Proof.
  intros Htokens. revert cur.
  induction Htokens as [|t tokens [Ht Hws] _ IH]; intros cur.
  - cbn. destruct cur; reflexivity.
  - cbn [map concat]. rewrite <- app_assoc.
    change (bstr " " ++ t ++ ?l) with (" "%byte :: (t ++ l)).
    cbn [split_ws_from].
    replace (bisspace " "%byte) with true by reflexivity.
    assert (Hrest : split_ws_from bisspace []
                      (t ++ concat (map (fun t0 => bstr " " ++ t0) tokens)) = t :: tokens).
    { rewrite split_ws_from_token by exact Hws. rewrite app_nil_r, IH.
      destruct (rev t) eqn:Hrev.
      - apply (f_equal (@rev byte)) in Hrev. rewrite rev_involutive in Hrev. contradiction.
      - rewrite <- Hrev, rev_involutive. reflexivity. }
    rewrite Hrest. destruct cur; reflexivity.
Qed.

Lemma bytes_isdigit_token (t : bytes) :
  bytes_isdigit t = true -> t <> [] /\ Forall (fun c => bisspace c = false) t.
Proof.
  destruct t as [|c t]; [discriminate|]. unfold bytes_isdigit. intros Hd.
  split; [discriminate|]. apply Forall_forall. intros x Hx.
  apply list_elem_of_In in Hx. apply (proj1 (forallb_forall _ _) Hd) in Hx.
  revert Hx. unfold bisdigit, bisspace. destruct x; vm_compute; congruence.
Qed.

(** X10. A SEARCH line is read whole: the line [* SEARCH] followed by any
    number of decimal tokens, a space before each, gives the numbers of
    these tokens in their order, and so does the same line without its
    [* SEARCH]; a line with [* SEARCH] alone gives none. *)
Theorem search_line_uids_tokens (tokens : list bytes) :
  Forall (fun t => bytes_isdigit t = true) tokens ->
  search_line_uids (bstr "* SEARCH" ++ concat (map (fun t => bstr " " ++ t) tokens))
  = map int_of_digits tokens
  /\ search_line_uids (concat (map (fun t => bstr " " ++ t) tokens))
     = map int_of_digits tokens.
Proof.
  intros Hdigits.
  assert (Htokens : Forall (fun t => t <> [] /\ Forall (fun c => bisspace c = false) t) tokens).
  { eapply Forall_impl; [exact Hdigits|]. intros t. apply bytes_isdigit_token. }
  assert (Hall : forallb bytes_isdigit tokens = true).
  { apply forallb_forall. intros t Ht. apply list_elem_of_In in Ht.
    apply (proj1 (Forall_forall _ _) Hdigits t Ht). }
  unfold search_line_uids, split_ws. split.
  - change (bstr "* SEARCH" ++ ?l) with ("*"%byte :: " "%byte :: (bstr "SEARCH" ++ l)).
    cbn [split_ws_from]. replace (bisspace "*"%byte) with false by reflexivity.
    replace (bisspace " "%byte) with true by reflexivity. cbn [rev app].
    rewrite (split_ws_from_token bisspace [] (bstr "SEARCH")), split_ws_from_spaced
      by first [exact Htokens | repeat constructor].
    remember (rev (bstr "SEARCH") ++ []) as word eqn:Hword. vm_compute in Hword. subst word.
    cbn [rev app]. rewrite !bool_decide_eq_true_2 by reflexivity. cbn [andb].
    destruct tokens; [reflexivity|]. rewrite Hall. reflexivity.
  - rewrite split_ws_from_spaced by exact Htokens. cbn [app].
    destruct tokens as [|t0 [|t1 tokens]]; [reflexivity| |].
    + rewrite Hall. reflexivity.
    + destruct (bool_decide (t0 = bstr "*")) eqn:Hstar.
      * apply bool_decide_eq_true in Hstar. subst t0.
        apply Forall_cons in Hdigits as [Hbad _]. discriminate Hbad.
      * cbn [andb]. rewrite Hall. reflexivity.
Qed.

(** *** The FETCH response *)

Lemma sized_literal_sound (lines : list bytes) (x : bytes) :
  sized_literal lines = Some x ->
  exists i line caps,
    lines !! i = Some line
    /\ re_search_groups _FETCH_LITERAL_RE line = Some caps
    /\ lines !! S i = Some x
    /\ Z.of_nat (length x) = int_of_digits (default [] (group caps "n")).
Proof.
  induction lines as [|line rest IH]; [discriminate|]. cbn [sized_literal].
  assert (Hlater : sized_literal rest = Some x ->
            exists i line0 caps,
              (line :: rest) !! i = Some line0
              /\ re_search_groups _FETCH_LITERAL_RE line0 = Some caps
              /\ (line :: rest) !! S i = Some x
              /\ Z.of_nat (length x) = int_of_digits (default [] (group caps "n"))).
  { intros Hx. destruct (IH Hx) as (i & line0 & caps & Hi & Hcaps & Hnext & Hlen).
    exists (S i), line0, caps. auto. }
  destruct (re_search_groups _FETCH_LITERAL_RE line) as [caps|] eqn:Hcaps; [|exact Hlater].
  destruct rest as [|literal rest]; [discriminate|].
  destruct (Z.eqb_spec (Z.of_nat (length literal))
              (int_of_digits (default [] (group caps "n")))) as [Hlen|_]; [|exact Hlater].
  intros [= <-]. exists 0, line, caps. auto.
Qed.

Lemma longest_spec (first : bytes) (more : list bytes) :
  longest first more ∈ first :: more
  /\ Forall (fun line => length line <= length (longest first more)) (first :: more).
Proof.
  unfold longest. revert first. induction more as [|line more IH]; intros first; cbn [fold_left].
  - split; [apply list_elem_of_here | repeat constructor].
  - destruct (Nat.ltb_spec (length first) (length line)) as [Hlt|Hge].
    + destruct (IH line) as [Hin Hall]. split.
      * apply list_elem_of_further, Hin.
      * apply Forall_cons in Hall as [Hline Hmore].
        constructor; [lia|]. constructor; assumption.
    + destruct (IH first) as [Hin Hall]. split.
      * apply elem_of_cons in Hin as [->|Hin]; [apply list_elem_of_here|].
        do 2 apply list_elem_of_further. exact Hin.
      * apply Forall_cons in Hall as [Hfirst Hmore].
        constructor; [exact Hfirst|]. constructor; [lia | exact Hmore].
Qed.

(** X11. [_extract_literal] makes nothing up.  What it returns is one of
    the lines of the response: either the line that follows a line ending in
    a size [{n}] and has exactly [n] bytes, or, when there is no such pair,
    a line of at least 64 bytes that is as long as every line without FETCH
    in it that is more than a closing bracket.  A response without lines is
    an error. *)
Theorem extract_literal_sound (lines : list bytes) (x : bytes) :
  _extract_literal lines = Return x ->
  x ∈ lines
  /\ ((exists i line caps,
         lines !! i = Some line
         /\ re_search_groups _FETCH_LITERAL_RE line = Some caps
         /\ lines !! S i = Some x
         /\ Z.of_nat (length x) = int_of_digits (default [] (group caps "n")))
      \/ (sized_literal lines = None /\ 64 <= length x
          /\ forall line, line ∈ lines -> contains line (bstr "FETCH") = false ->
                          bstrip line <> bstr ")" -> bstrip line <> [] ->
                          length line <= length x)).
Proof.
  unfold _extract_literal. destruct lines as [|l0 lines]; [discriminate|].
  destruct (sized_literal (l0 :: lines)) as [literal|] eqn:Hsized.
  - intros [= <-]. pose proof (sized_literal_sound _ _ Hsized) as Hpair. split; [|left; exact Hpair].
    destruct Hpair as (i & _ & _ & _ & _ & Hx & _). apply list_elem_of_lookup. eauto.
  - set (keep := fun line : bytes => _).
    set (literal := match List.filter keep (l0 :: lines) with
                    | c :: more => longest c more
                    | [] => longest l0 lines
                    end).
    destruct (bool_decide (literal = []) || (length literal <? 64)%nat) eqn:Hshort;
      [discriminate|].
    intros [= <-]. apply orb_false_iff in Hshort as [_ Hlen].
    apply Nat.ltb_ge in Hlen.
    assert (Hkeep : forall line, line ∈ List.filter keep (l0 :: lines) -> line ∈ l0 :: lines).
    { intros line Hline. apply list_elem_of_In, List.filter_In in Hline as [Hline _].
      apply list_elem_of_In, Hline. }
    split; [|right; split; [reflexivity|split; [exact Hlen|]]].
    + unfold literal. destruct (List.filter keep (l0 :: lines)) as [|c more] eqn:Hcand.
      * apply (longest_spec l0 lines).
      * apply Hkeep, (longest_spec c more).
    + intros line Hline Hfetch Hbracket Hblank.
      assert (Hin : line ∈ List.filter keep (l0 :: lines)).
      { apply list_elem_of_In, List.filter_In. split; [apply list_elem_of_In, Hline|].
        unfold keep. rewrite Hfetch.
        rewrite (bool_decide_eq_false_2 _ Hbracket), (bool_decide_eq_false_2 _ Hblank).
        reflexivity. }
      unfold literal. destruct (List.filter keep (l0 :: lines)) as [|c more].
      * apply elem_of_nil in Hin. contradiction.
      * destruct (longest_spec c more) as [_ Hall].
        apply (proj1 (Forall_forall _ _) Hall line Hin).
Qed.

(** *** Quoting a mailbox name *)

Section Escapes.
Context {C : Type} `{EqDecision C}.
Variables (b q : C).
Hypothesis b_not_q : b <> q.

Lemma replace_char_escapes (s : list C) :
  replace_char q [b; q] (replace_char b [b; b] s) = flat_map (escaped_char b q) s.
Proof using b_not_q.
  unfold replace_char, escaped_char. induction s as [|c s IH]; [reflexivity|].
  cbn [flat_map]. rewrite flat_map_app, IH. f_equal.
  destruct (decide (c = b)) as [->|Hc].
  - rewrite (bool_decide_eq_true_2 (b = b)) by reflexivity. cbn [flat_map app].
    rewrite (bool_decide_eq_false_2 (b = q)) by exact b_not_q. reflexivity.
  - rewrite (bool_decide_eq_false_2 (c = b)) by exact Hc. cbn [flat_map app].
    rewrite app_nil_r. reflexivity.
Qed.

Lemma escaped_head (s : list C) : forall t, flat_map (escaped_char b q) s = q :: t -> False.
Proof using b_not_q.
  destruct s as [|c s]; [discriminate|]. cbn [flat_map]. unfold escaped_char.
  intros t. repeat case_bool_decide; cbn [app]; intros [= ? ?]; congruence.
Qed.

Lemma replace_pair_unquote (s : list C) :
  replace_pair b q [q] (flat_map (escaped_char b q) s) = flat_map (doubled_char b) s.
Proof using b_not_q.
  induction s as [|c s IH]; [reflexivity|].
  cbn [flat_map]. unfold escaped_char at 1, doubled_char at 1.
  destruct (decide (c = b)) as [->|Hcb].
  - rewrite !(bool_decide_eq_true_2 (b = b)) by reflexivity. cbn [app replace_pair].
    rewrite (bool_decide_eq_true_2 (b = b)) by reflexivity.
    rewrite (bool_decide_eq_false_2 (b = q)) by exact b_not_q. cbn [andb]. f_equal.
    destruct (flat_map (escaped_char b q) s) as [|y t] eqn:Hs.
    + rewrite <- IH. reflexivity.
    + cbn [replace_pair]. destruct (decide (y = q)) as [->|Hy].
      * exfalso. exact (escaped_head s t Hs).
      * rewrite (bool_decide_eq_false_2 (y = q)) by exact Hy.
        cbn [andb]. f_equal. exact IH.
  - rewrite !(bool_decide_eq_false_2 (c = b)) by exact Hcb.
    destruct (decide (c = q)) as [->|Hcq].
    + rewrite (bool_decide_eq_true_2 (q = q)) by reflexivity. cbn [app replace_pair].
      rewrite (bool_decide_eq_true_2 (b = b)), (bool_decide_eq_true_2 (q = q)) by reflexivity.
      cbn [andb]. rewrite IH. reflexivity.
    + rewrite (bool_decide_eq_false_2 (c = q)) by exact Hcq. cbn [app].
      destruct (flat_map (escaped_char b q) s) as [|y t] eqn:Hs.
      * rewrite <- IH. reflexivity.
      * cbn [replace_pair]. rewrite (bool_decide_eq_false_2 (c = b)) by exact Hcb.
        cbn [andb]. f_equal. exact IH.
Qed.

Lemma replace_pair_undouble (s : list C) :
  replace_pair b b [b] (flat_map (doubled_char b) s) = s.
Proof using Type.
  induction s as [|c s IH]; [reflexivity|].
  cbn [flat_map]. unfold doubled_char at 1.
  destruct (decide (c = b)) as [->|Hcb].
  - rewrite (bool_decide_eq_true_2 (b = b)) by reflexivity. cbn [app replace_pair].
    rewrite (bool_decide_eq_true_2 (b = b)) by reflexivity. cbn [andb app].
    rewrite IH. reflexivity.
  - rewrite (bool_decide_eq_false_2 (c = b)) by exact Hcb. cbn [app].
    destruct (flat_map (doubled_char b) s) as [|y t] eqn:Hs.
    + rewrite <- IH. reflexivity.
    + cbn [replace_pair]. rewrite (bool_decide_eq_false_2 (c = b)) by exact Hcb.
      cbn [andb]. f_equal. exact IH.
Qed.

End Escapes.

Lemma to_N_byte_of_N (c : N) : (c < 256)%N -> Byte.to_N (Fingerprint.byte_of_N c) = c.
Proof.
  intros Hc. unfold Fingerprint.byte_of_N.
  destruct (Byte.of_N c) as [b|] eqn:Hb.
  - apply Byte.to_of_N in Hb. exact Hb.
  - apply Byte.of_N_None_iff in Hb. lia.
Qed.

Lemma byte_of_N_eq (c a : N) :
  (c < 256)%N -> (a < 256)%N ->
  bool_decide (Fingerprint.byte_of_N c = Fingerprint.byte_of_N a) = bool_decide (c = a).
Proof.
  intros Hc Ha. apply bool_decide_ext. split; [|congruence].
  intros Heq. apply (f_equal Byte.to_N) in Heq. rewrite !to_N_byte_of_N in Heq; assumption.
Qed.

Lemma encode_ascii_escaped (s : pystr) :
  Forall (fun c => (c < 128)%N) s ->
  encode_ascii (flat_map (escaped_char 92%N 34%N) s)
  = flat_map (escaped_char BSL DQ) (encode_ascii s).
Proof.
  unfold encode_ascii. induction 1 as [|c s Hc _ IH]; [reflexivity|].
  cbn [flat_map map]. rewrite map_app, IH. f_equal.
  unfold escaped_char.
  change BSL with (Fingerprint.byte_of_N 92). change DQ with (Fingerprint.byte_of_N 34).
  rewrite !byte_of_N_eq by lia.
  destruct (bool_decide (c = 92%N)); [reflexivity|].
  destruct (bool_decide (c = 34%N)); reflexivity.
Qed.

Lemma decode_encode_ascii (s : pystr) :
  Forall (fun c => (c < 128)%N) s -> decode_ascii_replace (encode_ascii s) = s.
Proof.
  unfold decode_ascii_replace, encode_ascii. induction 1 as [|c s Hc _ IH]; [reflexivity|].
  cbn [map]. rewrite IH, to_N_byte_of_N by lia.
  destruct (N.ltb_spec c 128); [reflexivity | lia].
Qed.

Lemma strip_by_ends {C : Type} (f : C -> bool) (c d : C) (body : list C) :
  f c = false -> f d = false -> strip_by f (c :: body ++ [d]) = c :: body ++ [d].
Proof.
  intros Hc Hd. unfold strip_by, rstrip_by, lstrip_by. cbn [drop_while]. rewrite Hc.
  change (c :: body ++ [d]) with ((c :: body) ++ [d]).
  rewrite rev_app_distr. cbn [rev app drop_while]. rewrite Hd.
  change (d :: rev body ++ [c]) with ([d] ++ rev (c :: body)).
  rewrite rev_app_distr, rev_involutive. reflexivity.
Qed.

(** A quoted string is read as what stands between the quotes, unescaped. *)
Lemma decode_mailbox_name_quoted `{ImapLib} (body : bytes) :
  let text := decode_ascii_replace
                (replace_pair BSL BSL [BSL] (replace_pair BSL DQ [DQ] body)) in
  decoder_keeps text ->
  _decode_mailbox_name (DQ :: body ++ [DQ]) = text.
Proof.
  intros text Hkeep. unfold _decode_mailbox_name, bstrip.
  rewrite strip_by_ends by reflexivity.
  rewrite (bool_decide_eq_false_2 (DQ :: body ++ [DQ] = [])) by discriminate.
  rewrite (bool_decide_eq_false_2 (map bupper (DQ :: body ++ [DQ]) = bstr "NIL"))
    by (cbn [map]; intros Heq; discriminate Heq).
  cbn [orb].
  assert (Hstart : startswith (DQ :: body ++ [DQ]) [DQ] = true) by reflexivity.
  assert (Hend : endswith (DQ :: body ++ [DQ]) [DQ] = true).
  { unfold endswith. change (DQ :: body ++ [DQ]) with ((DQ :: body) ++ [DQ]).
    rewrite rev_app_distr. reflexivity. }
  assert (Hlen : (2 <=? length (DQ :: body ++ [DQ]))%nat = true).
  { apply Nat.leb_le. cbn [length]. rewrite length_app. simpl. lia. }
  rewrite Hstart, Hend, Hlen. cbn [andb].
  replace (take (length (DQ :: body ++ [DQ]) - 2) (drop 1 (DQ :: body ++ [DQ]))) with body.
  2:{ cbn [drop length]. rewrite length_app. cbn [length].
      replace (S (length body + 1) - 2) with (length body) by lia.
      rewrite drop_0, take_app_length. reflexivity. }
  fold text. unfold decoder_keeps in Hkeep.
  destruct DecodeUTF7 as [decoder|]; [|reflexivity].
  destruct Hkeep as [-> | ->]; reflexivity.
Qed.

(** X12. What [_imap_quote] writes, [_decode_mailbox_name] reads back: for
    an ASCII mailbox name, decoding the quoted form gives the name without
    the whitespace around it, whatever quotes and backslashes it holds
    (granted that the UTF-7 decoder, if the library has one, leaves the
    name alone). *)
Theorem imap_quote_decoded `{ImapLib} (name : pystr) :
  Forall (fun c => (c < 128)%N) name ->
  decoder_keeps (strip name) ->
  _decode_mailbox_name (encode_ascii (_imap_quote name)) = strip name.
Proof.
  intros Hascii Hkeep.
  assert (Hstripped : Forall (fun c => (c < 128)%N) (strip name)).
  { destruct (strip_by_split isspace name) as (l & r & Hname & _ & _).
    fold (strip name) in Hname. rewrite Hname in Hascii.
    apply Forall_app in Hascii as [_ Hascii]. apply Forall_app in Hascii as [Hascii _].
    exact Hascii. }
  unfold _imap_quote.
  assert (Hbody : forall s, Forall (fun c => (c < 128)%N) s -> decoder_keeps s ->
            _decode_mailbox_name
              (encode_ascii
                 ([34%N] ++ replace_char 34%N [92; 34]%N (replace_char 92%N [92; 92]%N s)
                    ++ [34%N])) = s).
  { intros s Hs Hk. unfold encode_ascii. rewrite !map_app. cbn [map app].
    change (Fingerprint.byte_of_N 34) with DQ.
    fold (encode_ascii (replace_char 34%N [92; 34]%N (replace_char 92%N [92; 92]%N s))).
    rewrite (replace_char_escapes 92%N 34%N) by discriminate.
    rewrite encode_ascii_escaped by exact Hs.
    rewrite decode_mailbox_name_quoted.
    - rewrite (replace_pair_unquote BSL DQ) by discriminate.
      rewrite replace_pair_undouble. apply decode_encode_ascii, Hs.
    - cbv zeta. rewrite (replace_pair_unquote BSL DQ) by discriminate.
      rewrite replace_pair_undouble, decode_encode_ascii by exact Hs. exact Hk. }
  destruct (strip name) as [|c s] eqn:Hs.
  - apply (Hbody [] Hstripped Hkeep).
  - apply (Hbody (c :: s) Hstripped Hkeep).
Qed.

End ImapMoreFacts.

Section ListResponseFacts.
Context `{Imap.ImapLib}.
Import Imap.

(** The de-duplication keeps the first of equals, in place. *)
Lemma dedupe_spec (names : list pystr) (seen : gset pystr) :
  NoDup (Imap.dedupe names seen)
  /\ (forall x, x ∈ Imap.dedupe names seen <-> x ∈ names /\ x ∉ seen)
  /\ Imap.dedupe names seen `sublist_of` names.
Proof.
  revert seen. induction names as [|name names IH]; intros seen; cbn [Imap.dedupe].
  - split; [constructor|]. split; [|reflexivity].
    intros x. rewrite elem_of_nil. tauto.
  - destruct (decide (name ∈ seen)) as [Hin|Hout].
    + rewrite (bool_decide_eq_true_2 _ Hin). destruct (IH seen) as (Hnd & Helem & Hsub).
      split; [exact Hnd|]. split; [|apply sublist_cons, Hsub].
      intros x. rewrite Helem, elem_of_cons. split; [tauto|].
      intros [[->|Hx] Hseen]; [contradiction | tauto].
    + rewrite (bool_decide_eq_false_2 _ Hout).
      destruct (IH ({[name]} ∪ seen)) as (Hnd & Helem & Hsub).
      split; [|split; [|apply sublist_skip, Hsub]].
      * constructor; [|exact Hnd]. rewrite Helem. intros [_ Hn]. apply Hn.
        apply elem_of_union. left. apply elem_of_singleton. reflexivity.
      * intros x. rewrite !elem_of_cons, Helem. split.
        -- intros [->|[Hx Hseen]]; [tauto|]. split; [tauto|].
           intros Hs. apply Hseen, elem_of_union. right. exact Hs.
        -- intros [[->|Hx] Hseen]; [tauto|].
           destruct (decide (x = name)) as [->|Hne]; [tauto|]. right. split; [exact Hx|].
           intros [Hs|Hs]%elem_of_union; [|contradiction].
           apply elem_of_singleton in Hs. contradiction.
Qed.


Lemma parse_lines_names (lines : list bytes) (out : list pystr) :
  Forall (fun name => name <> []) out ->
  Forall (fun name => name <> []) (parse_lines lines out).
Proof.
  revert out. induction lines as [lines IH] using (induction_ltof1 _ (@length bytes)).
  intros out Hout.
  destruct lines as [|l rest]; [exact Hout|]. cbn [parse_lines].
  assert (Hrest : forall out', Forall (fun name => name <> []) out' ->
                               Forall (fun name => name <> []) (parse_lines rest out'))
    by (intros out'; apply IH; unfold ltof; simpl; lia).
  assert (Happend : forall raw_name,
            Forall (fun name => name <> [])
              match _decode_mailbox_name raw_name with
              | [] => out
              | c :: name => out ++ [c :: name]
              end).
  { intros raw_name. destruct (_decode_mailbox_name raw_name) as [|c name]; [exact Hout|].
    apply Forall_app. split; [exact Hout|]. repeat constructor. discriminate. }
  destruct (startswith (bstrip l) (bstr "+")); [apply Hrest, Hout|].
  destruct (re_match _LIST_MAILBOX_RE _) as [[caps n]|]; [|apply Hrest, Hout].
  destruct (re_match _LITERAL_RE _) as [m|].
  - destruct rest as [|next rest']; [exact Hout|].
    apply IH; [unfold ltof; simpl; lia | apply Happend].
  - apply Hrest, Happend.
Qed.

(** X29. Whatever the LIST response, [_parse_list_response] returns no
    mailbox name twice and no empty name. *)
Theorem parse_list_response_names (lines : list bytes) :
  NoDup (_parse_list_response lines)
  /\ Forall (fun name => name <> []) (_parse_list_response lines).
Proof.
  unfold _parse_list_response.
  destruct (dedupe_spec (parse_lines lines []) ∅) as (Hnd & Helem & _).
  split; [exact Hnd|]. apply Forall_forall. intros name Hname.
  apply Helem in Hname as [Hname _].
  assert (Hall : Forall (fun name => name <> []) (parse_lines lines []))
    by (apply parse_lines_names; constructor).
  apply (proj1 (Forall_forall _ _) Hall name Hname).
Qed.

End ListResponseFacts.

(** ** Labels and settings *)

Section CustomLabelFacts.
Context `{Labels.UnicodeRe}.
Import Labels.

Lemma sub_runs_all {C : Type} (p : C -> bool) (repl : list C) (P : C -> Prop)
    (in_run : bool) (s : list C) :
  Forall P repl -> (forall c, p c = false -> P c) -> Forall P (sub_runs p repl in_run s).
Proof.
  intros Hrepl Hkeep. revert in_run. induction s as [|c s IH]; intros in_run; [constructor|].
  cbn [sub_runs]. destruct (p c) eqn:Hc.
  - destruct in_run; [apply IH|]. apply Forall_app. split; [exact Hrepl | apply IH].
  - constructor; [apply Hkeep, Hc | apply IH].
Qed.

Lemma sub_runs_none {C : Type} (p : C -> bool) (repl : list C) (s : list C) :
  Forall (fun c => p c = false) s -> sub_runs p repl false s = s.
Proof.
  induction 1 as [|c s Hc _ IH]; [reflexivity|]. cbn [sub_runs]. rewrite Hc, IH. reflexivity.
Qed.

Lemma replace_char_absent {C : Type} `{EqDecision C} (old : C) (new s : list C) :
  Forall (fun c => c <> old) s -> replace_char old new s = s.
Proof.
  unfold replace_char. induction 1 as [|c s Hc _ IH]; [reflexivity|].
  cbn [flat_map]. rewrite (bool_decide_eq_false_2 _ Hc), IH. reflexivity.
Qed.

(** X13. The custom label of a folder is the prefix, a slash, and the folder
    name trimmed of whitespace and slashes, with every run of characters
    other than word characters, [.], [/], space and [-] replaced by one
    underscore.  Only such characters are left, so the replacement of
    backslashes that follows finds none; a name made of such characters
    passes unchanged. *)
Theorem folder_to_custom_label_safe (prefix folder : pystr) :
  let trimmed := strip_by (fun c => bool_decide (c ∈ ustr "/")) (strip folder) in
  let safe := sub_runs (fun c => negb (label_char c)) (ustr "_") false trimmed in
  folder_to_custom_label prefix folder
  = match prefix with [] => safe | _ :: _ => prefix ++ ustr "/" ++ safe end
  /\ Forall (fun c => label_char c = true) safe
  /\ (92%N ∉ safe)
  /\ (Forall (fun c => label_char c = true) trimmed -> safe = trimmed).
Proof.
  intros trimmed safe.
  assert (Hsafe : Forall (fun c => label_char c = true) safe).
  { apply sub_runs_all.
    - repeat constructor. unfold label_char. rewrite word_char_ascii by reflexivity. reflexivity.
    - intros c Hc. apply negb_false_iff in Hc. exact Hc. }
  assert (Hback : Forall (fun c => c <> 92%N) safe).
  { eapply Forall_impl; [exact Hsafe|]. intros c Hc ->.
    unfold label_char in Hc. rewrite word_char_ascii in Hc by reflexivity. discriminate Hc. }
  split; [|split; [exact Hsafe|split]].
  - unfold folder_to_custom_label, _SAFE_LABEL_RE. fold trimmed.
    rewrite re_sub_plus_chr. fold safe. rewrite replace_char_absent by exact Hback.
    reflexivity.
  - intros Hin. apply (proj1 (Forall_forall _ _) Hback _ Hin). reflexivity.
  - intros Hall. apply sub_runs_none. eapply Forall_impl; [exact Hall|].
    intros c Hc. cbv beta. rewrite Hc. reflexivity.
Qed.

(** X14. A label is created once.  When [ensure] has returned an id that is
    not empty, the id is in the cache under the trimmed name, and any later
    [ensure] of a name that trims to the same text returns this id from the
    cache, without a request and without touching the cache, whatever the
    API would have answered. *)
Theorem ensure_cached (create create' : pystr -> result (option pystr))
    (cache cache' : gmap pystr pystr) (name name' : pystr) (id : pystr)
    (requests : list pystr) :
  ensure create cache name = (Return id, cache', requests) ->
  id <> [] -> strip name' = strip name ->
  cache' !! strip name = Some id
  /\ ensure create' cache' name' = (Return id, cache', []).
Proof.
  unfold ensure. intros Hfirst Hid ->.
  destruct (strip name) as [|c normalized] eqn:Hname; [discriminate|].
  assert (Hcached : cache' !! (c :: normalized) = Some id).
  { destruct (cache !! (c :: normalized)) as [[|x existing]|] eqn:Hc.
    - destruct (create (c :: normalized)) as [[label_id|]|e]; try discriminate.
      injection Hfirst as <- <- _. apply lookup_insert_eq.
    - injection Hfirst as <- <- _. exact Hc.
    - destruct (create (c :: normalized)) as [[label_id|]|e]; try discriminate.
      injection Hfirst as <- <- _. apply lookup_insert_eq. }
  split; [exact Hcached|]. rewrite Hcached.
  destruct id as [|x id]; [contradiction|]. reflexivity.
Qed.

End CustomLabelFacts.

Section SettingsFacts.
Context `{Unicode} `{Settings.PyRepr}.
Import Settings.

Lemma normalized_spec (value : list pystr) :
  match normalized value with
  | Return addresses =>
      addresses
      = omap (fun raw => match lower (strip raw) with
                         | [] => None
                         | (_ :: _) as lowered => Some lowered
                         end) value
      /\ Forall (fun a => contains a (ustr "@") = true) addresses
  | Raise e =>
      exists raw, raw ∈ value /\ lower (strip raw) <> []
                  /\ contains (lower (strip raw)) (ustr "@") = false
                  /\ e = ValueError (ustr "Invalid email address in target_addresses: "
                                       ++ repr raw)
  end.
Proof.
  induction value as [|addr more IH]; cbn [normalized omap list_omap].
  - split; [reflexivity | constructor].
  - destruct (lower (strip addr)) as [|c lowered] eqn:Hlow.
    + destruct (normalized more) as [rest|e]; [exact IH|].
      destruct IH as (raw & Hin & Hrest). exists raw. split; [|exact Hrest].
      apply list_elem_of_further, Hin.
    + destruct (contains (c :: lowered) (ustr "@")) eqn:Hat; cbn [negb].
      * destruct (normalized more) as [rest|e].
        -- destruct IH as [-> Hall]. split; [reflexivity|]. constructor; assumption.
        -- destruct IH as (raw & Hin & Hrest). exists raw. split; [|exact Hrest].
           apply list_elem_of_further, Hin.
      * exists addr. split; [apply list_elem_of_here|]. rewrite Hlow.
        split; [discriminate|]. split; [exact Hat | reflexivity].
Qed.


End SettingsFacts.

Section LabelPrefixFacts.
Context `{Labels.UnicodeRe}.
Import Labels Settings.

(** What [strip] leaves begins with a character it does not strip. *)
Lemma strip_by_head {C : Type} (f : C -> bool) (s : list C) (c : C) (r : list C) :
  strip_by f s = c :: r -> f c = false.
Proof.
  unfold strip_by, rstrip_by, lstrip_by. intros Hs.
  destruct (drop_while_split f (rev (drop_while f s))) as (l & Hrev & _).
  apply (f_equal (@rev C)) in Hrev. rewrite rev_involutive, rev_app_distr, Hs in Hrev.
  apply (drop_while_head f s c (r ++ rev l)). exact Hrev.
Qed.

Lemma strip_by_nonempty {C : Type} (f : C -> bool) (c : C) (t : list C) :
  f c = false -> strip_by f (c :: t) <> [].
Proof.
  intros Hc. unfold strip_by, rstrip_by, lstrip_by. cbn [drop_while]. rewrite Hc.
  cbn [rev]. rewrite drop_while_app. intros Hnil.
  apply (f_equal (@rev C)) in Hnil. rewrite rev_involutive in Hnil. cbn [rev] in Hnil.
  destruct (forallb f (rev t)).
  - cbn [drop_while] in Hnil. rewrite Hc in Hnil. discriminate Hnil.
  - destruct (drop_while f (rev t)); discriminate Hnil.
Qed.

(** X30. A validated prefix keeps the label cache from refusing a name.
    With the prefix [_label_prefix_not_blank] returns, the custom label of
    any folder is not blank, so [ensure] never turns it down as blank: when
    it fails, it has asked the API for the trimmed name, and the cache is as
    it was. *)
Theorem custom_label_not_blank (value prefix folder : pystr)
    (create : pystr -> result (option pystr)) (cache : gmap pystr pystr) :
  _label_prefix_not_blank value = Return prefix ->
  let name := folder_to_custom_label prefix folder in
  strip name <> []
  /\ startswith name (prefix ++ ustr "/") = true
  /\ (forall e cache' requests,
        ensure create cache name = (Raise e, cache', requests) ->
        requests = [strip name] /\ cache' = cache).
Proof.
  intros Hprefix name. unfold _label_prefix_not_blank in Hprefix.
  destruct (strip value) as [|c p] eqn:Hvalue; [discriminate|]. injection Hprefix as <-.
  assert (Hc : isspace c = false) by (apply (strip_by_head isspace value c p), Hvalue).
  assert (Hname : exists rest, name = c :: p ++ ustr "/" ++ rest).
  { unfold name, folder_to_custom_label. eexists. reflexivity. }
  destruct Hname as [rest Hname].
  assert (Hblank : strip name <> []) by (rewrite Hname; apply strip_by_nonempty, Hc).
  split; [exact Hblank|]. split.
  - rewrite Hname. clear. change (ustr "/") with [47%N]. cbn [app startswith].
    rewrite bool_decide_eq_true_2 by reflexivity. cbn [andb].
    induction p as [|x p IH]; cbn [app startswith].
    + rewrite bool_decide_eq_true_2 by reflexivity. reflexivity.
    + rewrite bool_decide_eq_true_2 by reflexivity. exact IH.
  - intros e cache' requests. unfold ensure.
    destruct (strip name) as [|x normalized]; [contradiction|].
    destruct (cache !! (x :: normalized)) as [[|y existing]|].
    + destruct (create (x :: normalized)) as [[label_id|]|e']; intros [= <- <- <-]; auto.
    + discriminate.
    + destruct (create (x :: normalized)) as [[label_id|]|e']; intros [= <- <- <-]; auto.
Qed.

End LabelPrefixFacts.

(** ** Mailboxes and checkpoints *)

Section MailboxFacts.
Import StateDb Orchestrator.

(** X16. [_filter_mailboxes] keeps, in their order, exactly the mailboxes
    that are not excluded and, when the include list has an entry that is
    not blank, are included; names in the two lists count trimmed, blank
    ones not at all, and an exclusion wins over an inclusion. *)
Theorem filter_mailboxes_spec (folder_include folder_exclude mailboxes : list pystr) :
  let include := stripped_names folder_include in
  let exclude := stripped_names folder_exclude in
  let kept := _filter_mailboxes folder_include folder_exclude mailboxes in
  (forall m, m ∈ kept <-> m ∈ mailboxes /\ (m ∉ exclude) /\ (include = ∅ \/ m ∈ include))
  /\ kept `sublist_of` mailboxes
  /\ (forall name, name ∈ include <-> name <> [] /\ exists raw, raw ∈ folder_include
                                                               /\ name = strip raw).
Proof.
  intros include exclude kept. subst kept. unfold _filter_mailboxes. fold include exclude.
  split; [|split].
  - induction mailboxes as [|mailbox more IH]; intros m; cbn [kept_mailboxes].
    + rewrite elem_of_nil. tauto.
    + rewrite (elem_of_cons more).
      destruct (decide (include = ∅)) as [Hinc|Hinc].
      * rewrite (bool_decide_eq_true_2 _ Hinc). cbn [negb andb].
        destruct (decide (mailbox ∈ exclude)) as [Hex|Hex].
        -- rewrite (bool_decide_eq_true_2 _ Hex), IH. split; [tauto|].
           intros [[->|Hm] [Hout Hin]]; [contradiction | tauto].
        -- rewrite (bool_decide_eq_false_2 _ Hex), elem_of_cons, IH. split.
           ++ intros [->|Hm]; tauto.
           ++ intros [[->|Hm] Hrest]; tauto.
      * rewrite (bool_decide_eq_false_2 _ Hinc). cbn [negb andb].
        destruct (decide (mailbox ∈ include)) as [Hin|Hin].
        -- rewrite (bool_decide_eq_true_2 _ Hin). cbn [negb].
           destruct (decide (mailbox ∈ exclude)) as [Hex|Hex].
           ++ rewrite (bool_decide_eq_true_2 _ Hex), IH. split; [tauto|].
              intros [[->|Hm] [Hout Hrest]]; [contradiction | tauto].
           ++ rewrite (bool_decide_eq_false_2 _ Hex), elem_of_cons, IH. split.
              ** intros [->|Hm]; tauto.
              ** intros [[->|Hm] Hrest]; tauto.
        -- rewrite (bool_decide_eq_false_2 _ Hin). cbn [negb]. rewrite IH. split; [tauto|].
           intros [[->|Hm] [Hout [Hempty|Hinc']]]; try contradiction; tauto.
  - induction mailboxes as [|mailbox more IH]; [reflexivity|]. cbn [kept_mailboxes].
    destruct (negb (bool_decide (include = ∅)) && negb (bool_decide (mailbox ∈ include)));
      [apply sublist_cons, IH|].
    destruct (bool_decide (mailbox ∈ exclude)); [apply sublist_cons, IH | apply sublist_skip, IH].
  - intros name. unfold include, stripped_names.
    rewrite elem_of_list_to_set, list_elem_of_omap. split.
    + intros (raw & Hraw & Hsome). destruct (strip raw) as [|c l] eqn:Hs; [discriminate|].
      injection Hsome as <-. split; [discriminate|]. exists raw. auto.
    + intros [Hname (raw & Hraw & ->)]. exists raw. split; [exact Hraw|].
      destruct (strip raw); [contradiction | reflexivity].
Qed.

(** X17. Where a run starts.  After [reset_skipped_and_failed] every folder
    is read again from UID 1; after a checkpoint [m] of at least 1 has been
    written for a folder, the next run starts that folder at [m + 1]. *)
Theorem start_uid_resumes (d : db) (name : pystr) :
  (forall row, get_folder (reset_skipped_and_failed d).2 name = Return row ->
               start_uid row = 1%Z)
  /\ (forall now uv m r d',
        upsert_folder d now name uv (Some m) = (Return r, d') -> (1 <= m)%Z ->
        exists row, get_folder d' name = Return (Some row)
                    /\ start_uid (Some row) = (m + 1)%Z).
Proof.
  split.
  - intros row. unfold get_folder, reset_skipped_and_failed. cbn [snd folders].
    rewrite find_map_same by (intros f; reflexivity).
    destruct (List.find (has_name name) (folders d)) as [f|]; cbn [fmap option_fmap option_map].
    + unfold folder_row_of. cbn [set_last_uid_seen Folders.name Folders.uidvalidity
        Folders.last_uid_seen Folders.created_at Folders.updated_at].
      destruct (_ && _); [|discriminate]. intros [= <-]. reflexivity.
    + intros [= <-]. reflexivity.
  - intros now uv m r d' Hup Hm.
    destruct (upsert_folder_row d now name uv (Some m)) as (d1 & Heq & Hfind & _).
    rewrite Hup in Heq.
    destruct (folder_row_of (upserted_folder d now name uv (Some m))) as [r1|e] eqn:Hrow;
      [|discriminate].
    injection Heq as <- <-. exists r. unfold get_folder. rewrite Hfind, Hrow.
    split; [reflexivity|].
    unfold folder_row_of in Hrow. destruct (_ && _) in Hrow; [|discriminate].
    injection Hrow as <-. cbn. destruct (Z.eqb_spec m 0); [lia | reflexivity].
Qed.

End MailboxFacts.

(** ** More of the evidence store *)

Section EvidenceFacts.
Context `{Fingerprint.Hashlib}.
Import Fingerprint EmlStore.

(** X18. The digest of a file does not depend on how it is read: with any
    positive chunk size [sha256_file_hex] gives the SHA-256 of the file's
    bytes. *)
Theorem sha256_file_hex_any_chunk (chunk_size : nat) (content : bytes) :
  0 < chunk_size -> sha256_file_hex_chunked chunk_size content = sha256_hex content.
Proof.
  intros Hsize. unfold sha256_file_hex_chunked, sha256_hex.
  rewrite fold_left_update, read_chunks_all; [reflexivity | exact Hsize | lia].
Qed.

(** [mkdir] makes directories where there was nothing, and nothing else. *)
Lemma mkdir_from_grows (fs fs' : filesystem) (parent : Path) (rest : list pystr) :
  mkdir_from fs parent rest = Return fs' ->
  forall q,
    fs' !! q = fs !! q
    \/ (fs !! q = None /\ fs' !! q = Some Dir
        /\ exists k, 0 < k <= length rest /\ q = parent ++ take k rest).
Proof.
  revert fs parent. induction rest as [|c rest IH]; intros fs parent Hmk q.
  - injection Hmk as <-. left. reflexivity.
  - cbn [mkdir_from] in Hmk.
    assert (Hdeeper : forall k, 0 < k <= length rest ->
              exists k', 0 < k' <= length (c :: rest)
                         /\ (parent ++ [c]) ++ take k rest = parent ++ take k' (c :: rest)).
    { intros k Hk. exists (S k). cbn [length take]. split; [lia|].
      rewrite <- app_assoc. reflexivity. }
    destruct (fs !! (parent ++ [c])) as [[f|]|] eqn:Hp; [discriminate| |].
    + destruct (IH fs (parent ++ [c]) Hmk q) as [Hsame|(Hnone & Hdir & k & Hk & ->)];
        [left; exact Hsame|].
      right. split; [exact Hnone|]. split; [exact Hdir|]. apply Hdeeper, Hk.
    + destruct (IH _ (parent ++ [c]) Hmk q) as [Hsame|(Hnone & Hdir & k & Hk & ->)].
      * destruct (decide (parent ++ [c] = q)) as [<-|Hne].
        -- right. rewrite Hsame, lookup_insert_eq. split; [exact Hp|]. split; [reflexivity|].
           exists 1. cbn [length take]. rewrite take_0. split; [lia | reflexivity].
        -- left. rewrite Hsame. apply lookup_insert_ne. exact Hne.
      * right. destruct (decide (parent ++ [c] = (parent ++ [c]) ++ take k rest)) as [Heq|Hne].
        -- rewrite <- Heq in Hnone. rewrite lookup_insert_eq in Hnone. discriminate.
        -- rewrite lookup_insert_ne in Hnone by exact Hne.
           split; [exact Hnone|]. split; [exact Hdir|]. apply Hdeeper, Hk.
Qed.

Lemma mkdir_from_keeps (fs fs' : filesystem) (parent : Path) (rest : list pystr)
    (q : Path) (n : node) :
  mkdir_from fs parent rest = Return fs' -> fs !! q = Some n -> fs' !! q = Some n.
Proof.
  intros Hmk Hq. destruct (mkdir_from_grows _ _ _ _ Hmk q) as [->|(Hnone & _)]; [exact Hq|].
  congruence.
Qed.

(** What a call leaves of the file system it found, and what it adds. *)
Lemma write_immutable_effect (evidence_dir : Path) (tmp_candidates : list pystr)
    (fs : filesystem) (folder : pystr) (uidvalidity : option Z) (uid : Z) (raw : bytes) :
  let folder_dir := evidence_dir ++ [_safe_folder_name folder] in
  let target := target_path evidence_dir folder uidvalidity uid in
  let out := write_immutable evidence_dir tmp_candidates fs folder uidvalidity uid raw in
  forall q,
    out.2 !! q = fs !! q
    \/ (fs !! q = None /\ out.2 !! q = Some Dir
        /\ exists k, 0 < k <= length folder_dir /\ q = take k folder_dir)
    \/ (fs !! q = None /\ q = target
        /\ out.2 !! q = Some (File {| content := raw; mode := 292 |})
        /\ out.1 = Return {| path := target; sha256 := sha256_hex raw;
                             size_bytes := Z.of_nat (length raw) |}).
Proof.
  intros folder_dir target out q. subst out. unfold write_immutable.
  destruct (mkdir_parents fs evidence_dir) as [fs_a|e] eqn:Hmk1; [|left; reflexivity].
  fold folder_dir.
  assert (Ha : fs_a !! q = fs !! q
               \/ (fs !! q = None /\ fs_a !! q = Some Dir
                   /\ exists k, 0 < k <= length folder_dir /\ q = take k folder_dir)).
  { destruct (mkdir_from_grows _ _ _ _ Hmk1 q) as [Hsame|(Hnone & Hdir & k & Hk & ->)];
      [left; exact Hsame|].
    right. split; [exact Hnone|]. split; [exact Hdir|]. exists k. unfold folder_dir.
    rewrite length_app. split; [lia|]. cbn [app]. rewrite take_app_le by lia. reflexivity. }
  destruct (mkdir_parents fs_a folder_dir) as [fs_b|e] eqn:Hmk2;
    [|destruct Ha as [Ha|Ha]; [left|right; left]; exact Ha].
  assert (Hb : fs_b !! q = fs !! q
               \/ (fs !! q = None /\ fs_b !! q = Some Dir
                   /\ exists k, 0 < k <= length folder_dir /\ q = take k folder_dir)).
  { destruct (mkdir_from_grows _ _ _ _ Hmk2 q) as [Hsame|(Hnone & Hdir & k & Hk & Hq)].
    - rewrite Hsame. destruct Ha as [Ha|(Hnone & Hdir & Hk)]; [left; exact Ha|].
      right. auto.
    - right. destruct Ha as [Ha|(Hnone' & Hdir' & _)]; [|congruence].
      split; [congruence|]. split; [exact Hdir|]. exists k. auto. }
  cbv zeta. change (folder_dir ++ [evidence_name uidvalidity uid]) with target.
  assert (Hdone : forall res, (res, fs_b).2 !! q = fs !! q
            \/ (fs !! q = None /\ (res, fs_b).2 !! q = Some Dir
                /\ exists k, 0 < k <= length folder_dir /\ q = take k folder_dir)
            \/ (fs !! q = None /\ q = target
                /\ (res, fs_b).2 !! q = Some (File {| content := raw; mode := 292 |})
                /\ (res, fs_b).1 = Return {| path := target; sha256 := sha256_hex raw;
                                             size_bytes := Z.of_nat (length raw) |})).
  { intros res. cbn [snd]. destruct Hb as [Hb|Hb]; [left|right; left]; exact Hb. }
  destruct (fs_b !! target) as [[f|]|] eqn:Htarget.
  - destruct (bool_decide _); apply Hdone.
  - apply Hdone.
  - destruct (mkstemp fs_b folder_dir (evidence_name uidvalidity uid ++ ustr ".")
                (ustr ".tmp") tmp_candidates) as [[tmp fs_c]|e] eqn:Htmp; [|apply Hdone].
    apply mkstemp_inv in Htmp as ((rnd & Hname) & Hfree & ->).
    assert (Hne : tmp <> target).
    { rewrite Hname. unfold target, target_path. fold folder_dir. intros Heq.
      apply app_inv_head in Heq. injection Heq as Heq.
      apply (f_equal length) in Heq. rewrite !length_app in Heq. simpl in Heq. lia. }
    unfold replace, chmod.
    rewrite lookup_insert_eq. rewrite lookup_insert_eq.
    rewrite !lookup_insert_ne by (intros Heq; apply Hne; symmetry; exact Heq).
    rewrite lookup_delete_eq. cbn [fst snd].
    destruct (decide (q = target)) as [->|Hqt].
    + right. right. rewrite lookup_insert_eq.
      assert (Hnone : fs !! target = None).
      { destruct Hb as [Hb|(Hnone & _)]; [congruence | exact Hnone]. }
      auto.
    + rewrite lookup_insert_ne by (intros Heq; apply Hqt; symmetry; exact Heq).
      rewrite lookup_insert_ne by (intros Heq; apply Hqt; symmetry; exact Heq).
      destruct (decide (q = tmp)) as [->|Hqtmp].
      * rewrite lookup_delete_eq. left.
        destruct Hb as [Hb|(_ & Hdir & _)]; [congruence | congruence].
      * rewrite lookup_delete_ne by (intros Heq; apply Hqtmp; symmetry; exact Heq).
        rewrite lookup_insert_ne by (intros Heq; apply Hqtmp; symmetry; exact Heq).
        rewrite lookup_insert_ne by (intros Heq; apply Hqtmp; symmetry; exact Heq).
        destruct Hb as [Hb|Hb]; [left|right; left]; exact Hb.
Qed.

Lemma write_immutable_keeps (evidence_dir : Path) (tmp_candidates : list pystr)
    (fs : filesystem) (folder : pystr) (uidvalidity : option Z) (uid : Z) (raw : bytes)
    (q : Path) (n : node) :
  fs !! q = Some n ->
  (write_immutable evidence_dir tmp_candidates fs folder uidvalidity uid raw).2 !! q = Some n.
Proof.
  intros Hq.
  destruct (write_immutable_effect evidence_dir tmp_candidates fs folder uidvalidity uid raw q)
    as [->|[(Hnone & _)|(Hnone & _)]]; [exact Hq | congruence | congruence].
Qed.

(** X19. The evidence store is append-only.  Whatever the outcome of
    [write_immutable], every file and directory that was there is still
    there, unchanged; what is new is a directory on the way to the folder,
    or the target, holding the bytes offered with mode 0444, and then the
    call has returned its path, hash and size.  No temporary file stays. *)
Theorem write_immutable_append_only (evidence_dir : Path) (tmp_candidates : list pystr)
    (fs : filesystem) (folder : pystr) (uidvalidity : option Z) (uid : Z) (raw : bytes) :
  let folder_dir := evidence_dir ++ [_safe_folder_name folder] in
  let target := target_path evidence_dir folder uidvalidity uid in
  let out := write_immutable evidence_dir tmp_candidates fs folder uidvalidity uid raw in
  (forall q n, fs !! q = Some n -> out.2 !! q = Some n)
  /\ (forall q n, fs !! q = None -> out.2 !! q = Some n ->
        (n = Dir /\ exists k, 0 < k <= length folder_dir /\ q = take k folder_dir)
        \/ (q = target /\ n = File {| content := raw; mode := 292 |}
            /\ out.1 = Return {| path := target; sha256 := sha256_hex raw;
                                 size_bytes := Z.of_nat (length raw) |})).
Proof.
  intros folder_dir target out. split.
  - intros q n. apply write_immutable_keeps.
  - intros q n Hnone Hnew.
    destruct (write_immutable_effect evidence_dir tmp_candidates fs folder uidvalidity uid raw q)
      as [Hsame|[(_ & Hdir & Hk)|(_ & Hq & Hfile & Hres)]].
    + fold out in Hsame. congruence.
    + fold out in Hdir. left. split; [congruence | exact Hk].
    + fold out in Hfile. right. split; [exact Hq|]. split; [congruence | exact Hres].
Qed.

End EvidenceFacts.

(** ** One message's way through a run *)

Section ProcessUidFacts.
Context `{Unicode} `{Email.EmailLib} `{Fingerprint.Hashlib} `{Labels.UnicodeRe}.
Import StateDb Orchestrator.
Variable s : RunSettings.
Variable dry_run : bool.
Variables now_discovered now_marked filtered_reason : pystr.
Variable tmp_candidates : list pystr.
Variable create : pystr -> result (option pystr).

#[local] Abbreviation process :=
  (_process_uid s dry_run now_discovered now_marked filtered_reason tmp_candidates create).

Lemma upsert_message_discovered_folders (d : db) (now folder : pystr) (uid : Z)
    (uv : option Z) (mid : option pystr) (fp : pystr) (sz : option Z) :
  folders (upsert_message_discovered d now folder uid uv mid fp sz).2 = folders d.
Proof.
  destruct (upsert_message_discovered_ledger d now folder uid uv mid fp sz)
    as [->|[[_ ->]|[_ ->]]]; reflexivity.
Qed.

(** X20. What [_process_uid] never does.  A message the address filter
    turns down leaves the evidence store and the label cache as they were,
    causes no label request and puts nothing on the queue; so does any
    message in a dry run, as far as labels and queue go.  In every case the
    folder checkpoints are not touched and nothing that is in the evidence
    store is changed or removed. *)
Theorem process_uid_never (mailbox : pystr) (uid : Z) (uidvalidity : option Z)
    (raw : bytes) (w : world) :
  let fp := Fingerprint.compute_fingerprint raw (fingerprint_body_bytes s) in
  let addr_filter :=
    {| Email.target_addresses := list_to_set (target_addresses s);
       Email.include_sender := include_sender s;
       Email.include_recipients := include_recipients s |} in
  let out := process mailbox uid uidvalidity raw w in
  (Email.matches addr_filter (Fingerprint.headers fp) = false ->
     disk out.2 = disk w /\ label_cache out.2 = label_cache w
     /\ label_requests out.2 = label_requests w
     /\ forall item, out.1 <> Return (Some item))
  /\ (dry_run = true ->
        label_cache out.2 = label_cache w /\ label_requests out.2 = label_requests w
        /\ forall item, out.1 <> Return (Some item))
  /\ folders (ledger out.2) = folders (ledger w)
  /\ (forall q n, disk w !! q = Some n -> disk out.2 !! q = Some n).
Proof.
  intros fp addr_filter out. subst out. unfold _process_uid. fold fp. fold addr_filter.
  pose proof (upsert_message_discovered_folders (ledger w) now_discovered mailbox uid
                uidvalidity (Fingerprint.message_id_norm fp) (Fingerprint.fingerprint fp)
                (Some (Z.of_nat (length raw)))) as Hfolders.
  destruct (upsert_message_discovered _ _ _ _ _ _ _ _) as [[msg_row|e] d]; cbn [snd] in Hfolders.
  2:{ cbn. repeat split; auto; intros; discriminate. }
  destruct (bool_decide (MessageRow.status msg_row = imported)).
  { cbn. repeat split; auto; intros; discriminate. }
  destruct (Email.matches addr_filter (Fingerprint.headers fp)) eqn:Hmatch; cbn [negb].
  2:{ cbn. repeat split; auto; intros; discriminate. }
  destruct (match find_existing_imported d _ _ with
            | Some other => if negb (other =? MessageRow.id msg_row)%Z then Some other else None
            | None => None
            end) as [other|].
  { cbn. repeat split; auto; intros; discriminate. }
  pose proof (fun q n => write_immutable_keeps (evidence_dir s) tmp_candidates (disk w)
                           mailbox uidvalidity uid raw q n) as Hdisk.
  destruct (EmlStore.write_immutable _ _ _ _ _ _ _) as [[written|e] fs]; cbn [snd] in Hdisk.
  2:{ cbn. split; [intros [=]|]. repeat split; auto; intros; discriminate. }
  destruct dry_run.
  { cbn. split; [intros [=]|]. repeat split; auto; intros; discriminate. }
  destruct (Labels.ensure create (label_cache w) _) as [[[custom_id|e] cache] requests];
    cbn; (split; [intros [=]|]); (split; [intros [=]|]); auto.
Qed.

(** The order of strings is a total preorder. *)
Lemma str_le_total (a b : pystr) : str_le a b = true \/ str_le b a = true.
Proof.
  revert b. induction a as [|x a IH]; intros [|y b]; cbn [str_le]; auto.
  destruct (N.ltb_spec x y) as [Hxy|Hxy]; [left; reflexivity|].
  destruct (N.ltb_spec y x) as [Hyx|Hyx]; [right; reflexivity|].
  assert (x = y) as -> by lia. rewrite N.eqb_refl. cbn [orb andb]. apply IH.
Qed.

Lemma str_le_trans (a b c : pystr) :
  str_le a b = true -> str_le b c = true -> str_le a c = true.
Proof.
  revert b c. induction a as [|x a IH]; intros [|y b] [|z c]; cbn [str_le]; auto;
    try discriminate.
  rewrite !orb_true_iff, !andb_true_iff, !N.ltb_lt, !N.eqb_eq.
  intros [Hxy|[-> Hab]] [Hyz|[-> Hbc]].
  - left. lia.
  - left. exact Hxy.
  - left. exact Hyz.
  - right. split; [reflexivity|]. apply (IH b c Hab Hbc).
Qed.

#[local] Instance str_le_Total : Total (fun a b => str_le a b = true).
Proof. intros a b. apply str_le_total. Qed.

#[local] Instance str_le_Transitive : Transitive (fun a b => str_le a b = true).
Proof. intros a b c. apply str_le_trans. Qed.

Lemma sorted_set_spec (l : list pystr) :
  NoDup (sorted_set l)
  /\ StronglySorted (fun a b => str_le a b = true) (sorted_set l)
  /\ (forall x, x ∈ sorted_set l <-> x ∈ l).
Proof.
  unfold sorted_set. split; [|split].
  - rewrite merge_sort_Permutation. apply NoDup_remove_dups.
  - apply StronglySorted_merge_sort; apply _.
  - intros x. rewrite merge_sort_Permutation. apply elem_of_remove_dups.
Qed.

(** The row a successful upsert returns is in the ledger, under the key. *)
Lemma upsert_message_discovered_returned (d d1 : db) (now folder : pystr) (uid : Z)
    (uv : option Z) (mid : option pystr) (fp : pystr) (sz : option Z) (m : MessageRow.t) :
  upsert_message_discovered d now folder uid uv mid fp sz = (Return m, d1) ->
  exists i row, messages d1 !! i = Some row
                /\ Messages.folder row = folder /\ Messages.uid row = uid
                /\ Messages.uidvalidity row = uv
                /\ _row_to_message row = Return m.
Proof.
  unfold upsert_message_discovered.
  match goal with |- context [List.find ?P ?l] => destruct (List.find P l) as [row|] eqn:Hfind end;
    [|discriminate].
  destruct (_row_to_message row) as [m'|e] eqn:Hrow; [|discriminate].
  intros [= <- <-]. apply List.find_some in Hfind as [Hin Hkey].
  apply list_elem_of_In, list_elem_of_lookup in Hin as [i Hi].
  unfold select_key, sql_is in Hkey.
  rewrite !andb_true_iff, !bool_decide_eq_true, Z.eqb_eq in Hkey.
  destruct Hkey as [[Hf Hu] Hv]. exists i, row. auto.
Qed.

(** X21. What is on the queue is ready for Gmail.  When [_process_uid] puts
    an item on the queue, the run is not a dry run and the message passed
    the address filter; the item's path is the evidence file of the message,
    which holds bytes with the SHA-256 of the message; the ledger has the
    message's row under the item's id, in status downloaded, with that path
    and hash; and the item's labels are the system labels of the folder and
    the id of its custom label, sorted and without repetition. *)
Theorem process_uid_queued (mailbox : pystr) (uid : Z) (uidvalidity : option Z)
    (raw : bytes) (w w' : world) (item : GmailWorkItem) :
  process mailbox uid uidvalidity raw w = (Return (Some item), w') ->
  let fp := Fingerprint.compute_fingerprint raw (fingerprint_body_bytes s) in
  let addr_filter :=
    {| Email.target_addresses := list_to_set (target_addresses s);
       Email.include_sender := include_sender s;
       Email.include_recipients := include_recipients s |} in
  dry_run = false
  /\ Email.matches addr_filter (Fingerprint.headers fp) = true
  /\ eml_path item = EmlStore.target_path (evidence_dir s) mailbox uidvalidity uid
  /\ (exists f, disk w' !! eml_path item = Some (EmlStore.File f)
                /\ Fingerprint.sha256_hex (EmlStore.content f) = Fingerprint.sha256_hex raw)
  /\ (exists row, row ∈ messages (ledger w')
                  /\ Messages.id row = message_row_id item
                  /\ Messages.folder row = mailbox /\ Messages.uid row = uid
                  /\ Messages.uidvalidity row = uidvalidity
                  /\ Messages.status row = downloaded
                  /\ Messages.eml_path row = Some (EmlStore.path_str (eml_path item))
                  /\ Messages.eml_sha256 row = Some (Fingerprint.sha256_hex raw))
  /\ NoDup (label_ids item)
  /\ StronglySorted (fun a b => str_le a b = true) (label_ids item)
  /\ (exists custom_id,
        label_cache w' !! strip (Labels.folder_to_custom_label (label_prefix s) mailbox)
        = Some custom_id
        /\ forall l, l ∈ label_ids item
                     <-> l ∈ map Labels.system_label_value
                               (Labels.folder_to_system_labels mailbox)
                         \/ l = custom_id).
Proof.
  intros Hrun fp addr_filter. revert Hrun. unfold _process_uid. fold fp. fold addr_filter.
  destruct (upsert_message_discovered _ _ _ _ _ _ _ _) as [[msg_row|e] d] eqn:Hupsert;
    [|discriminate].
  destruct (bool_decide (MessageRow.status msg_row = imported)); [discriminate|].
  destruct (Email.matches addr_filter (Fingerprint.headers fp)) eqn:Hmatch; cbn [negb];
    [|discriminate].
  destruct (match find_existing_imported d _ _ with
            | Some other => if negb (other =? MessageRow.id msg_row)%Z then Some other else None
            | None => None
            end) as [other|]; [discriminate|].
  destruct (EmlStore.write_immutable _ _ _ _ _ _ _) as [[written|e] fs] eqn:Hwrite;
    [|discriminate].
  destruct dry_run; [discriminate|].
  destruct (Labels.ensure create (label_cache w) _) as [[[custom_id|e] cache] requests]
    eqn:Hensure; [|discriminate].
  intros [= <- <-]. cbn [message_row_id eml_path label_ids ledger disk label_cache].
  apply write_immutable_success in Hwrite as (_ & f & Hf & Hsha & ->).
  cbn [EmlStore.path EmlStore.sha256].
  destruct (upsert_message_discovered_returned _ _ _ _ _ _ _ _ _ _ Hupsert)
    as (i & row & Hi & Hfolder & Huid & Huv & Hrow).
  destruct (row_to_message_id row msg_row Hrow) as (Hid & _).
  destruct (sorted_set_spec (map Labels.system_label_value
                               (Labels.folder_to_system_labels mailbox) ++ [custom_id]))
    as (Hnd & Hsorted & Helem).
  split; [reflexivity|]. split; [reflexivity|]. split; [reflexivity|].
  split; [exists f; auto|]. split; [|split; [exact Hnd|split; [exact Hsorted|]]].
  - eexists. split.
    + unfold mark_downloaded, update_where_id. cbn [messages].
      apply list_elem_of_fmap. exists row. split; [reflexivity|].
      apply list_elem_of_lookup. eauto.
    + rewrite Hid, Z.eqb_refl. cbn. auto 10.
  - exists custom_id. split.
    + unfold Labels.ensure in Hensure.
      destruct (strip (Labels.folder_to_custom_label (label_prefix s) mailbox))
        as [|c normalized]; [discriminate|].
      destruct (label_cache w !! (c :: normalized)) as [[|x existing]|] eqn:Hc.
      * destruct (create (c :: normalized)) as [[label_id|]|e]; try discriminate.
        injection Hensure as <- <- _. apply lookup_insert_eq.
      * injection Hensure as <- <- _. exact Hc.
      * destruct (create (c :: normalized)) as [[label_id|]|e]; try discriminate.
        injection Hensure as <- <- _. apply lookup_insert_eq.
    + intros l. rewrite Helem, elem_of_app, list_elem_of_singleton. reflexivity.
Qed.

(** An update by id that leaves the keys alone keeps them distinct. *)
Lemma update_where_id_unique_keys (d : db) (id : Z) (set : Messages.row -> Messages.row) :
  (forall r, Messages.folder (set r) = Messages.folder r
             /\ Messages.uid (set r) = Messages.uid r
             /\ Messages.uidvalidity (set r) = Messages.uidvalidity r) ->
  unique_keys d -> unique_keys (update_where_id id set d).
Proof.
  intros Hset Hkeys i j r1 r2 Hi Hj. unfold update_where_id in Hi, Hj. cbn [messages] in Hi, Hj.
  rewrite list_lookup_fmap in Hi, Hj.
  destruct (messages d !! i) as [a|] eqn:Ha; [|discriminate].
  destruct (messages d !! j) as [b|] eqn:Hb; [|discriminate].
  injection Hi as <-. injection Hj as <-.
  assert (Hsame : forall r, Messages.folder (if (Messages.id r =? id)%Z then set r else r)
                            = Messages.folder r
                            /\ Messages.uid (if (Messages.id r =? id)%Z then set r else r)
                               = Messages.uid r
                            /\ Messages.uidvalidity (if (Messages.id r =? id)%Z then set r else r)
                               = Messages.uidvalidity r)
    by (intros r; destruct (Messages.id r =? id)%Z; [apply Hset | auto]).
  destruct (Hsame a) as (-> & -> & ->). destruct (Hsame b) as (-> & -> & ->).
  apply (Hkeys i j a b Ha Hb).
Qed.

(** How a run that queues an item leaves the ledger. *)
Lemma process_uid_queued_ledger (mailbox : pystr) (uid : Z) (uidvalidity : option Z)
    (raw : bytes) (w w' : world) (item : GmailWorkItem) :
  process mailbox uid uidvalidity raw w = (Return (Some item), w') ->
  exists m d1 path sha,
    upsert_message_discovered (ledger w) now_discovered mailbox uid uidvalidity
      (Fingerprint.message_id_norm
         (Fingerprint.compute_fingerprint raw (fingerprint_body_bytes s)))
      (Fingerprint.fingerprint
         (Fingerprint.compute_fingerprint raw (fingerprint_body_bytes s)))
      (Some (Z.of_nat (length raw))) = (Return m, d1)
    /\ ledger w' = mark_downloaded d1 now_marked (MessageRow.id m) path sha
    /\ message_row_id item = MessageRow.id m.
Proof.
  unfold _process_uid.
  destruct (upsert_message_discovered _ _ _ _ _ _ _ _) as [[msg_row|e] d] eqn:Hupsert;
    [|discriminate].
  destruct (bool_decide (MessageRow.status msg_row = imported)); [discriminate|].
  destruct (negb (Email.matches _ _)); [discriminate|].
  destruct (match find_existing_imported d _ _ with
            | Some other => if negb (other =? MessageRow.id msg_row)%Z then Some other else None
            | None => None
            end) as [other|]; [discriminate|].
  destruct (EmlStore.write_immutable _ _ _ _ _ _ _) as [[written|e] fs]; [|discriminate].
  destruct dry_run; [discriminate|].
  destruct (Labels.ensure create (label_cache w) _) as [[[custom_id|e] cache] requests];
    [|discriminate].
  intros [= <- <-]. cbn [ledger message_row_id]. eauto 10.
Qed.

End ProcessUidFacts.

Section ImportedOnce.
Context `{Unicode} `{Email.EmailLib} `{Fingerprint.Hashlib} `{Labels.UnicodeRe}
  `{StateDb.JsonLib}.
Import StateDb Orchestrator.

(** X22. A message is imported once.  Let a run put a message, found under
    a UIDVALIDITY, on the queue, and let the Gmail worker get it ingested and
    mark it imported.  Then any later run that meets the same UID of the
    folder under the same UIDVALIDITY, with whatever bytes, settings and
    clock, stops at the ledger: it writes no evidence, asks for no label,
    queues nothing, and the row is still imported under the Gmail id it got
    (granted that the fingerprint of the bytes is not blank, as no SHA-256
    digest is). *)
Theorem process_uid_imported_once
    (s s2 : RunSettings) (dry_run dry_run2 : bool)
    (t1 t2 t3 t4 t5 reason reason2 : pystr) (tmp tmp2 : list pystr)
    (create create2 : pystr -> result (option pystr)) (error : exn -> pystr)
    (mailbox : pystr) (uid uv : Z) (raw raw2 : bytes) (w w1 : world)
    (item : GmailWorkItem) (ingested : IngestResult) :
  let w2 := {| ledger := _gmail_worker_item t3 error item (Return ingested) (ledger w1);
               disk := disk w1; label_cache := label_cache w1;
               label_requests := label_requests w1 |} in
  let later := _process_uid s2 dry_run2 t4 t5 reason2 tmp2 create2 mailbox uid (Some uv) raw2 w2 in
  unique_keys (ledger w) ->
  _process_uid s dry_run t1 t2 reason tmp create mailbox uid (Some uv) raw w
  = (Return (Some item), w1) ->
  strip (Fingerprint.fingerprint
           (Fingerprint.compute_fingerprint raw2 (fingerprint_body_bytes s2))) <> [] ->
  later.1 = Return None
  /\ disk later.2 = disk w1
  /\ label_cache later.2 = label_cache w1
  /\ label_requests later.2 = label_requests w1
  /\ length (messages (ledger later.2)) = length (messages (ledger w1))
  /\ exists row, row ∈ messages (ledger later.2)
                 /\ Messages.id row = message_row_id item
                 /\ Messages.status row = imported
                 /\ Messages.gmail_message_id row = Some (gmail_message_id ingested).
Proof.
  intros w2 later Hkeys Hrun Hfp. subst later.
  destruct (process_uid_queued_ledger _ _ _ _ _ _ _ _ _ _ _ _ _ _ Hrun)
    as (m & d1 & path & sha & Hupsert & Hledger & Hitem).
  assert (Hkeys1 : unique_keys d1).
  { pose proof (upsert_message_discovered_unique_keys (ledger w) t1 mailbox uid (Some uv)
                  (Fingerprint.message_id_norm
                     (Fingerprint.compute_fingerprint raw (fingerprint_body_bytes s)))
                  (Fingerprint.fingerprint
                     (Fingerprint.compute_fingerprint raw (fingerprint_body_bytes s)))
                  (Some (Z.of_nat (length raw))) Hkeys) as Hk.
    rewrite Hupsert in Hk. exact Hk. }
  destruct (upsert_message_discovered_returned _ _ _ _ _ _ _ _ _ _ Hupsert)
    as (i & row & Hi & Hfolder & Huid & Huv & Hrow).
  destruct (row_to_message_id row m Hrow) as (Hid & _).
  apply row_to_message_checks in Hrow as (Hc1 & Hc2 & Hc3 & Hc4 & _ & _ & Hc7).
  (* the ledger the later run finds *)
  set (d2 := ledger w2).
  assert (Hd2 : d2 = mark_imported (mark_downloaded d1 t2 (MessageRow.id m) path sha) t3
                       (MessageRow.id m) (gmail_message_id ingested)
                       (gmail_thread_id ingested) (label_ids item)).
  { unfold d2, w2, _gmail_worker_item. cbn [ledger]. rewrite Hledger, Hitem. reflexivity. }
  assert (Hkeys2 : unique_keys d2).
  { rewrite Hd2. unfold mark_imported, mark_downloaded.
    apply update_where_id_unique_keys; [intros r; auto|].
    apply update_where_id_unique_keys; [intros r; auto | exact Hkeys1]. }
  assert (Hi2 : exists row2, messages d2 !! i = Some row2
                  /\ Messages.id row2 = Messages.id row
                  /\ Messages.folder row2 = mailbox /\ Messages.uid row2 = uid
                  /\ Messages.uidvalidity row2 = Some uv
                  /\ Messages.attempts row2 = Messages.attempts row
                  /\ Messages.status row2 = imported
                  /\ Messages.gmail_message_id row2 = Some (gmail_message_id ingested)).
  { rewrite Hd2. unfold mark_imported, mark_downloaded, update_where_id. cbn [messages].
    rewrite !list_lookup_fmap, Hi. cbn [fmap option_fmap option_map].
    rewrite <- Hid, Z.eqb_refl. cbn [Messages.id]. rewrite Z.eqb_refl.
    eexists. split; [reflexivity|]. cbn. auto 10. }
  destruct Hi2 as (row2 & Hi2 & Hid2 & Hfolder2 & Huid2 & Huv2 & Hatt2 & Hst2 & Hgid2).
  set (fp2 := Fingerprint.compute_fingerprint raw2 (fingerprint_body_bytes s2)) in *.
  set (row3 := do_update (Fingerprint.message_id_norm fp2) (Fingerprint.fingerprint fp2)
                 (Some (Z.of_nat (length raw2))) t4 row2).
  assert (Hvalid : exists m3, _row_to_message row3 = Return m3
                              /\ MessageRow.status m3 = imported).
  { unfold _row_to_message, row3. cbn [do_update Messages.id Messages.folder Messages.uid
      Messages.uidvalidity Messages.fingerprint Messages.size_bytes Messages.attempts
      Messages.status].
    rewrite Hid2, Hfolder2, Huid2, Huv2, Hatt2, Hst2. rewrite <- Hfolder, <- Huid.
    rewrite Hc1, Hc3, Hc7. rewrite Huv in Hc4. rewrite Hc4.
    rewrite (bool_decide_eq_false_2 _ Hc2), (bool_decide_eq_false_2 _ Hfp).
    assert (Hsz : opt_ge 0 (Some (Z.of_nat (length raw2))) = true)
      by (apply Z.leb_le; lia).
    rewrite Hsz. cbn [negb andb]. eexists. split; reflexivity. }
  destruct Hvalid as (m3 & Hm3 & Hst3).
  destruct (upsert_message_discovered_existing d2 t4 mailbox uid uv
              (Fingerprint.message_id_norm fp2) (Fingerprint.fingerprint fp2)
              (Some (Z.of_nat (length raw2))) i row2 m3 Hkeys2 Hi2 Hfolder2 Huid2 Huv2 Hm3)
    as [Hup _].
  unfold _process_uid. fold fp2. fold d2. rewrite Hup.
  rewrite (bool_decide_eq_true_2 _ Hst3). cbn [fst snd ledger disk label_cache label_requests].
  split; [reflexivity|]. split; [reflexivity|]. split; [reflexivity|]. split; [reflexivity|].
  split.
  - cbn [messages]. rewrite length_insert. unfold d2, w2, _gmail_worker_item. cbn [ledger].
    unfold mark_imported, update_where_id. cbn [messages]. rewrite length_map. reflexivity.
  - exists row3. split.
    + apply list_elem_of_lookup. exists i. cbn [messages].
      apply list_lookup_insert_eq. eapply lookup_lt_Some; eauto.
    + unfold row3. cbn [do_update Messages.id Messages.status Messages.gmail_message_id].
      rewrite Hid2, Hst2, Hgid2, Hitem, Hid. auto.
Qed.

End ImportedOnce.

Section ConfiguredFilterFacts.
Context `{Unicode} `{Email.EmailLib} `{Settings.PyRepr}.
Import Email Settings.

Lemma lower_nil : lower [] = [].
Proof. reflexivity. Qed.

Lemma strip_nil : strip [] = [].
Proof. reflexivity. Qed.

(** An address a header holds is among the addresses extracted from it. *)
Lemma extract_email_addresses_holds (v name addr : pystr) :
  v <> [] -> (name, addr) ∈ getaddresses v -> lower (strip addr) <> [] ->
  lower (strip addr) ∈ extract_email_addresses (Some v).
Proof.
  intros Hv Hin Hlow. unfold extract_email_addresses. destruct v as [|c v]; [contradiction|].
  rewrite elem_of_list_to_set, list_elem_of_omap. exists (name, addr). split; [exact Hin|].
  destruct addr as [|x addr]; [contradiction|].
  destruct (strip (x :: addr)) eqn:Hs; [contradiction | reflexivity].
Qed.

(** X23. Targets are matched without regard to case or surrounding blanks.
    Let the configured list pass [_normalize_addresses], and let the filter
    be built from the result as [_process_mailbox] builds it.  If an address
    of the From header (with the sender enabled) or of the To header (with
    the recipients enabled) equals a configured entry once both are trimmed
    and lowercased, the filter accepts the message. *)
Theorem configured_address_matches (value targets : list pystr) (sender recipients : bool)
    (headers : MinimalHeaders) (raw v name addr : pystr) :
  _normalize_addresses value = Return targets ->
  raw ∈ value -> lower (strip raw) <> [] ->
  v <> [] -> (name, addr) ∈ getaddresses v ->
  lower (strip addr) = lower (strip raw) ->
  (sender = true /\ from_ headers = Some v) \/ (recipients = true /\ to headers = Some v) ->
  matches {| target_addresses := list_to_set targets;
             include_sender := sender; include_recipients := recipients |} headers = true.
Proof.
  intros Hnorm Hraw Hlow Hv Hin Heq Hwhere.
  assert (Htarget : lower (strip raw) ∈ targets).
  { unfold _normalize_addresses in Hnorm. pose proof (normalized_spec value) as Hspec.
    destruct (normalized value) as [addresses|e]; [|discriminate].
    injection Hnorm as <-. destruct Hspec as [-> _].
    apply (dedupe_spec _ ∅). split; [|apply not_elem_of_empty].
    apply list_elem_of_omap. exists raw. split; [exact Hraw|].
    destruct (lower (strip raw)); [contradiction | reflexivity]. }
  assert (Hheld : lower (strip raw) ∈ extract_email_addresses (Some v)).
  { rewrite <- Heq. apply (extract_email_addresses_holds v name addr Hv Hin).
    rewrite Heq. exact Hlow. }
  set (a := lower (strip raw)) in *.
  assert (Hmeet : forall candidates : gset pystr,
            a ∈ candidates -> intersects candidates (list_to_set targets) = true).
  { intros candidates Ha. apply intersects_true. intros Hempty.
    assert (Hboth : a ∈ candidates ∩ list_to_set targets).
    { apply elem_of_intersection. split; [exact Ha|]. apply elem_of_list_to_set, Htarget. }
    rewrite Hempty in Hboth. apply elem_of_empty in Hboth. exact Hboth. }
  unfold matches. cbn [target_addresses include_sender include_recipients].
  destruct (bool_decide (list_to_set targets = (∅ : gset pystr))); [reflexivity|].
  destruct Hwhere as [[-> Hfrom]|[-> Hto]].
  - rewrite Hfrom, (Hmeet _ Hheld). reflexivity.
  - rewrite Hto.
    assert (Hc : a ∈ (∅ : gset pystr) ∪ extract_email_addresses (Some v)
                       ∪ extract_email_addresses (cc headers)
                       ∪ extract_email_addresses (bcc headers)
                       ∪ extract_email_addresses (delivered_to headers)
                       ∪ extract_email_addresses (x_original_to headers)
                       ∪ extract_email_addresses (envelope_to headers)).
    { do 5 (apply elem_of_union; left). apply elem_of_union. right. exact Hheld. }
    rewrite (Hmeet _ Hc).
    rewrite andb_true_r. destruct (sender && _); reflexivity.
Qed.

End ConfiguredFilterFacts.

(** ** The properties at work *)

(** A first checkpoint for the folder Sent, read back. *)
Lemma upsert_folder_get_folder_witness :
  exists r d',
    StateDb.upsert_folder Examples.ledger Examples.later (ustr " Sent ") (Some 7%Z) (Some 12%Z)
    = (Return r, d')
    /\ StateDb.get_folder d' (ustr " Sent ") = Return (Some r)
    /\ StateDb.FolderRow.name r = ustr "Sent".
Proof.
  eexists _, _. split; [vm_compute; reflexivity|].
  refine (let H := upsert_folder_get_folder Examples.ledger _ Examples.later (ustr " Sent ")
                     (Some 7%Z) (Some 12%Z) _ _ in conj (proj1 H) (proj1 (proj2 H))).
  vm_compute. reflexivity.
Defined.

Lemma ledger_123_unique_keys : StateDb.unique_keys Examples.ledger_123.
Proof.
  intros i j r1 r2 Hi Hj _ _ _.
  destruct i as [|i]; [|discriminate Hi]. destruct j as [|j]; [reflexivity | discriminate Hj].
Qed.

Lemma ledger_123_ids_distinct : StateDb.ids_distinct Examples.ledger_123.
Proof. unfold StateDb.ids_distinct. cbn. apply NoDup_singleton. Qed.

(** The ledger of one message stays well-keyed when a second is discovered. *)
Lemma upsert_message_discovered_keeps_witness :
  let d' := (StateDb.upsert_message_discovered Examples.ledger_123 Examples.later
               (ustr "INBOX") 12 (Some 123%Z) None (ustr "fp-12") (Some 7%Z)).2 in
  StateDb.unique_keys d' /\ StateDb.ids_distinct d'.
Proof.
  intros d'.
  pose proof (upsert_message_discovered_keeps Examples.ledger_123 Examples.later
                (ustr "INBOX") 12 (Some 123%Z) None (ustr "fp-12") (Some 7%Z)
                ledger_123_unique_keys ledger_123_ids_distinct) as (Hkeys & Hids & _).
  split; [exact Hkeys | exact Hids].
Defined.

(** The failed message of the ledger fails once more and is found again. *)
Lemma mark_failed_then_rediscovered_witness :
  exists m d2,
    StateDb.upsert_message_discovered
      (StateDb.mark_failed Examples.ledger_123 Examples.later 1 (ustr "again"))
      Examples.later (ustr "INBOX") 11 (Some 123%Z) None (ustr "fp-new") (Some 42%Z)
    = (Return m, d2)
    /\ StateDb.MessageRow.status m = StateDb.discovered
    /\ StateDb.MessageRow.attempts m = 2%Z.
Proof.
  assert (Hvalid : exists m0, StateDb._row_to_message Examples.failed_row_123 = Return m0)
    by (eexists; vm_compute; reflexivity).
  destruct Hvalid as [m0 Hm0].
  destruct (mark_failed_then_rediscovered Examples.ledger_123 Examples.later Examples.later
              (ustr "again") 0 Examples.failed_row_123 123 m0 None (ustr "fp-new")
              (Some 42%Z) ledger_123_unique_keys ledger_123_ids_distinct)
    as (m & d2 & Hup & _ & Hst & Hatt & _).
  - reflexivity.
  - reflexivity.
  - exact Hm0.
  - reflexivity.
  - vm_compute. discriminate.
  - reflexivity.
  - exists m, d2. split; [exact Hup|]. split; [exact Hst | exact Hatt].
Defined.

(** Five UIDs, resumed at 4, in batches of two. *)
Lemma iter_uid_batches_spec_witness :
  exists batches,
    Imap.iter_uid_batches (Some 9%Z) [5; 3; 9; 1; 7]%Z 4 2 = Return batches
    /\ StronglySorted Z.le (concat (map Imap.FolderBatch.uids batches)).
Proof.
  destruct (iter_uid_batches_spec (Some 9%Z) [5; 3; 9; 1; 7]%Z 4 2) as (batches & Hrun & Hsorted & _);
    [lia|].
  exists batches. split; [exact Hrun | exact Hsorted].
Defined.

(** The line [* SEARCH 2 3 15]. *)
Lemma search_line_uids_tokens_witness :
  Imap.search_line_uids (bstr "* SEARCH 2 3 15") = [2; 3; 15]%Z.
Proof.
  refine (proj1 (search_line_uids_tokens [bstr "2"; bstr "3"; bstr "15"] _)).
  repeat constructor.
Defined.

(** The literal of a FETCH response is one of its lines. *)
Lemma extract_literal_sound_witness : bstr "Hello" ∈ Examples.fetch_lines.
Proof.
  refine (proj1 (extract_literal_sound Examples.fetch_lines (bstr "Hello") _)).
  vm_compute. reflexivity.
Defined.

(** A name with blanks around it, two quotes and a backslash. *)
Lemma imap_quote_decoded_witness :
  @Imap._decode_mailbox_name Examples.cpython_imaplib
    (Imap.encode_ascii (Imap._imap_quote Examples.awkward_name))
  = ustr "My " ++ [34%N] ++ ustr "Box" ++ [34%N; 92%N] ++ ustr "A".
Proof.
  refine (@imap_quote_decoded Examples.cpython_imaplib Examples.awkward_name _ _).
  - repeat constructor.
  - exact I.
Defined.

(** The label of INBOX is asked for once; later the API is not reached. *)
Lemma ensure_cached_witness :
  exists cache',
    Labels.ensure Examples.label_7 ∅ (ustr " iCloud/INBOX ")
    = (Return (ustr "Label_7"), cache', [ustr "iCloud/INBOX"])
    /\ Labels.ensure (fun _ => Raise (Exception 9)) cache' (ustr "iCloud/INBOX")
       = (Return (ustr "Label_7"), cache', []).
Proof.
  eexists. split; [vm_compute; reflexivity|].
  refine (proj2 (ensure_cached Examples.label_7 _ ∅ _ (ustr " iCloud/INBOX ") _ _
                   [ustr "iCloud/INBOX"] _ _ _)).
  - vm_compute. reflexivity.
  - discriminate.
  - reflexivity.
Defined.

(** Five bytes read two at a time. *)
Lemma sha256_file_hex_any_chunk_witness :
  @Fingerprint.sha256_file_hex_chunked Examples.transparent_hash 2 Examples.hello
  = @Fingerprint.sha256_hex Examples.transparent_hash Examples.hello.
Proof.
  apply (@sha256_file_hex_any_chunk Examples.transparent_hash 2 Examples.hello). lia.
Defined.

(** The first message of a first run goes to the queue. *)
Lemma process_uid_queued_witness :
  exists item w',
    @Orchestrator._process_uid Examples.ascii_unicode Examples.plain_email
      Examples.transparent_hash Examples.ascii_words Examples.keep_all false
      Examples.later Examples.later (ustr "filtered") [ustr "abcd1234"] Examples.label_7
      (ustr "INBOX") 11 (Some 123%Z) Examples.small_message Examples.fresh_world
    = (Return (Some item), w')
    /\ Orchestrator.eml_path item = [ustr "ev"; ustr "INBOX"; ustr "123-11.eml"]
    /\ NoDup (Orchestrator.label_ids item).
Proof.
  eexists _, _. split; [vm_compute; reflexivity|].
  refine (let H := @process_uid_queued Examples.ascii_unicode Examples.plain_email
                     Examples.transparent_hash Examples.ascii_words Examples.keep_all false
                     Examples.later Examples.later (ustr "filtered") [ustr "abcd1234"]
                     Examples.label_7 (ustr "INBOX") 11 (Some 123%Z) Examples.small_message
                     Examples.fresh_world _ _ _ in
          conj (proj1 (proj2 (proj2 H))) (proj1 (proj2 (proj2 (proj2 (proj2 (proj2 H))))))).
  vm_compute. reflexivity.
Defined.

Lemma fresh_world_unique_keys : StateDb.unique_keys (Orchestrator.ledger Examples.fresh_world).
Proof. intros i j r1 r2 Hi. discriminate Hi. Qed.

(** The same message, met again after its import, is left alone. *)
Lemma process_uid_imported_once_witness :
  exists item w1,
    @Orchestrator._process_uid Examples.ascii_unicode Examples.plain_email
      Examples.transparent_hash Examples.ascii_words Examples.keep_all false
      Examples.later Examples.later (ustr "filtered") [ustr "abcd1234"] Examples.label_7
      (ustr "INBOX") 11 (Some 123%Z) Examples.small_message Examples.fresh_world
    = (Return (Some item), w1)
    /\ (@Orchestrator._process_uid Examples.ascii_unicode Examples.plain_email
          Examples.transparent_hash Examples.ascii_words Examples.keep_all false
          Examples.later Examples.later (ustr "filtered") [ustr "efgh5678"] Examples.label_7
          (ustr "INBOX") 11 (Some 123%Z) Examples.small_message
          {| Orchestrator.ledger :=
               @Orchestrator._gmail_worker_item Examples.ascii_json Examples.later
                 (fun _ => ustr "error") item
                 (Return {| Orchestrator.gmail_message_id := ustr "gm-1";
                            Orchestrator.gmail_thread_id := None |})
                 (Orchestrator.ledger w1);
             Orchestrator.disk := Orchestrator.disk w1;
             Orchestrator.label_cache := Orchestrator.label_cache w1;
             Orchestrator.label_requests := Orchestrator.label_requests w1 |}).1
       = Return None.
Proof.
  eexists _, _. split; [vm_compute; reflexivity|].
  refine (proj1 (@process_uid_imported_once Examples.ascii_unicode Examples.plain_email
                   Examples.transparent_hash Examples.ascii_words Examples.ascii_json
                   Examples.keep_all Examples.keep_all false false
                   Examples.later Examples.later Examples.later Examples.later Examples.later
                   (ustr "filtered") (ustr "filtered") [ustr "abcd1234"] [ustr "efgh5678"]
                   Examples.label_7 Examples.label_7 (fun _ => ustr "error")
                   (ustr "INBOX") 11 123 Examples.small_message Examples.small_message
                   Examples.fresh_world _ _
                   {| Orchestrator.gmail_message_id := ustr "gm-1";
                      Orchestrator.gmail_thread_id := None |}
                   fresh_world_unique_keys _ _)).
  - vm_compute. reflexivity.
  - vm_compute. discriminate.
Defined.

(** The target [ Andrew@Vectorfy.co ] and a message to andrew@vectorfy.co. *)
Lemma configured_address_matches_witness :
  @Email.matches Examples.ascii_unicode Examples.plain_email
    {| Email.target_addresses := list_to_set [ustr "andrew@vectorfy.co"];
       Email.include_sender := false; Email.include_recipients := true |}
    Examples.to_andrew = true.
Proof.
  refine (@configured_address_matches Examples.ascii_unicode Examples.plain_email
            Examples.quoting_repr [ustr " Andrew@Vectorfy.co "] [ustr "andrew@vectorfy.co"]
            false true Examples.to_andrew (ustr " Andrew@Vectorfy.co ")
            (ustr "andrew@vectorfy.co") [] (ustr "andrew@vectorfy.co") _ _ _ _ _ _ _).
  - vm_compute. reflexivity.
  - apply list_elem_of_here.
  - vm_compute. discriminate.
  - discriminate.
  - apply list_elem_of_here.
  - vm_compute. reflexivity.
  - right. split; reflexivity.
Defined.

(** A second message of the folder gets a row of its own. *)
Lemma upsert_message_discovered_fresh_witness :
  exists m d',
    StateDb.upsert_message_discovered Examples.ledger_123 Examples.later
      (ustr "INBOX") 12 (Some 123%Z) None (ustr "fp-12") (Some 7%Z) = (Return m, d')
    /\ StateDb.MessageRow.id m = 2%Z /\ length (StateDb.messages d') = 2.
Proof.
  assert (Hvalid : exists m,
            StateDb._row_to_message
              (StateDb.inserted_row (StateDb.next_rowid Examples.ledger_123) Examples.later
                 (ustr "INBOX") 12 (Some 123%Z) None (ustr "fp-12") (Some 7%Z)) = Return m
            /\ StateDb.MessageRow.id m = 2%Z)
    by (eexists; split; vm_compute; reflexivity).
  destruct Hvalid as (m & Hm & Hid).
  destruct (upsert_message_discovered_fresh Examples.ledger_123 Examples.later (ustr "INBOX")
              12 (Some 123%Z) None (ustr "fp-12") (Some 7%Z) m) as [_ Hup].
  - intros r Hr. apply list_elem_of_singleton in Hr. subst r. reflexivity.
  - exact Hm.
  - eexists m, _. split; [exact Hup|]. split; [exact Hid | reflexivity].
Defined.

(** Two failures, then a value: three calls and two sleeps. *)
Lemma retry_async_first_success_witness :
  exists events,
    @Orchestrator.retry_async Examples.rational_floats unit Examples.third_time
      Examples.no_jitter 5 (1 # 2)%Q 20%Q (1 # 4)%Q (fun _ => true)
    = (Return tt, events ++ [@Orchestrator.Called Examples.rational_floats 3]).
Proof.
  destruct (@retry_async_first_success Examples.rational_floats unit Examples.third_time
              Examples.no_jitter 5 (1 # 2)%Q 20%Q (1 # 4)%Q (fun _ => true) 2 tt)
    as (events & _ & Hrun).
  - intros j Hj. exists (Exception 7). split; [|reflexivity].
    destruct j as [|[|j]]; [reflexivity | reflexivity | lia].
  - reflexivity.
  - lia.
  - lia.
  - exists events. exact Hrun.
Defined.

(** Three attempts that all fail: the third error is raised. *)
Lemma retry_async_all_fail_witness :
  exists events,
    @Orchestrator.retry_async Examples.rational_floats unit Examples.always_failing
      Examples.no_jitter 3 (1 # 2)%Q 20%Q (1 # 4)%Q (fun _ => true)
    = (Raise (Exception 7), events ++ [@Orchestrator.Called Examples.rational_floats 3]).
Proof.
  destruct (@retry_async_all_fail Examples.rational_floats unit Examples.always_failing
              Examples.no_jitter 3 (1 # 2)%Q 20%Q (1 # 4)%Q (fun _ => true) 3)
    as (events & e & _ & Hlast & Hrun).
  - reflexivity.
  - lia.
  - intros j _. exists (Exception 7). split; reflexivity.
  - exists events. injection Hlast as <-. exact Hrun.
Defined.

(** An error that is not retried ends the run at the first call. *)
Lemma retry_async_not_retried_witness :
  exists events,
    @Orchestrator.retry_async Examples.rational_floats unit Examples.always_failing
      Examples.no_jitter 5 (1 # 2)%Q 20%Q (1 # 4)%Q (fun _ => false)
    = (Raise (Exception 7), events ++ [@Orchestrator.Called Examples.rational_floats 1]).
Proof.
  destruct (@retry_async_not_retried Examples.rational_floats unit Examples.always_failing
              Examples.no_jitter 5 (1 # 2)%Q 20%Q (1 # 4)%Q (fun _ => false) 0 (Exception 7))
    as (events & _ & Hrun).
  - intros j Hj. lia.
  - reflexivity.
  - reflexivity.
  - lia.
  - lia.
  - exists events. exact Hrun.
Defined.

(** Five attempts allowed: at most five calls. *)
Lemma retry_async_calls_le_witness :
  (Z.of_nat
     (@Orchestrator.calls Examples.rational_floats
        (@Orchestrator.retry_async Examples.rational_floats unit Examples.always_failing
           Examples.no_jitter 5 (1 # 2)%Q 20%Q (1 # 4)%Q (fun _ => true)).2) <= 5)%Z.
Proof.
  apply (@retry_async_calls_le Examples.rational_floats unit Examples.always_failing
           Examples.no_jitter 5 (1 # 2)%Q 20%Q (1 # 4)%Q (fun _ => true)). lia.
Defined.

(** The default prefix and the folder Sent Messages. *)
Lemma custom_label_not_blank_witness :
  strip (@Labels.folder_to_custom_label Examples.ascii_words (ustr "iCloud")
           (ustr "Sent Messages")) <> [].
Proof.
  refine (proj1 (@custom_label_not_blank Examples.ascii_words (ustr " iCloud ") (ustr "iCloud")
                   (ustr "Sent Messages") Examples.label_7 ∅ _)).
  vm_compute. reflexivity.
Defined.
